(** * Matrix-times-vector benchmark (assign1/mXv.c)

    A shallow embedding of the five multiplication kernels, of the row
    partition of the distributed kernels, of the random fill and of the
    benchmark driver, together with the properties the specification states
    about them.

    Conventions of the embedding.
    - A C [int] is a [Z]; every index the kernels compute stays between
      [0] and [rows + tile_size], far inside the 32-bit range for the sizes
      the driver uses (at most [MAX_SIZE]), so no wrap-around arises.
      Integer division is C's truncating division, [Z.quot].
    - A [double*] buffer is a [list] of scalars and a [double**] matrix a
      list of row buffers; the three buffers of a kernel are distinct
      blocks, as the driver allocates them.  An access outside a buffer is
      undefined behaviour in C; here it stops the run with the fault
      [OutOfBounds].
    - The kernels are written over an arbitrary scalar type with its
      [zero], [add] and [mul], so that every theorem about them holds for
      IEEE doubles (no algebraic law is assumed unless a theorem says so)
      and can be evaluated on [PrimFloat.float].
    - [#pragma omp parallel for] loops are modelled by their sequential
      schedule, which is also what the program does when it is compiled
      without OpenMP; for the naive kernel, whose rows are independent,
      every order of the rows is covered as well. *)

From Stdlib Require Import String Ascii.
From Stdlib Require Import ZArith List Lia Bool Permutation Uint63 PrimFloat.
Import ListNotations.
Local Open Scope Z_scope.

Definition MAX_SIZE : Z := 32768.
Definition TILE_SIZE : Z := 16.

(** ** Buffers indexed by C integers *)

Section Buffers.
Context {A : Type}.

Definition load (l : list A) (i : Z) : option A :=
  if i <? 0 then None else nth_error l (Z.to_nat i).

Fixpoint upd (l : list A) (n : nat) (x : A) : list A :=
  match l, n with
  | [], _ => []
  | _ :: t, O => x :: t
  | h :: t, S n' => h :: upd t n' x
  end.

Definition store (l : list A) (i : Z) (x : A) : option (list A) :=
  if (0 <=? i) && (i <? Z.of_nat (length l))
  then Some (upd l (Z.to_nat i) x) else None.
End Buffers.

(** ** Counted loops

    [range lo hi step] lists the values the control variable of
    [for (i = lo; i < hi; i += step)] takes.  The fuel [hi - lo] is enough
    whenever [step >= 1] (lemmas [range_cons] and [range_steps]). *)

Fixpoint count_up (fuel : nat) (i hi step : Z) : list Z :=
  match fuel with
  | O => []
  | S f => if i <? hi then i :: count_up f (i + step) hi step else []
  end.

Definition range (lo hi step : Z) : list Z :=
  count_up (Z.to_nat (hi - lo)) lo hi step.

(** ** Faults and the state-and-fault monad *)

Inductive buffer : Type :=
| MatrixRows
| MatrixRow (i : Z)
| Vector
| Result
| Peer (k : Z).

Inductive fault : Type :=
| OutOfBounds (b : buffer) (i : Z)
| Diverges
| IntOverflow
| OutOfFuel.

Section Monad.
Context {S : Type}.

Definition M (A : Type) : Type := S -> fault + (A * S).

Definition ret {A} (a : A) : M A := fun s => inr (a, s).

Definition bind {A B} (c : M A) (k : A -> M B) : M B :=
  fun s => match c s with
           | inl e => inl e
           | inr (a, s') => k a s'
           end.

Definition raise {A} (e : fault) : M A := fun _ => inl e.

Definition lift {A} (e : fault) (o : option A) : M A :=
  match o with Some a => ret a | None => raise e end.

Definition modify (f : S -> S) : M unit := fun s => inr (tt, f s).

Fixpoint for_each {I} (l : list I) (body : I -> M unit) : M unit :=
  match l with
  | [] => ret tt
  | i :: l' => bind (body i) (fun _ => for_each l' body)
  end.

(** [for (i = lo; i < hi; i += step) body]: a loop that is entered with a
    step that does not advance never ends. *)
Definition for_ (lo hi step : Z) (body : Z -> M unit) : M unit :=
  if (lo <? hi) && (step <=? 0) then raise Diverges
  else for_each (range lo hi step) body.
End Monad.

Arguments M : clear implicits.

Declare Scope monad_scope.
Delimit Scope monad_scope with monad.
Notation "x <- c ;; k" := (bind c (fun x => k))
  (at level 61, c at next level, right associativity) : monad_scope.
Notation "c ;; k" := (bind c (fun _ => k))
  (at level 61, right associativity) : monad_scope.
Local Open Scope monad_scope.

(** ** The kernels *)

Section Kernels.
Context {D : Type}.
Variable zero : D.
Variables add mul : D -> D -> D.

Record mem : Type := Mem {
  matrix : list (list D);
  vector : list D;
  result : list D
}.

Definition get_matrix (i j : Z) : M mem D :=
  row <- (fun s => lift (OutOfBounds MatrixRows i) (load (matrix s) i) s) ;;
  lift (OutOfBounds (MatrixRow i) j) (load row j).

Definition get_vector (j : Z) : M mem D :=
  fun s => lift (OutOfBounds Vector j) (load (vector s) j) s.

Definition get_result (i : Z) : M mem D :=
  fun s => lift (OutOfBounds Result i) (load (result s) i) s.

Definition set_matrix (i j : Z) (x : D) : M mem unit :=
  fun s => match load (matrix s) i with
           | None => inl (OutOfBounds MatrixRows i)
           | Some row =>
               match store row j x with
               | None => inl (OutOfBounds (MatrixRow i) j)
               | Some row' =>
                   inr (tt, Mem (upd (matrix s) (Z.to_nat i) row')
                                (vector s) (result s))
               end
           end.

Definition set_vector (j : Z) (x : D) : M mem unit :=
  fun s => match store (vector s) j x with
           | None => inl (OutOfBounds Vector j)
           | Some v => inr (tt, Mem (matrix s) v (result s))
           end.

Definition set_result (i : Z) (x : D) : M mem unit :=
  fun s => match store (result s) i x with
           | None => inl (OutOfBounds Result i)
           | Some r => inr (tt, Mem (matrix s) (vector s) r)
           end.

(** [result[i] += matrix[i][j] * vector[j];] with the operands read as
    they are written ([accumulate_reading] below takes them in any
    order). *)
Definition accumulate (i j : Z) : M mem unit :=
  a <- get_matrix i j ;;
  b <- get_vector j ;;
  r <- get_result i ;;
  set_result i (add r (mul a b)).

Definition sequential_mvm (rows cols : Z) : M mem unit :=
  for_ 0 rows 1 (fun i =>
    set_result i zero ;;
    for_ 0 cols 1 (fun j => accumulate i j)).

Definition openmp_mvm (rows cols : Z) : M mem unit :=
  for_ 0 rows 1 (fun i =>
    set_result i zero ;;
    for_ 0 cols 1 (fun j => accumulate i j)).

(** [#pragma omp parallel for] hands the rows to the threads of a team.
    No row reads or writes what another row writes, so a run is described
    by the order in which the rows are completed: [openmp_mvm_in_order]
    runs them in a given order ([openmp_mvm] is the order of the loop). *)
Definition openmp_mvm_in_order (order : list Z) (cols : Z) : M mem unit :=
  for_each order (fun i =>
    set_result i zero ;;
    for_ 0 cols 1 (fun j => accumulate i j)).

Definition part_start (rows size rank : Z) : Z := (rows ÷ size) * rank.

Definition part_end (rows size rank : Z) : Z :=
  if rank =? size - 1 then rows else (rows ÷ size) * (rank + 1).

(** [MPI_Allgather(MPI_IN_PLACE, 0, MPI_DATATYPE_NULL, result, count,
    MPI_DOUBLE, MPI_COMM_WORLD)] as process [rank] sees it: block [k] of
    its [result] is overwritten with block [k] of the buffer process [k]
    entered the collective with ([peers] lists those buffers by rank);
    its own block stays as it is. *)
Definition MPI_Allgather_in_place (peers : list (list D))
  (count rank size : Z) : M mem unit :=
  for_ 0 size 1 (fun k =>
    if k =? rank then ret tt
    else
      for_ 0 count 1 (fun t =>
        pk <- lift (OutOfBounds (Peer k) k) (load peers k) ;;
        x <- lift (OutOfBounds (Peer k) (k * count + t))
                  (load pk (k * count + t)) ;;
        set_result (k * count + t) x)).

(** Lines 71-78 of [mpi_mvm]: the rows of the caller's partition. *)
Definition mpi_mvm_local (rows cols rank size : Z) : M mem unit :=
  let start := part_start rows size rank in
  let end_ := part_end rows size rank in
  for_ start end_ 1 (fun i =>
    set_result i zero ;;
    for_ 0 cols 1 (fun j => accumulate i j)).

Definition mpi_mvm (peers : list (list D)) (rows cols rank size : Z)
  : M mem unit :=
  mpi_mvm_local rows cols rank size ;;
  MPI_Allgather_in_place peers (rows ÷ size) rank size.

(** Lines 85-93 of [openmp_tiled_mvm], the loop nest in program order.
    The team that the pragma of line 84 sets to work on it is [run_team]
    below. *)
Definition openmp_tiled_mvm (rows cols tile_size : Z) : M mem unit :=
  for_ 0 rows tile_size (fun i =>
    for_ 0 cols tile_size (fun j =>
      for_ i (i + tile_size) 1 (fun ii =>
        for_ j (j + tile_size) 1 (fun jj => accumulate ii jj)))).

(** Lines 98-108 of [mpi_tiled_mvm]. *)
Definition mpi_tiled_mvm_local (rows cols rank size tile_size : Z)
  : M mem unit :=
  let start := part_start rows size rank in
  let end_ := part_end rows size rank in
  for_ start end_ tile_size (fun i =>
    for_ 0 cols tile_size (fun j =>
      for_ i (i + tile_size) 1 (fun ii =>
        for_ j (j + tile_size) 1 (fun jj => accumulate ii jj)))).

Definition mpi_tiled_mvm (peers : list (list D))
  (rows cols rank size tile_size : Z) : M mem unit :=
  mpi_tiled_mvm_local rows cols rank size tile_size ;;
  MPI_Allgather_in_place peers (rows ÷ size) rank size.

(** *** All the ranks of one MPI job

    Every process owns its own copy of the three buffers.  The collective
    synchronises the ranks: each one enters it with the buffer its local
    loop left, so the job runs the kernel on every rank with [peers] set
    to those buffers. *)

Definition state_of {A} (r : fault + (A * mem)) : fault + mem :=
  match r with inl e => inl e | inr (_, s) => inr s end.

Fixpoint collect {A} (l : list (fault + A)) : fault + list A :=
  match l with
  | [] => inr []
  | inl e :: _ => inl e
  | inr a :: l' =>
      match collect l' with inl e => inl e | inr t => inr (a :: t) end
  end.

Definition ranked {A} (l : list A) : list (Z * A) :=
  combine (map Z.of_nat (seq 0 (length l))) l.

Definition on_all_ranks (procs : list mem) (k : Z -> Z -> M mem unit)
  : fault + list mem :=
  let size := Z.of_nat (length procs) in
  collect (map (fun rp => state_of (k (fst rp) size (snd rp))) (ranked procs)).

Definition mpi_mvm_job (rows cols : Z) (procs : list mem) : fault + list mem :=
  match on_all_ranks procs (fun rank size => mpi_mvm_local rows cols rank size) with
  | inl e => inl e
  | inr entered =>
      on_all_ranks procs
        (fun rank size => mpi_mvm (map result entered) rows cols rank size)
  end.

Definition mpi_tiled_mvm_job (rows cols tile_size : Z) (procs : list mem)
  : fault + list mem :=
  match on_all_ranks procs
          (fun rank size => mpi_tiled_mvm_local rows cols rank size tile_size) with
  | inl e => inl e
  | inr entered =>
      on_all_ranks procs
        (fun rank size =>
           mpi_tiled_mvm (map result entered) rows cols rank size tile_size)
  end.

(** *** What the kernels compute, row by row *)

Definition entry (m : list (list D)) (i j : Z) : D :=
  match load m i with
  | Some row => match load row j with Some x => x | None => zero end
  | None => zero
  end.

Definition component (v : list D) (j : Z) : D :=
  match load v j with Some x => x | None => zero end.

(** The running sum [acc + m[i][j0]*v[j0] + m[i][j1]*v[j1] + ...], added
    from left to right as the loops of the kernels do. *)
Definition row_sum (m : list (list D)) (v : list D) (i : Z) (js : list Z)
  (acc : D) : D :=
  fold_left (fun a j => add a (mul (entry m i j) (component v j))) js acc.

Definition dot (m : list (list D)) (v : list D) (i cols : Z) : D :=
  row_sum m v i (range 0 cols 1) zero.

(** The buffers have the shape the caller promises: [rows] rows of [cols]
    entries, a vector of [cols] entries and a result of [rows] entries. *)
Definition shaped (rows cols : Z) (s : mem) : Prop :=
  Z.of_nat (length (matrix s)) = rows /\
  Forall (fun row => Z.of_nat (length row) = cols) (matrix s) /\
  Z.of_nat (length (vector s)) = cols /\
  Z.of_nat (length (result s)) = rows.

(** The matrix-vector product as the sequential kernel adds it up. *)
Definition product (m : list (list D)) (v : list D) (rows cols : Z) : list D :=
  map (fun i => dot m v i cols) (range 0 rows 1).

(** [holds rows cols m v s]: the buffers of [s] have the promised shape
    and its matrix and vector are [m] and [v]. *)
Definition holds (rows cols : Z) (m : list (list D)) (v : list D) (s : mem)
  : Prop :=
  shaped rows cols s /\ matrix s = m /\ vector s = v.

(** [acts rows cols m v c f]: from every such state [c] runs to its end
    without a fault, leaves such a state, and entry [k] of the result
    becomes [f k] of what it was. *)
Definition acts (rows cols : Z) (m : list (list D)) (v : list D)
  (c : M mem unit) (f : Z -> D -> D) : Prop :=
  forall s, holds rows cols m v s ->
    exists s', c s = inr (tt, s') /\ holds rows cols m v s' /\
               forall k, load (result s') k = option_map (f k) (load (result s) k).

Definition member (k : Z) (l : list Z) : bool := existsb (Z.eqb k) l.

(** [keeps c]: whenever [c] returns, the matrix and the vector are what
    they were. *)
Definition keeps {A} (c : M mem A) : Prop :=
  forall s a s', c s = inr (a, s') -> matrix s' = matrix s /\ vector s' = vector s.

(** Buffers of size [n] filled with one value each: matrix entries [a],
    vector entries [b], result entries [g]. *)
Definition constant_mem (n : nat) (a b g : D) : mem :=
  Mem (repeat (repeat a n) n) (repeat b n) (repeat g n).

End Kernels.

Arguments mem : clear implicits.
Arguments Mem {D} _ _ _.

(** ** The iteration space of the tiled loop nest *)

Definition tile_origins (rows cols tile_size : Z) : list (Z * Z) :=
  flat_map (fun i => map (fun j => (i, j)) (range 0 cols tile_size))
           (range 0 rows tile_size).

Definition tile_cells (tile_size : Z) (o : Z * Z) : list (Z * Z) :=
  flat_map (fun ii => map (fun jj => (ii, jj))
                          (range (snd o) (snd o + tile_size) 1))
           (range (fst o) (fst o + tile_size) 1).

Definition tiled_visits (rows cols tile_size : Z) : list (Z * Z) :=
  flat_map (tile_cells tile_size) (tile_origins rows cols tile_size).

(** How often the loop nest visits a cell, and how often a list of loop
    values holds an index. *)
Definition same_cell (p q : Z * Z) : bool :=
  (fst p =? fst q) && (snd p =? snd q).

Definition times (p : Z * Z) (l : list (Z * Z)) : nat :=
  length (filter (same_cell p) l).

Definition occ (a : Z) (l : list Z) : nat := length (filter (Z.eqb a) l).

(** ** The C library and the environment of one process

    [rand], [RAND_MAX], [malloc], the clock, [scanf_s] and the MPI runtime
    are not part of the repository.  The driver is parametric in the
    generator behind [rand]; what [malloc] returns, what the clock reads
    and what the other ranks contribute to a collective are read from the
    process state, so that a theorem quantifies over every behaviour of the
    environment. *)

Definition INT_MIN : Z := -2147483648.
Definition INT_MAX : Z := 2147483647.

(** [(double)n] for an [int] [n]. *)
Definition to_double (n : Z) : float :=
  if n <? 0 then PrimFloat.opp (PrimFloat.of_uint63 (Uint63.of_Z (- n)))
  else PrimFloat.of_uint63 (Uint63.of_Z n).

Inductive line : Type :=
| Header
| Timing (label : string) (N : Z) (elapsed : float).

Record proc : Type := Proc {
  bufs : mem float;        (* the matrix, vector and result of run_programs *)
  seed : Z;                (* the hidden state of rand() *)
  heap : list (option (nat -> float));
                           (* upcoming malloc calls: NULL, or the stale
                              contents of the block that is returned *)
  clock : list float;      (* upcoming readings of get_time() *)
  network : list (list (list float));
                           (* upcoming all-gathers: the buffers of the ranks *)
  stdin : list ascii;
  stdout : list string;
  report : list line       (* results.csv *)
}.

Definition with_bufs (st : proc) (b : mem float) : proc :=
  Proc b (seed st) (heap st) (clock st) (network st) (stdin st) (stdout st) (report st).
Definition with_seed (st : proc) (x : Z) : proc :=
  Proc (bufs st) x (heap st) (clock st) (network st) (stdin st) (stdout st) (report st).
Definition with_heap (st : proc) (h : list (option (nat -> float))) : proc :=
  Proc (bufs st) (seed st) h (clock st) (network st) (stdin st) (stdout st) (report st).
Definition with_clock (st : proc) (c : list float) : proc :=
  Proc (bufs st) (seed st) (heap st) c (network st) (stdin st) (stdout st) (report st).
Definition with_network (st : proc) (n : list (list (list float))) : proc :=
  Proc (bufs st) (seed st) (heap st) (clock st) n (stdin st) (stdout st) (report st).
Definition with_stdin (st : proc) (i : list ascii) : proc :=
  Proc (bufs st) (seed st) (heap st) (clock st) (network st) i (stdout st) (report st).
Definition with_stdout (st : proc) (o : list string) : proc :=
  Proc (bufs st) (seed st) (heap st) (clock st) (network st) (stdin st) o (report st).
Definition with_report (st : proc) (r : list line) : proc :=
  Proc (bufs st) (seed st) (heap st) (clock st) (network st) (stdin st) (stdout st) r.

(** A kernel runs on the buffers of the process. *)
Definition on_bufs {A} (c : M (mem float) A) : M proc A :=
  fun st => match c (bufs st) with
            | inl e => inl e
            | inr (a, b) => inr (a, with_bufs st b)
            end.

Definition printf (s : string) : M proc unit :=
  modify (fun st => with_stdout st (stdout st ++ [s])).

Definition fprintf (l : line) : M proc unit :=
  modify (fun st => with_report st (report st ++ [l])).

(** [malloc] of [n] doubles: [NULL], or a block whose contents are whatever
    the heap held there. *)
Definition malloc (n : Z) : M proc (option (list float)) :=
  fun st => match heap st with
            | Some stale :: h =>
                inr (Some (map stale (seq 0 (Z.to_nat n))), with_heap st h)
            | _ => inr (None, with_heap st (tl (heap st)))
            end.

(** How many of the upcoming [malloc] calls succeed before the first
    failure. *)
Fixpoint successes (h : list (option (nat -> float))) : nat :=
  match h with
  | Some _ :: h' => S (successes h')
  | _ => O
  end.

Definition get_time : M proc float :=
  fun st => match clock st with
            | t :: c => inr (t, with_clock st c)
            | [] => inr (0%float, st)
            end.

Definition MPI_Barrier : M proc unit := ret tt.

(** The buffers the ranks enter the next collective with. *)
Definition next_peers : M proc (list (list float)) :=
  fun st => match network st with
            | p :: n => inr (p, with_network st n)
            | [] => inr ([], st)
            end.

(** *** Input: [scanf_s("%d", &choice)] and [getchar] *)

Definition is_space (c : ascii) : bool :=
  let n := N_of_ascii c in
  (N.eqb n 32 || (N.leb 9 n && N.leb n 13))%bool.

Definition digit_of (c : ascii) : option Z :=
  let n := Z.of_N (N_of_ascii c) in
  if (48 <=? n) && (n <=? 57) then Some (n - 48) else None.

Fixpoint skip_spaces (s : list ascii) : list ascii :=
  match s with
  | c :: s' => if is_space c then skip_spaces s' else s
  | [] => []
  end.

Fixpoint read_digits (acc : Z) (s : list ascii) : Z * list ascii :=
  match s with
  | c :: s' =>
      match digit_of c with
      | Some d => read_digits (acc * 10 + d) s'
      | None => (acc, s)
      end
  | [] => (acc, [])
  end.

Inductive scanned : Type :=
| Assigned (v : Z)   (* scanf returned 1 *)
| NoMatch            (* scanf returned 0 *)
| EndOfFile          (* scanf returned EOF *)
| Unrepresentable.   (* the number does not fit an int: undefined in C *)

(** The [%d] conversion: white space is skipped, an optional sign and the
    longest run of digits are consumed; the value is stored in an [int]. *)
Definition scan_int (s : list ascii) : scanned * list ascii :=
  match skip_spaces s with
  | [] => (EndOfFile, [])
  | c :: s' =>
      let negative := Ascii.eqb c "-"%char in
      let body := if (negative || Ascii.eqb c "+"%char)%bool then s' else c :: s' in
      match body with
      | [] => (EndOfFile, [])
      | d :: _ =>
          match digit_of d with
          | None => (NoMatch, body)
          | Some _ =>
              let (v, rest) := read_digits 0 body in
              let n := if negative then - v else v in
              if (INT_MIN <=? n) && (n <=? INT_MAX)
              then (Assigned n, rest) else (Unrepresentable, rest)
          end
      end
  end.

Definition newline : ascii := ascii_of_N 10.

(** [while (getchar() != '\n');] -- at end of input [getchar] returns [EOF]
    for ever and the loop does not end. *)
Fixpoint discard_line (s : list ascii) : option (list ascii) :=
  match s with
  | [] => None
  | c :: s' => if Ascii.eqb c newline then Some s' else discard_line s'
  end.

Definition scanf_s : M proc scanned :=
  fun st => let (r, rest) := scan_int (stdin st) in
            match r with
            | Unrepresentable => inl IntOverflow
            | _ => inr (r, with_stdin st rest)
            end.

Definition flush_line : M proc unit :=
  fun st => match discard_line (stdin st) with
            | None => inl Diverges
            | Some rest => inr (tt, with_stdin st rest)
            end.

Definition reprompt : string :=
  "Invalid choice! Please enter a number between 1 and 5: ".

(** Lines 207-212 of [main].  Every rejected attempt discards at least the
    newline that ends it, so [fuel] above the length of the input is never
    used up (lemma [read_choice_fuel]). *)
Fixpoint read_choice_loop (fuel : nat) : M proc Z :=
  match fuel with
  | O => raise OutOfFuel
  | S fuel' =>
      r <- scanf_s ;;
      match r with
      | Assigned choice =>
          if (choice <? 1) || (choice >? 5)
          then printf reprompt ;; flush_line ;; read_choice_loop fuel'
          else ret choice
      | _ => printf reprompt ;; flush_line ;; read_choice_loop fuel'
      end
  end.

Definition read_choice : M proc Z :=
  fun st => read_choice_loop (S (length (stdin st))) st.

(** *** The driver *)

Definition nl : string := String newline EmptyString.

Definition allocation_failed : string :=
  String.append "Memory allocation failed!" nl.

Fixpoint doubling (fuel : nat) (n hi : Z) : list Z :=
  match fuel with
  | O => []
  | S f => if n <=? hi then n :: doubling f (n * 2) hi else []
  end.

(** The sizes of [for (int N = 64; N <= MAX_SIZE; N *= 2)]; an [int]
    doubles fewer than 32 times, and the loop ends after ten. *)
Definition sizes : list Z := doubling 32 64 MAX_SIZE.

Definition label_of (program_type : Z) : string :=
  if program_type =? 1 then "Sequential"
  else if program_type =? 2 then "OpenMP"
  else if program_type =? 3 then "MPI"
  else if program_type =? 4 then "OpenMP Tiled"
  else "MPI Tiled".

Definition menu : list string :=
  map (fun s => String.append s nl)
    [ "Choose a program to run:"; "1. Sequential"; "2. OpenMP Naive";
      "3. MPI Naive"; "4. OpenMP Tiled"; "5. MPI Tiled" ]%string.

Section Driver.
Variable RAND_MAX : Z.
(** The generator behind [rand()]: from its state to the value returned
    and the next state. *)
Variable rand_step : Z -> Z * Z.

Definition rand : M proc Z :=
  fun st => let (v, s) := rand_step (seed st) in inr (v, with_seed st s).

Definition srand (s : Z) : M proc unit :=
  modify (fun st => with_seed st (s mod 4294967296)).

(** [(double)rand() / RAND_MAX] *)
Definition unit_random (r : Z) : float :=
  (to_double r / to_double RAND_MAX)%float.

Fixpoint allocate_rows (todo : list Z) (cols : Z) (acc : list (list float))
  : M proc (option (list (list float))) :=
  match todo with
  | [] => ret (Some acc)
  | _ :: todo' =>
      row <- malloc cols ;;
      match row with
      | None => printf allocation_failed ;; ret None
      | Some r => allocate_rows todo' cols (acc ++ [r])
      end
  end.

Definition allocate_matrix (rows cols : Z)
  : M proc (option (list (list float))) :=
  p <- malloc rows ;;
  match p with
  | None => printf allocation_failed ;; ret None
  | Some _ => allocate_rows (range 0 rows 1) cols []
  end.

Definition allocate_vector (size : Z) : M proc (option (list float)) :=
  p <- malloc size ;;
  match p with
  | None => printf allocation_failed ;; ret None
  | Some v => ret (Some v)
  end.

Definition fill_random (rows cols : Z) : M proc unit :=
  for_ 0 rows 1 (fun i =>
    for_ 0 cols 1 (fun j =>
      r <- rand ;; on_bufs (set_matrix i j (unit_random r)))) ;;
  for_ 0 cols 1 (fun i =>
    r <- rand ;; on_bufs (set_vector i (unit_random r))).

(** The [switch] of [run_programs]: each of the five cases brackets its
    kernel with two clock readings (between barriers for the MPI variants)
    and prints one record; any other value prints nothing.  The buffers the
    other ranks bring to the collective of the MPI kernels come from the
    environment. *)
Definition benchmark (program_type N rank size : Z) : M proc unit :=
  if program_type =? 1 then
    start_time <- get_time ;;
    on_bufs (sequential_mvm 0%float PrimFloat.add PrimFloat.mul N N) ;;
    end_time <- get_time ;;
    fprintf (Timing "Sequential" N (end_time - start_time)%float)
  else if program_type =? 2 then
    start_time <- get_time ;;
    on_bufs (openmp_mvm 0%float PrimFloat.add PrimFloat.mul N N) ;;
    end_time <- get_time ;;
    fprintf (Timing "OpenMP" N (end_time - start_time)%float)
  else if program_type =? 3 then
    MPI_Barrier ;;
    start_time <- get_time ;;
    peers <- next_peers ;;
    on_bufs (mpi_mvm 0%float PrimFloat.add PrimFloat.mul peers N N rank size) ;;
    MPI_Barrier ;;
    end_time <- get_time ;;
    fprintf (Timing "MPI" N (end_time - start_time)%float)
  else if program_type =? 4 then
    start_time <- get_time ;;
    on_bufs (openmp_tiled_mvm PrimFloat.add PrimFloat.mul N N TILE_SIZE) ;;
    end_time <- get_time ;;
    fprintf (Timing "OpenMP Tiled" N (end_time - start_time)%float)
  else if program_type =? 5 then
    MPI_Barrier ;;
    start_time <- get_time ;;
    peers <- next_peers ;;
    on_bufs (mpi_tiled_mvm PrimFloat.add PrimFloat.mul peers N N rank size
               TILE_SIZE) ;;
    MPI_Barrier ;;
    end_time <- get_time ;;
    fprintf (Timing "MPI Tiled" N (end_time - start_time)%float)
  else ret tt.

(** [free] gives the blocks back; [bufs] keeps their last contents so
    that the final state still shows what the kernel left. *)
Definition run_programs (program_type N rank size : Z) : M proc unit :=
  matrix <- allocate_matrix N N ;;
  match matrix with
  | None => ret tt
  | Some m =>
      vector <- allocate_vector N ;;
      match vector with
      | None => ret tt
      | Some v =>
          result <- allocate_vector N ;;
          match result with
          | None => ret tt
          | Some r =>
              modify (fun st => with_bufs st (Mem m v r)) ;;
              fill_random N N ;;
              benchmark program_type N rank size
          end
      end
  end.

(** [main]: [now] is what [time(NULL)] returns and [can_open] whether
    [fopen_s] succeeds; the result is the exit status. *)
Definition main (rank size now : Z) (can_open : bool) : M proc Z :=
  srand now ;;
  for_each menu printf ;;
  choice <- read_choice ;;
  if can_open then
    modify (fun st => with_report st []) ;;
    fprintf Header ;;
    for_each sizes (fun N => run_programs choice N rank size) ;;
    ret 0
  else
    printf (String.append "Error opening file!" nl) ;; ret 1.
End Driver.

(** The state in which [run_programs] returns when one of its allocations
    fails: the heap has served the calls up to the failing one and the
    message is on the terminal; nothing else has changed. *)
Definition fail_state (st : proc) : proc :=
  with_stdout (with_heap st (skipn (S (successes (heap st))) (heap st)))
              (stdout st ++ [allocation_failed]).

(** The block a successful [malloc] of [n] doubles hands out. *)
Definition served (n : Z) (o : option (nat -> float)) : list float :=
  match o with
  | Some stale => map stale (seq 0 (Z.to_nat n))
  | None => []
  end.

(** The state in which [run_programs] starts to fill its buffers when its
    [N + 3] allocations succeed: the row-pointer block, [N] rows, the
    vector and the result, each with the stale contents the heap had. *)
Definition allocated (N : Z) (st : proc) : proc :=
  let n := Z.to_nat N in
  with_bufs (with_heap st (skipn (n + 3) (heap st)))
    (Mem (map (served N) (firstn n (skipn 1 (heap st))))
         (served N (nth (n + 1) (heap st) None))
         (served N (nth (n + 2) (heap st) None))).

(** Entry [[i][j]] of the matrix, if there is one. *)
Definition cell {D} (b : mem D) (i j : Z) : option D :=
  match load (matrix b) i with
  | Some row => load row j
  | None => None
  end.

(** The lines [c] appends to the report are timing records with the
    label [lbl]. *)
Definition is_timing (lbl : string) (l : line) : Prop :=
  exists N t, l = Timing lbl N t.

Definition records {A} (lbl : string) (c : M proc A) : Prop :=
  forall st a st', c st = inr (a, st') ->
    exists l, report st' = report st ++ l /\ Forall (is_timing lbl) l.

(** The state in which the selection loop asks again: the re-prompt is on
    the terminal and the input goes on at [rest]. *)
Definition next_attempt (st : proc) (rest : list ascii) : proc :=
  with_stdin (with_stdout st (stdout st ++ [reprompt])) rest.

(** The state in which [main] reads the selection. *)
Definition at_prompt (now : Z) (st : proc) : proc :=
  with_stdout (with_seed st (now mod 4294967296))
              (stdout st ++ menu).

(** What [scanf_s] found is not a selection the loop of [main] accepts. *)
Definition rejected (r : scanned) : Prop :=
  match r with
  | Assigned c => c < 1 \/ 5 < c
  | NoMatch | EndOfFile => True
  | Unrepresentable => False
  end.

(** [|x - ref| / |ref|] *)
Definition relative_error (x ref : float) : float :=
  (abs (x - ref) / abs ref)%float.

(** The tolerance [1e-9] (the nearest double). *)
Definition tolerance : float := 0x1.12e0be826d695p-30%float.

Definition far_apart (xs refs : list float) : bool :=
  forallb (fun p => PrimFloat.ltb tolerance (relative_error (fst p) (snd p)))
          (combine xs refs).

(** [st'] differs from [st] at most in the buffers and in the state of the
    generator. *)
Definition same_world (st st' : proc) : Prop :=
  heap st' = heap st /\ clock st' = clock st /\ network st' = network st /\
  stdin st' = stdin st /\ stdout st' = stdout st /\ report st' = report st.

(** A value in the closed unit interval. *)
Definition in_unit_interval (x : float) : bool :=
  (PrimFloat.leb 0 x && PrimFloat.leb x 1)%bool.

(** [P] holds of the [n] integers from [r] on. *)
Fixpoint all_from (n : nat) (r : Z) (P : Z -> bool) : bool :=
  match n with
  | O => true
  | S n' => P r && all_from n' (r + 1) P
  end.

(** The generator of the Microsoft C runtime, for which the source is
    written ([scanf_s], [fopen_s]): [RAND_MAX] is [0x7fff]. *)
Definition MSVC_RAND_MAX : Z := 32767.

Definition msvc_rand (s : Z) : Z * Z :=
  let s' := (s * 214013 + 2531011) mod 4294967296 in
  ((s' / 65536) mod 32768, s').

(** A process that owns the buffers [b], with the generator in state [sd]
    and nothing else around it. *)
Definition seeded (sd : Z) (b : mem float) : proc :=
  Proc b sd [] [] [] [] [] [].

(** A process at the start of [run_programs]: the generator was seeded
    with [sd], the heap will serve [blocks] requests and every block it
    hands out holds the stale value [g] in each entry. *)
Definition stale_heap (sd : Z) (blocks : nat) (g : float) : proc :=
  Proc (Mem [] [] []) sd (repeat (Some (fun _ => g)) blocks) [] [] [] [] [].

(** A process at the start of [main] that is typed [input]; the first
    [malloc] fails, the next [blocks] succeed, then memory is exhausted. *)
Definition typed (input : string) (blocks : nat) : proc :=
  Proc (Mem [] [] []) 0 (None :: repeat (Some (fun _ => 0%float)) blocks)
       [] [] (list_ascii_of_string input) [] [].

(** The lines "7" and "3", typed one after the other. *)
Definition seven_then_three : string :=
  String "7" (String newline (String "3" nl)).

(** Four processes with one matrix and vector of size 128 and result
    buffers that hold different stale values. *)
Definition four_ranks_128 : list (mem float) :=
  [ constant_mem 128 1%float 2%float 3%float;
    constant_mem 128 1%float 2%float 5%float;
    constant_mem 128 1%float 2%float 7%float;
    constant_mem 128 1%float 2%float 11%float ].

(** *** The generator, call by call *)

(** The state of the generator after [n] calls of [rand] from the state
    [sd], and the value call number [n] (counted from 0) returns. *)
Fixpoint rand_state (rand_step : Z -> Z * Z) (n : nat) (sd : Z) : Z :=
  match n with
  | O => sd
  | S n' => snd (rand_step (rand_state rand_step n' sd))
  end.

Definition rand_output (rand_step : Z -> Z * Z) (n : nat) (sd : Z) : Z :=
  fst (rand_step (rand_state rand_step n sd)).

(** *** Lines of input *)

(** A line the selection loop rejects without reading a number: its first
    character is neither white space, a sign nor a digit, and none of the
    others is a newline. *)
Definition junk_line (w : list ascii) : Prop :=
  match w with
  | c :: w' =>
      is_space c = false /\ digit_of c = None /\
      Ascii.eqb c "-"%char = false /\ Ascii.eqb c "+"%char = false /\
      Forall (fun x => Ascii.eqb x newline = false) w'
  | [] => False
  end.

(** The input in which the lines [junk] precede the rest [s]. *)
Definition lines_then (junk : list (list ascii)) (s : list ascii) : list ascii :=
  concat (map (fun w => w ++ [newline]) junk) ++ s.

(** *** The operands of [result[i] += matrix[i][j] * vector[j]]

    C does not sequence the reads of the three operands of the statement;
    [accumulate] takes them as written.  [accumulate_reading] reads them in
    a given order, which decides the access that is reported when more
    than one of them is outside its buffer. *)
Inductive operand : Type := OfMatrix | OfVector | OfResult.

Definition operand_eqb (a b : operand) : bool :=
  match a, b with
  | OfMatrix, OfMatrix | OfVector, OfVector | OfResult, OfResult => true
  | _, _ => false
  end.

Section Unsequenced.
Context {D : Type}.
Variables add mul : D -> D -> D.

Definition get_operand (i j : Z) (o : operand) : M (mem D) D :=
  match o with
  | OfMatrix => get_matrix i j
  | OfVector => get_vector j
  | OfResult => get_result i
  end.

Definition accumulate_reading (first second third : operand) (i j : Z)
  : M (mem D) unit :=
  x <- get_operand i j first ;;
  y <- get_operand i j second ;;
  z <- get_operand i j third ;;
  let value o :=
    if operand_eqb o first then x
    else if operand_eqb o second then y else z in
  set_result i (add (value OfResult) (mul (value OfMatrix) (value OfVector))).

(** The loop nest of the tiled kernels around a statement [body]. *)
Definition tiled_nest (body : Z -> Z -> M (mem D) unit)
  (start end_ cols tile_size : Z) : M (mem D) unit :=
  for_ start end_ tile_size (fun i =>
    for_ 0 cols tile_size (fun j =>
      for_ i (i + tile_size) 1 (fun ii =>
        for_ j (j + tile_size) 1 (fun jj => body ii jj)))).

Definition openmp_tiled_mvm_reading (first second third : operand)
  (rows cols tile_size : Z) : M (mem D) unit :=
  tiled_nest (accumulate_reading first second third) 0 rows cols tile_size.

End Unsequenced.

(** *** The team of [#pragma omp parallel for collapse(2)]

    The pragma of [openmp_tiled_mvm] hands the tiles to the threads of a
    team, and the threads run at the same time.  [result[ii] += ...] is a
    load of [result[ii]] followed by a store, and a step of another thread
    can fall between the two.  A thread is the list of the cells it still
    has to visit and, between a load and its store, the row and the value
    it is about to store; a schedule names the thread that takes the next
    step.  [openmp_tiled_mvm] itself is the nest in program order: the team
    of one thread, or any team whose threads take their chunks in turn. *)
Section Team.
Context {D : Type}.
Variables add mul : D -> D -> D.

Record thread : Type := Thread {
  storing : option (Z * D);
  cells : list (Z * Z)
}.

Definition thread_step (t : thread) : M (mem D) thread :=
  match storing t with
  | Some (ii, x) => set_result ii x ;; ret (Thread None (cells t))
  | None =>
      match cells t with
      | [] => ret t
      | (ii, jj) :: rest =>
          a <- get_matrix ii jj ;;
          b <- get_vector jj ;;
          r <- get_result ii ;;
          ret (Thread (Some (ii, add r (mul a b))) rest)
      end
  end.

Fixpoint run_team (schedule : list nat) (team : list thread)
  : M (mem D) (list thread) :=
  match schedule with
  | [] => ret team
  | k :: schedule' =>
      match nth_error team k with
      | Some t => t' <- thread_step t ;; run_team schedule' (upd team k t')
      | None => run_team schedule' team
      end
  end.


(** The team in which thread [k] was given the tiles [nth k chunks]. *)
Definition team_of (tile_size : Z) (chunks : list (list (Z * Z)))
  : list thread :=
  map (fun tiles => Thread None (flat_map (tile_cells tile_size) tiles))
      chunks.

(** The schedule in which the threads from number [k] on run one after
    the other, each to the end of its chunk. *)
Fixpoint in_turn (k : nat) (team : list thread) : list nat :=
  match team with
  | [] => []
  | t :: team' => repeat k (2 * length (cells t)) ++ in_turn (S k) team'
  end.
End Team.

Arguments thread : clear implicits.
Arguments Thread {D} _ _.
Arguments team_of D tile_size chunks : clear implicits.


(** *** What the size loop writes

    The kernel [run_programs] times for a [program_type] from 1 to 5. *)
Definition kernel_of (program_type : Z) (peers : list (list float))
  (N rank size : Z) : M (mem float) unit :=
  if program_type =? 1 then
    sequential_mvm 0%float PrimFloat.add PrimFloat.mul N N
  else if program_type =? 2 then
    openmp_mvm 0%float PrimFloat.add PrimFloat.mul N N
  else if program_type =? 3 then
    mpi_mvm 0%float PrimFloat.add PrimFloat.mul peers N N rank size
  else if program_type =? 4 then
    openmp_tiled_mvm PrimFloat.add PrimFloat.mul N N TILE_SIZE
  else
    mpi_tiled_mvm PrimFloat.add PrimFloat.mul peers N N rank size TILE_SIZE.

(** The records of a run of the size loop over [l] that starts with the
    heap [h] and the clock [c]: a size whose [N + 3] requests the heap
    serves takes two readings of the clock and gets one record; at any
    other size the heap is left after the request that failed. *)
Fixpoint expected_records (lbl : string) (l : list Z)
  (h : list (option (nat -> float))) (c : list float) : list line :=
  match l with
  | [] => []
  | N :: l' =>
      if (Z.to_nat N + 3 <=? successes h)%nat
      then Timing lbl N (hd 0 (tl c) - hd 0 c)%float ::
           expected_records lbl l' (skipn (Z.to_nat N + 3) h) (tl (tl c))
      else expected_records lbl l' (skipn (S (successes h)) h) c
  end.

(** The sizes of [l] at which an allocation fails. *)
Fixpoint failed_sizes (l : list Z) (h : list (option (nat -> float)))
  : list Z :=
  match l with
  | [] => []
  | N :: l' =>
      if (Z.to_nat N + 3 <=? successes h)%nat
      then failed_sizes l' (skipn (Z.to_nat N + 3) h)
      else N :: failed_sizes l' (skipn (S (successes h)) h)
  end.

(** The state in which [main] enters the size loop: the selection was read
    into [st] and the report holds the header. *)
Definition report_opened (st : proc) : proc := with_report st [Header].

(** * Properties *)

(** ** The row partition of the distributed kernels *)

Lemma quot_chunk (N size : Z) :
  0 <= N -> 1 <= size -> 0 <= N ÷ size /\ (N ÷ size) * size <= N < (N ÷ size) * size + size.
Proof.
  intros HN Hs. rewrite Z.quot_div_nonneg by lia.
  pose proof (Z.div_mod N size ltac:(lia)) as E.
  pose proof (Z.mod_pos_bound N size ltac:(lia)) as B.
  pose proof (Z.div_pos N size HN ltac:(lia)) as P.
  nia.
Qed.

Lemma part_bounds (N size r : Z) :
  0 <= N -> 1 <= size -> 0 <= r < size ->
  0 <= part_start N size r <= part_end N size r /\ part_end N size r <= N.
Proof.
  intros HN Hs Hr. destruct (quot_chunk N size HN Hs) as [Hc [Hlo Hhi]].
  unfold part_start, part_end. destruct (Z.eqb_spec r (size - 1)); nia.
Qed.

Lemma part_adjacent (N size r : Z) :
  0 <= r < size - 1 -> part_end N size r = part_start N size (r + 1).
Proof.
  intros Hr. unfold part_start, part_end.
  destruct (Z.eqb_spec r (size - 1)); [lia | reflexivity].
Qed.

(** C3: for every row count [N >= 0] and worker count [size >= 1] the
    ranges [[part_start r, part_end r)] of the ranks [0 <= r < size] cover
    exactly the rows [0 <= i < N] (no gap, nothing outside) and no row lies
    in the ranges of two different ranks, whether or not [size] divides
    [N]. *)
Theorem partition_exact (N size : Z) (HN : 0 <= N) (Hsize : 1 <= size) :
  (forall i, 0 <= i < N <->
             exists r, 0 <= r < size /\
                       part_start N size r <= i < part_end N size r) /\
  (forall r1 r2 i,
      0 <= r1 < size -> 0 <= r2 < size ->
      part_start N size r1 <= i < part_end N size r1 ->
      part_start N size r2 <= i < part_end N size r2 -> r1 = r2).
Proof.
  destruct (quot_chunk N size HN Hsize) as [Hc [Hlo Hhi]].
  split.
  - intros i; split.
    + intros Hi.
      destruct (Z_lt_le_dec i ((N ÷ size) * (size - 1))) as [Hin | Hlast].
      * exists (i / (N ÷ size)).
        assert (0 < N ÷ size) by nia.
        pose proof (Z.div_mod i (N ÷ size) ltac:(lia)).
        pose proof (Z.mod_pos_bound i (N ÷ size) ltac:(lia)).
        assert (0 <= i / (N ÷ size) < size - 1) by nia.
        unfold part_start, part_end.
        destruct (Z.eqb_spec (i / (N ÷ size)) (size - 1)); [lia | nia].
      * exists (size - 1). unfold part_start, part_end.
        rewrite Z.eqb_refl. lia.
    + intros [r [Hr Hi]]. pose proof (part_bounds N size r HN Hsize Hr). lia.
  - intros r1 r2 i H1 H2. unfold part_start, part_end.
    destruct (Z.eqb_spec r1 (size - 1)), (Z.eqb_spec r2 (size - 1)); nia.
Qed.

Lemma partition_exact_witness :
  (forall i, 0 <= i < 10 <->
             exists r, 0 <= r < 3 /\
                       part_start 10 3 r <= i < part_end 10 3 r) /\
  (forall r1 r2 i,
      0 <= r1 < 3 -> 0 <= r2 < 3 ->
      part_start 10 3 r1 <= i < part_end 10 3 r1 ->
      part_start 10 3 r2 <= i < part_end 10 3 r2 -> r1 = r2).
Proof. apply (partition_exact 10 3); lia. Defined.

(** ** Buffers *)

Section BufferFacts.
Context {A : Type}.
Implicit Types (l : list A) (i j : Z) (x : A).

Lemma load_some l i :
  0 <= i < Z.of_nat (length l) -> exists x, load l i = Some x.
Proof.
  intros H. unfold load. destruct (Z.ltb_spec i 0); [lia|].
  destruct (nth_error l (Z.to_nat i)) eqn:E; eauto.
  apply nth_error_None in E. lia.
Qed.

Lemma load_range l i x :
  load l i = Some x -> 0 <= i < Z.of_nat (length l).
Proof.
  unfold load. destruct (Z.ltb_spec i 0); [discriminate|].
  intros E. assert (nth_error l (Z.to_nat i) <> None) as N by congruence.
  apply nth_error_Some in N. lia.
Qed.

Lemma load_none l i :
  load l i = None <-> ~ 0 <= i < Z.of_nat (length l).
Proof.
  split.
  - intros E H. destruct (load_some l i H). congruence.
  - intros H. destruct (load l i) eqn:E; trivial.
    apply load_range in E. contradiction.
Qed.

Lemma upd_length l n x : length (upd l n x) = length l.
Proof.
  revert n; induction l as [|h t IH]; intros [|n]; simpl; auto.
Qed.

Lemma nth_error_upd l n k x :
  nth_error (upd l n x) k =
  if Nat.eqb k n then option_map (fun _ => x) (nth_error l k) else nth_error l k.
Proof.
  revert n k; induction l as [|h t IH]; intros [|n] [|k]; simpl; auto.
  destruct (Nat.eqb k n); reflexivity.
Qed.

Lemma store_some l i x :
  0 <= i < Z.of_nat (length l) -> store l i x = Some (upd l (Z.to_nat i) x).
Proof.
  intros H. unfold store.
  destruct (Z.leb_spec 0 i), (Z.ltb_spec i (Z.of_nat (length l))); simpl; auto; lia.
Qed.

Lemma store_range l i x l' :
  store l i x = Some l' ->
  0 <= i < Z.of_nat (length l) /\ l' = upd l (Z.to_nat i) x.
Proof.
  unfold store.
  destruct (Z.leb_spec 0 i), (Z.ltb_spec i (Z.of_nat (length l)));
    simpl; intros E; inversion E; split; auto; lia.
Qed.

Lemma load_upd l n k x :
  load (upd l n x) k =
  if k =? Z.of_nat n then option_map (fun _ => x) (load l k) else load l k.
Proof.
  unfold load. destruct (Z.ltb_spec k 0).
  - destruct (Z.eqb_spec k (Z.of_nat n)); reflexivity.
  - rewrite nth_error_upd.
    destruct (Z.eqb_spec k (Z.of_nat n)), (Nat.eqb_spec (Z.to_nat k) n);
      auto; lia.
Qed.

Lemma load_ext l1 l2 :
  length l1 = length l2 -> (forall i, load l1 i = load l2 i) -> l1 = l2.
Proof.
  intros Hlen H. apply nth_error_ext. intros n.
  specialize (H (Z.of_nat n)). unfold load in H.
  destruct (Z.ltb_spec (Z.of_nat n) 0); [lia|].
  now rewrite Nat2Z.id in H.
Qed.
End BufferFacts.

(** ** Counted loops *)

Lemma count_up_enough (step hi : Z) (f1 f2 : nat) (i : Z) :
  1 <= step -> hi - i <= Z.of_nat f1 -> hi - i <= Z.of_nat f2 ->
  count_up f1 i hi step = count_up f2 i hi step.
Proof.
  intros Hs. revert f2 i.
  induction f1 as [|f1 IH]; intros [|f2] i H1 H2; simpl;
    destruct (Z.ltb_spec i hi); try reflexivity; try lia.
  f_equal. apply IH; lia.
Qed.

Lemma range_nil (lo hi step : Z) : hi <= lo -> range lo hi step = [].
Proof.
  intros H. unfold range. replace (Z.to_nat (hi - lo)) with O by lia.
  reflexivity.
Qed.

Lemma range_cons (lo hi step : Z) :
  1 <= step -> lo < hi -> range lo hi step = lo :: range (lo + step) hi step.
Proof.
  intros Hs H. unfold range.
  destruct (Z.to_nat (hi - lo)) as [|f] eqn:E; [lia|].
  simpl. destruct (Z.ltb_spec lo hi); [|lia].
  f_equal. apply count_up_enough; lia.
Qed.

(** The loop [for (i = lo; i < lo + n*step; i += step)] runs [n] times. *)
Lemma range_steps (step : Z) (n : nat) (lo : Z) :
  1 <= step ->
  range lo (lo + Z.of_nat n * step) step =
  map (fun k => lo + Z.of_nat k * step) (seq 0 n).
Proof.
  intros Hs. revert lo. induction n as [|n IH]; intros lo.
  - apply range_nil. lia.
  - rewrite range_cons by nia.
    replace (lo + Z.of_nat (S n) * step) with ((lo + step) + Z.of_nat n * step) by lia.
    rewrite IH. simpl. f_equal; [lia|].
    rewrite <- seq_shift, map_map. apply map_ext. intros k. lia.
Qed.

Lemma range_unit (lo hi : Z) :
  range lo hi 1 = map (fun k => lo + Z.of_nat k) (seq 0 (Z.to_nat (hi - lo))).
Proof.
  destruct (Z_le_gt_dec hi lo).
  - rewrite range_nil by lia. replace (Z.to_nat (hi - lo)) with O by lia. reflexivity.
  - replace hi with (lo + Z.of_nat (Z.to_nat (hi - lo)) * 1) at 1 by lia.
    rewrite range_steps by lia. apply map_ext. intros; lia.
Qed.

Lemma in_range_unit (lo hi x : Z) : In x (range lo hi 1) <-> lo <= x < hi.
Proof.
  rewrite range_unit, in_map_iff. split.
  - intros [k [E Hk]]. apply in_seq in Hk. lia.
  - intros H. exists (Z.to_nat (x - lo)). split; [lia|]. apply in_seq. lia.
Qed.

Lemma NoDup_map_inj {A B} (f : A -> B) (l : list A) :
  (forall a b, In a l -> In b l -> f a = f b -> a = b) ->
  NoDup l -> NoDup (map f l).
Proof.
  intros Hinj Hnd. induction Hnd as [|a l Hnin Hnd IH]; simpl; constructor.
  - rewrite in_map_iff. intros [b [E Hb]].
    apply Hinj in E; simpl; auto. subst. contradiction.
  - apply IH. intros; apply Hinj; simpl; auto.
Qed.

Lemma NoDup_range_unit (lo hi : Z) : NoDup (range lo hi 1).
Proof.
  rewrite range_unit. apply NoDup_map_inj; [|apply seq_NoDup].
  intros; lia.
Qed.

Lemma range_unit_app (lo mid hi : Z) :
  lo <= mid <= hi -> range lo hi 1 = range lo mid 1 ++ range mid hi 1.
Proof.
  intros H. remember (Z.to_nat (mid - lo)) as n eqn:En.
  revert lo H En. induction n as [|n IH]; intros lo H En.
  - assert (mid = lo) by lia. subst. rewrite (range_nil lo lo) by lia. reflexivity.
  - rewrite (range_cons lo hi), (range_cons lo mid) by lia.
    simpl. f_equal. apply IH; lia.
Qed.

(** Tiles of edge [T] laid from [lo] up to [lo + n*T] cover that interval
    index by index, in increasing order. *)
Lemma tiles_cover (T : Z) (n : nat) (lo : Z) :
  1 <= T ->
  flat_map (fun i => range i (i + T) 1) (range lo (lo + Z.of_nat n * T) T) =
  range lo (lo + Z.of_nat n * T) 1.
Proof.
  intros HT. revert lo. induction n as [|n IH]; intros lo.
  - rewrite !range_nil by lia. reflexivity.
  - replace (lo + Z.of_nat (S n) * T) with ((lo + T) + Z.of_nat n * T) by lia.
    rewrite (range_cons lo _ T) by nia.
    cbn [flat_map]. rewrite IH. symmetry. apply range_unit_app. nia.
Qed.

Lemma range_steps_0 (step : Z) (n : nat) :
  1 <= step ->
  range 0 (Z.of_nat n * step) step = map (fun k => Z.of_nat k * step) (seq 0 n).
Proof. intros H. apply (range_steps step n 0 H). Qed.

Lemma tiles_cover_0 (T : Z) (n : nat) :
  1 <= T ->
  flat_map (fun i => range i (i + T) 1) (range 0 (Z.of_nat n * T) T) =
  range 0 (Z.of_nat n * T) 1.
Proof. intros H. apply (tiles_cover T n 0 H). Qed.

(** ** The monad *)

Section MonadFacts.
Context {S : Type}.

Lemma for_each_app {I} (l1 l2 : list I) (body : I -> M S unit) (s : S) :
  for_each (l1 ++ l2) body s =
  match for_each l1 body s with
  | inl e => inl e
  | inr (_, s') => for_each l2 body s'
  end.
Proof.
  revert s. induction l1 as [|i l1 IH]; intros s; simpl; [reflexivity|].
  unfold bind. destruct (body i s) as [e|[[] s']]; [reflexivity|]. apply IH.
Qed.

Lemma for_each_flat_map {I J} (f : I -> list J) (l : list I)
  (body : J -> M S unit) (s : S) :
  for_each (flat_map f l) body s = for_each l (fun i => for_each (f i) body) s.
Proof.
  revert s. induction l as [|i l IH]; intros s; simpl; [reflexivity|].
  rewrite for_each_app. unfold bind.
  destruct (for_each (f i) body s) as [e|[[] s']]; [reflexivity|]. apply IH.
Qed.

Lemma for_each_map {I J} (f : I -> J) (l : list I) (body : J -> M S unit) (s : S) :
  for_each (map f l) body s = for_each l (fun i => body (f i)) s.
Proof.
  revert s. induction l as [|i l IH]; intros s; simpl; [reflexivity|].
  unfold bind. destruct (body (f i) s) as [e|[[] s']]; [reflexivity|]. apply IH.
Qed.

Lemma for_each_ext {I} (l : list I) (b1 b2 : I -> M S unit) (s : S) :
  (forall i s, In i l -> b1 i s = b2 i s) ->
  for_each l b1 s = for_each l b2 s.
Proof.
  revert s. induction l as [|i l IH]; intros s H; simpl; [reflexivity|].
  unfold bind. rewrite H by (simpl; auto).
  destruct (b2 i s) as [e|[[] s']]; [reflexivity|].
  apply IH. intros; apply H; simpl; auto.
Qed.

Lemma for_unfold (lo hi step : Z) (body : Z -> M S unit) :
  1 <= step -> for_ lo hi step body = for_each (range lo hi step) body.
Proof.
  intros H. unfold for_. destruct (Z.leb_spec step 0); [lia|].
  now rewrite andb_false_r.
Qed.

(** A loop keeps an invariant that every iteration re-establishes. *)
Lemma for_each_invariant {I} (Inv : list I -> S -> Prop)
  (body : I -> M S unit) (l : list I) (s : S) :
  Inv [] s ->
  (forall done i rest t,
      l = done ++ i :: rest -> Inv done t ->
      exists t', body i t = inr (tt, t') /\ Inv (done ++ [i]) t') ->
  exists s', for_each l body s = inr (tt, s') /\ Inv l s'.
Proof.
  intros H0 Hstep.
  assert (forall rest done t, l = done ++ rest -> Inv done t ->
            exists s', for_each rest body t = inr (tt, s') /\ Inv l s') as G.
  { induction rest as [|i rest IH]; intros done t E Ht.
    - rewrite app_nil_r in E. subst. exists t. split; [reflexivity|assumption].
    - destruct (Hstep done i rest t E Ht) as [t' [Hb Ht']].
      simpl. unfold bind. rewrite Hb.
      apply (IH (done ++ [i])); [|assumption].
      rewrite <- app_assoc. exact E. }
  apply (G l [] s); auto.
Qed.
End MonadFacts.

(** ** How the loops of the kernels rewrite the result *)

Lemma member_In (k : Z) (l : list Z) : member k l = true <-> In k l.
Proof.
  unfold member. rewrite existsb_exists. split.
  - intros [x [Hx E]]. apply Z.eqb_eq in E. now subst.
  - intros H. exists k. split; [assumption|apply Z.eqb_refl].
Qed.

Lemma member_app (k : Z) (l1 l2 : list Z) :
  member k (l1 ++ l2) = member k l1 || member k l2.
Proof. apply existsb_app. Qed.

Section KernelFacts.
Context {D : Type}.
Variable zero : D.
Variables add mul : D -> D -> D.
Variables rows cols : Z.
Variable m : list (list D).
Variable v : list D.

Local Abbreviation eff := (acts rows cols m v).
Local Abbreviation ok := (holds rows cols m v).
Local Abbreviation rsum := (row_sum zero add mul m v).

Lemma holds_entry (s : mem D) (i j : Z) :
  ok s -> 0 <= i < rows -> 0 <= j < cols ->
  exists row, load (matrix s) i = Some row /\ load row j = Some (entry zero m i j).
Proof.
  intros [[Hm [Hrows _]] [Em _]] Hi Hj.
  destruct (load_some (matrix s) i ltac:(lia)) as [row Hrow].
  exists row. split; [assumption|].
  assert (In row (matrix s)) as Hin.
  { unfold load in Hrow. destruct (i <? 0); [discriminate|].
    eapply nth_error_In; eauto. }
  rewrite Forall_forall in Hrows. specialize (Hrows row Hin).
  destruct (load_some row j ltac:(lia)) as [x Hx].
  unfold entry. rewrite <- Em, Hrow, Hx. reflexivity.
Qed.

Lemma holds_component (s : mem D) (j : Z) :
  ok s -> 0 <= j < cols -> load (vector s) j = Some (component zero v j).
Proof.
  intros [[_ [_ [Hv _]]] [_ Ev]] Hj.
  destruct (load_some (vector s) j ltac:(lia)) as [x Hx].
  unfold component. rewrite <- Ev, Hx. reflexivity.
Qed.

Lemma holds_result (s : mem D) (r : list D) :
  ok s -> length r = length (result s) ->
  ok (Mem (matrix s) (vector s) r).
Proof.
  intros [[Hm [Hrows [Hv Hr]]] [Em Ev]] E. repeat split; simpl; auto. lia.
Qed.

Lemma acts_ext (c : M (mem D) unit) (f g : Z -> D -> D) :
  (forall k r, f k r = g k r) -> eff c f -> eff c g.
Proof.
  intros E H s Hs. destruct (H s Hs) as [s' [Hc [Hs' Hk]]].
  exists s'. split; [assumption|]. split; [assumption|].
  intros k. rewrite Hk.
  destruct (load (result s) k); simpl; congruence.
Qed.

Lemma acts_ret : eff (ret tt) (fun _ r => r).
Proof.
  intros s Hs. exists s. split; [reflexivity|]. split; [assumption|].
  intros k. destruct (load (result s) k); reflexivity.
Qed.

Lemma acts_seq (c1 c2 : M (mem D) unit) (f g : Z -> D -> D) :
  eff c1 f -> eff c2 g -> eff (c1 ;; c2) (fun k r => g k (f k r)).
Proof.
  intros H1 H2 s Hs. destruct (H1 s Hs) as [s1 [Hc1 [Hs1 Hk1]]].
  destruct (H2 s1 Hs1) as [s2 [Hc2 [Hs2 Hk2]]].
  exists s2. unfold bind. rewrite Hc1. split; [assumption|].
  split; [assumption|]. intros k. rewrite Hk2, Hk1. destruct (load (result s) k); reflexivity.
Qed.

Lemma acts_for_each {I} (l : list I) (body : I -> M (mem D) unit)
  (f : I -> Z -> D -> D) :
  (forall i, In i l -> eff (body i) (f i)) ->
  eff (for_each l body) (fun k r => fold_left (fun acc i => f i k acc) l r).
Proof.
  induction l as [|i l IH]; intros H.
  - apply acts_ret.
  - simpl. eapply acts_ext; [|apply acts_seq; [apply H; simpl; auto|apply IH]].
    + reflexivity.
    + intros; apply H; simpl; auto.
Qed.

Lemma acts_for (lo hi step : Z) (body : Z -> M (mem D) unit)
  (f : Z -> Z -> D -> D) :
  1 <= step ->
  (forall i, In i (range lo hi step) -> eff (body i) (f i)) ->
  eff (for_ lo hi step body)
       (fun k r => fold_left (fun acc i => f i k acc) (range lo hi step) r).
Proof.
  intros Hs H. rewrite for_unfold by assumption. now apply acts_for_each.
Qed.

Lemma acts_set_result (i : Z) (x : D) :
  0 <= i < rows -> eff (set_result i x) (fun k r => if k =? i then x else r).
Proof.
  intros Hi s Hs. pose proof Hs as [[_ [_ [_ Hr]]] _].
  unfold set_result. rewrite store_some by lia.
  eexists. split; [reflexivity|]. split.
  - apply holds_result; [assumption|apply upd_length].
  - intros k. simpl. rewrite load_upd, Z2Nat.id by lia.
    destruct (Z.eqb_spec k i); destruct (load (result s) k); reflexivity.
Qed.

Lemma acts_accumulate (i j : Z) :
  0 <= i < rows -> 0 <= j < cols ->
  eff (accumulate add mul i j)
       (fun k r => if k =? i
                   then add r (mul (entry zero m i j) (component zero v j))
                   else r).
Proof.
  intros Hi Hj s Hs. pose proof Hs as [[_ [_ [_ Hr]]] _].
  destruct (holds_entry s i j Hs Hi Hj) as [row [Hrow Hx]].
  pose proof (holds_component s j Hs Hj) as Hv.
  destruct (load_some (result s) i ltac:(lia)) as [r Hri].
  unfold accumulate, get_matrix, get_vector, get_result, set_result, bind.
  rewrite Hrow. simpl. rewrite Hx. simpl. rewrite Hv. simpl. rewrite Hri. simpl.
  rewrite store_some by lia.
  eexists. split; [reflexivity|]. split.
  - apply holds_result; [assumption|apply upd_length].
  - intros k. simpl. rewrite load_upd, Z2Nat.id by lia.
    destruct (Z.eqb_spec k i) as [->|];
      [rewrite Hri|destruct (load (result s) k)]; reflexivity.
Qed.

(** *** Folding the per-iteration rewrites *)

Lemma fold_row (i k : Z) (js : list Z) (r : D) :
  fold_left (fun acc j => if k =? i
                          then add acc (mul (entry zero m i j) (component zero v j))
                          else acc) js r =
  if k =? i then rsum i js r else r.
Proof.
  unfold row_sum. destruct (k =? i).
  - reflexivity.
  - induction js; simpl; auto.
Qed.

Lemma fold_pick (h : Z -> D -> D) (k : Z) (l : list Z) (r : D) :
  NoDup l ->
  fold_left (fun acc i => if k =? i then h i acc else acc) l r =
  if member k l then h k r else r.
Proof.
  intros Hnd. revert r. induction Hnd as [|i l Hnin Hnd IH]; intros r; simpl.
  - reflexivity.
  - rewrite IH. destruct (Z.eqb_spec k i) as [->|]; simpl; [|reflexivity].
    destruct (member i l) eqn:E; [|reflexivity].
    apply member_In in E. contradiction.
Qed.

Lemma fold_columns (R : list Z) (tiles : list Z) (cs : Z -> list Z) (k : Z) (r : D) :
  fold_left (fun acc j => if member k R then rsum k (cs j) acc else acc) tiles r =
  if member k R then rsum k (flat_map cs tiles) r else r.
Proof.
  destruct (member k R).
  - revert r. induction tiles as [|j tiles IH]; intros r; simpl; [reflexivity|].
    rewrite IH. unfold row_sum. now rewrite fold_left_app.
  - induction tiles; simpl; auto.
Qed.

Lemma fold_blocks (h : Z -> D -> D) (rs : Z -> list Z) (tiles : list Z)
  (k : Z) (r : D) :
  NoDup (flat_map rs tiles) ->
  fold_left (fun acc i => if member k (rs i) then h k acc else acc) tiles r =
  if member k (flat_map rs tiles) then h k r else r.
Proof.
  revert r. induction tiles as [|i tiles IH]; intros r Hnd; simpl.
  - reflexivity.
  - simpl in Hnd. rewrite member_app.
    pose proof (NoDup_app_remove_l _ _ Hnd) as Hnd'.
    rewrite IH by assumption.
    destruct (member k (rs i)) eqn:E; simpl; [|reflexivity].
    destruct (member k (flat_map rs tiles)) eqn:E'; [|reflexivity].
    apply member_In in E, E'.
    exfalso. revert Hnd E E'. generalize (rs i) (flat_map rs tiles).
    clear. intros l1 l2 Hnd. induction l1 as [|a l1 IH]; simpl; intros H1 H2.
    + contradiction.
    + inversion Hnd; subst. destruct H1 as [->|H1].
      * apply H3. apply in_or_app. now right.
      * now apply IH.
Qed.

(** *** The loop nests *)

Lemma row_body_acts (i : Z) :
  0 <= i < rows ->
  eff (set_result i zero ;; for_ 0 cols 1 (fun j => accumulate add mul i j))
      (fun k r => if k =? i then dot zero add mul m v i cols else r).
Proof.
  intros Hi. eapply acts_ext; [|apply acts_seq].
  2: apply (acts_set_result i zero Hi).
  2: { apply acts_for; [lia|]. intros j Hj. apply in_range_unit in Hj.
       apply acts_accumulate; lia. }
  intros k r. cbv beta. rewrite fold_row. unfold dot.
  destruct (k =? i); reflexivity.
Qed.

Lemma rows_loop_acts (lo hi : Z) :
  0 <= lo -> hi <= rows ->
  eff (for_ lo hi 1 (fun i =>
         set_result i zero ;; for_ 0 cols 1 (fun j => accumulate add mul i j)))
      (fun k r => if member k (range lo hi 1)
                  then dot zero add mul m v k cols else r).
Proof.
  intros Hlo Hhi. eapply acts_ext; [|apply acts_for; [lia|]].
  2: { intros i Hi. apply in_range_unit in Hi. apply row_body_acts. lia. }
  intros k r. cbv beta.
  apply (fold_pick (fun i _ => dot zero add mul m v i cols)).
  apply NoDup_range_unit.
Qed.

Lemma tile_row_acts (ii j T : Z) :
  0 <= ii < rows -> 0 <= j -> j + T <= cols ->
  eff (for_ j (j + T) 1 (fun jj => accumulate add mul ii jj))
      (fun k r => if k =? ii then rsum ii (range j (j + T) 1) r else r).
Proof.
  intros Hi Hj HT. eapply acts_ext; [|apply acts_for; [lia|]].
  2: { intros jj Hjj. apply in_range_unit in Hjj. apply acts_accumulate; lia. }
  intros k r. cbv beta. apply fold_row.
Qed.

Lemma tile_acts (i j T : Z) :
  0 <= i -> i + T <= rows -> 0 <= j -> j + T <= cols ->
  eff (for_ i (i + T) 1 (fun ii =>
         for_ j (j + T) 1 (fun jj => accumulate add mul ii jj)))
      (fun k r => if member k (range i (i + T) 1)
                  then rsum k (range j (j + T) 1) r else r).
Proof.
  intros Hi HiT Hj HjT. eapply acts_ext; [|apply acts_for; [lia|]].
  2: { intros ii Hii. apply in_range_unit in Hii. apply tile_row_acts; lia. }
  intros k r. cbv beta.
  apply (fold_pick (fun ii acc => rsum ii (range j (j + T) 1) acc)).
  apply NoDup_range_unit.
Qed.

Lemma tile_strip_acts (i T : Z) (b : nat) :
  1 <= T -> cols = Z.of_nat b * T -> 0 <= i -> i + T <= rows ->
  eff (for_ 0 cols T (fun j =>
         for_ i (i + T) 1 (fun ii =>
           for_ j (j + T) 1 (fun jj => accumulate add mul ii jj))))
      (fun k r => if member k (range i (i + T) 1)
                  then rsum k (range 0 cols 1) r else r).
Proof.
  intros HT Hc Hi HiT. eapply acts_ext; [|apply acts_for; [lia|]].
  2: { intros j Hj. rewrite Hc in Hj.
       rewrite (range_steps_0 T b HT) in Hj. apply in_map_iff in Hj.
       destruct Hj as [q [Ej Hq]]. apply in_seq in Hq.
       apply tile_acts; nia. }
  intros k r. cbv beta. rewrite fold_columns.
  assert (flat_map (fun j => range j (j + T) 1) (range 0 cols T) =
          range 0 cols 1) as ->; [|reflexivity].
  rewrite Hc. apply tiles_cover_0. assumption.
Qed.

Lemma tiled_rows_acts (lo T : Z) (a b : nat) :
  1 <= T -> cols = Z.of_nat b * T -> 0 <= lo -> lo + Z.of_nat a * T <= rows ->
  eff (for_ lo (lo + Z.of_nat a * T) T (fun i =>
         for_ 0 cols T (fun j =>
           for_ i (i + T) 1 (fun ii =>
             for_ j (j + T) 1 (fun jj => accumulate add mul ii jj)))))
      (fun k r => if member k (range lo (lo + Z.of_nat a * T) 1)
                  then rsum k (range 0 cols 1) r else r).
Proof.
  intros HT Hc Hlo Hhi. eapply acts_ext; [|apply acts_for; [lia|]].
  2: { intros i Hi. rewrite (range_steps T a lo HT) in Hi.
       apply in_map_iff in Hi. destruct Hi as [q [Ei Hq]]. apply in_seq in Hq.
       apply (tile_strip_acts _ T b); try assumption; nia. }
  intros k r. cbv beta.
  rewrite (fold_blocks (fun k acc => rsum k (range 0 cols 1) acc)
                       (fun i => range i (i + T) 1)).
  - rewrite (tiles_cover T a lo HT). reflexivity.
  - rewrite (tiles_cover T a lo HT). apply NoDup_range_unit.
Qed.
End KernelFacts.

(** ** What each kernel leaves in the result *)

Lemma divide_tiles (T N : Z) :
  1 <= T -> 0 <= N -> (T | N) -> exists a : nat, N = Z.of_nat a * T.
Proof.
  intros HT HN [q Hq]. exists (Z.to_nat q). nia.
Qed.

Lemma member_range_unit (lo hi k : Z) :
  member k (range lo hi 1) = (lo <=? k) && (k <? hi).
Proof.
  destruct (member k (range lo hi 1)) eqn:E.
  - apply member_In, in_range_unit in E. lia.
  - destruct (Z.leb_spec lo k), (Z.ltb_spec k hi); simpl; auto.
    assert (member k (range lo hi 1) = true) as E'.
    { apply member_In, in_range_unit. lia. }
    congruence.
Qed.

Section KernelTheorems.
Context {D : Type}.
Variable zero : D.
Variables add mul : D -> D -> D.

Lemma load_product (m : list (list D)) (v : list D) (rows cols k : Z) :
  load (product zero add mul m v rows cols) k =
  if (0 <=? k) && (k <? rows) then Some (dot zero add mul m v k cols) else None.
Proof.
  unfold product. rewrite range_unit, map_map. unfold load.
  destruct (Z.ltb_spec k 0); [destruct (0 <=? k) eqn:E; [lia|reflexivity]|].
  rewrite nth_error_map.
  destruct (Z.leb_spec 0 k); [|lia]. simpl.
  destruct (Z.ltb_spec k rows).
  - rewrite nth_error_seq. destruct (Nat.ltb_spec (Z.to_nat k) (Z.to_nat (rows - 0))); [|lia].
    simpl. do 2 f_equal. lia.
  - destruct (nth_error (seq 0 (Z.to_nat (rows - 0))) (Z.to_nat k)) eqn:E; [|reflexivity].
    assert (nth_error (seq 0 (Z.to_nat (rows - 0))) (Z.to_nat k) <> None) as N by congruence.
    apply nth_error_Some in N. rewrite length_seq in N. lia.
Qed.

Lemma product_length (m : list (list D)) (v : list D) (rows cols : Z) :
  Z.of_nat (length (product zero add mul m v rows cols)) = Z.max 0 rows.
Proof.
  unfold product. rewrite length_map, range_unit, length_map, length_seq. lia.
Qed.

Lemma sequential_mvm_acts (rows cols : Z) (m : list (list D)) (v : list D) :
  acts rows cols m v (sequential_mvm zero add mul rows cols)
       (fun k r => if member k (range 0 rows 1)
                   then dot zero add mul m v k cols else r).
Proof. apply rows_loop_acts; lia. Qed.

(** The sequential kernel returns, with the product in the result. *)
Lemma sequential_mvm_correct (rows cols : Z) (s : mem D) :
  shaped rows cols s ->
  exists s', sequential_mvm zero add mul rows cols s = inr (tt, s') /\
             matrix s' = matrix s /\ vector s' = vector s /\
             result s' = product zero add mul (matrix s) (vector s) rows cols.
Proof.
  intros Hs.
  destruct (sequential_mvm_acts rows cols (matrix s) (vector s) s)
    as [s' [Hrun [[Hs' [Em Ev]] Hk]]]; [repeat split; apply Hs|].
  exists s'. repeat split; auto.
  destruct Hs as [_ [_ [_ Hr]]], Hs' as [_ [_ [_ Hr']]].
  apply load_ext.
  - pose proof (product_length (matrix s) (vector s) rows cols). lia.
  - intros k. rewrite Hk, load_product, member_range_unit.
    destruct ((0 <=? k) && (k <? rows)) eqn:E.
    + destruct (load_some (result s) k ltac:(lia)) as [x ->]. reflexivity.
    + assert (load (result s) k = None) as ->; [apply load_none; lia|reflexivity].
Qed.

Lemma openmp_mvm_correct (rows cols : Z) (s : mem D) :
  shaped rows cols s ->
  exists s', openmp_mvm zero add mul rows cols s = inr (tt, s') /\
             matrix s' = matrix s /\ vector s' = vector s /\
             result s' = product zero add mul (matrix s) (vector s) rows cols.
Proof. apply sequential_mvm_correct. Qed.

Lemma openmp_tiled_mvm_acts (rows cols T : Z) (m : list (list D)) (v : list D) :
  1 <= T -> 0 <= rows -> 0 <= cols -> (T | rows) -> (T | cols) ->
  acts rows cols m v (openmp_tiled_mvm add mul rows cols T)
       (fun k r => if member k (range 0 rows 1)
                   then row_sum zero add mul m v k (range 0 cols 1) r else r).
Proof.
  intros HT Hr Hc Dr Dc.
  destruct (divide_tiles T rows HT Hr Dr) as [a Ha].
  destruct (divide_tiles T cols HT Hc Dc) as [b Hb].
  pose proof (tiled_rows_acts zero add mul rows cols m v 0 T a b HT Hb) as H.
  simpl in H. rewrite <- Ha in H. apply H; lia.
Qed.
End KernelTheorems.

Section TiledTheorems.
Context {D : Type}.
Variable zero : D.
Variables add mul : D -> D -> D.

(** The tiled kernel never stores a fresh value: every entry of the result
    ends as the running sum started from what the entry held on entry. *)
Lemma openmp_tiled_mvm_accumulates (N T : Z) (s : mem D) :
  1 <= T -> (T | N) -> shaped N N s ->
  exists s', openmp_tiled_mvm add mul N N T s = inr (tt, s') /\
             matrix s' = matrix s /\ vector s' = vector s /\
             forall i r0, 0 <= i < N -> load (result s) i = Some r0 ->
               load (result s') i =
               Some (row_sum zero add mul (matrix s) (vector s) i (range 0 N 1) r0).
Proof.
  intros HT HD Hs.
  assert (0 <= N) as HN by (destruct Hs as [H _]; lia).
  destruct (openmp_tiled_mvm_acts zero add mul N N T (matrix s) (vector s)
              HT HN HN HD HD s) as [s' [Hrun [[_ [Em Ev]] Hk]]];
    [repeat split; apply Hs|].
  exists s'. repeat split; auto.
  intros i r0 Hi Hr0. rewrite Hk, Hr0, member_range_unit. simpl.
  destruct (Z.leb_spec 0 i), (Z.ltb_spec i N); simpl; auto; lia.
Qed.


(** The kernel is the fold of [accumulate] over its iteration space. *)
Lemma openmp_tiled_mvm_visits (rows cols T : Z) (s : mem D) :
  1 <= T ->
  openmp_tiled_mvm add mul rows cols T s =
  for_each (tiled_visits rows cols T)
           (fun p => accumulate add mul (fst p) (snd p)) s.
Proof.
  intros HT. unfold openmp_tiled_mvm, tiled_visits, tile_origins.
  rewrite for_unfold by assumption.
  rewrite for_each_flat_map, for_each_flat_map.
  apply for_each_ext. intros i s1 _.
  rewrite for_unfold by assumption. rewrite for_each_map.
  apply for_each_ext. intros j s2 _.
  unfold tile_cells. cbn [fst snd].
  rewrite for_unfold by lia. rewrite for_each_flat_map.
  apply for_each_ext. intros ii s3 _.
  rewrite for_unfold by lia. rewrite for_each_map. reflexivity.
Qed.
End TiledTheorems.

(** ** The iteration space of the tiled kernels *)

Lemma occ_app (a : Z) (l1 l2 : list Z) : (occ a (l1 ++ l2) = occ a l1 + occ a l2)%nat.
Proof. unfold occ. now rewrite filter_app, length_app. Qed.

Lemma occ_cons (a x : Z) (l : list Z) :
  occ a (x :: l) = ((if Z.eqb a x then 1 else 0) + occ a l)%nat.
Proof. unfold occ. simpl. destruct (a =? x); reflexivity. Qed.

Lemma times_app (p : Z * Z) (l1 l2 : list (Z * Z)) :
  (times p (l1 ++ l2) = times p l1 + times p l2)%nat.
Proof. unfold times. now rewrite filter_app, length_app. Qed.

Lemma occ_member (a : Z) (l : list Z) :
  NoDup l -> occ a l = if member a l then 1%nat else 0%nat.
Proof.
  intros Hnd. induction Hnd as [|x l Hnin Hnd IH]; [reflexivity|].
  unfold occ, member in *. simpl. destruct (Z.eqb_spec a x) as [->|]; simpl.
  - rewrite IH. destruct (existsb (Z.eqb x) l) eqn:E; [|reflexivity].
    apply (member_In x l) in E. contradiction.
  - exact IH.
Qed.

Lemma occ_range_unit (lo hi a : Z) :
  occ a (range lo hi 1) = if (lo <=? a) && (a <? hi) then 1%nat else 0%nat.
Proof.
  rewrite occ_member by apply NoDup_range_unit. now rewrite member_range_unit.
Qed.

Lemma times_row (a b x : Z) (ys : list Z) :
  times (a, b) (map (fun y => (x, y)) ys) =
  if a =? x then occ b ys else 0%nat.
Proof.
  unfold times, occ, same_cell. induction ys as [|y ys IH]; simpl.
  - destruct (a =? x); reflexivity.
  - destruct (a =? x); simpl in *; [|exact IH].
    destruct (b =? y); simpl; congruence.
Qed.

Lemma times_grid (a b : Z) (xs ys : list Z) :
  times (a, b) (flat_map (fun x => map (fun y => (x, y)) ys) xs) =
  (occ a xs * occ b ys)%nat.
Proof.
  induction xs as [|x xs IH]; simpl; [reflexivity|].
  rewrite times_app, IH, times_row, occ_cons.
  destruct (a =? x); simpl; lia.
Qed.

Lemma times_tile (T a b i j : Z) :
  times (a, b) (tile_cells T (i, j)) =
  (occ a (range i (i + T) 1) * occ b (range j (j + T) 1))%nat.
Proof. unfold tile_cells. apply times_grid. Qed.

Lemma times_strip (T a b i : Z) (cs : list Z) :
  times (a, b) (flat_map (tile_cells T) (map (fun j => (i, j)) cs)) =
  (occ a (range i (i + T) 1) *
   occ b (flat_map (fun j => range j (j + T) 1) cs))%nat.
Proof.
  induction cs as [|j cs IH]; simpl; [unfold times, occ; simpl; lia|].
  rewrite times_app, IH, times_tile, occ_app. lia.
Qed.

Lemma times_nest (T a b : Z) (rs cs : list Z) :
  times (a, b)
        (flat_map (tile_cells T)
                  (flat_map (fun i => map (fun j => (i, j)) cs) rs)) =
  (occ a (flat_map (fun i => range i (i + T) 1) rs) *
   occ b (flat_map (fun j => range j (j + T) 1) cs))%nat.
Proof.
  induction rs as [|i rs IH]; simpl; [reflexivity|].
  rewrite flat_map_app, times_app, IH, times_strip, occ_app. lia.
Qed.

(** With a tile edge that divides both extents every cell of the grid is
    visited exactly once and no cell outside the grid is visited. *)
Lemma tiled_visits_times (rows cols T a b : Z) :
  1 <= T -> 0 <= rows -> 0 <= cols -> (T | rows) -> (T | cols) ->
  times (a, b) (tiled_visits rows cols T) =
  if (0 <=? a) && (a <? rows) && ((0 <=? b) && (b <? cols))
  then 1%nat else 0%nat.
Proof.
  intros HT Hr Hc Dr Dc.
  destruct (divide_tiles T rows HT Hr Dr) as [n ->].
  destruct (divide_tiles T cols HT Hc Dc) as [k ->].
  unfold tiled_visits, tile_origins.
  rewrite times_nest, !tiles_cover_0, !occ_range_unit by assumption.
  destruct ((0 <=? a) && (a <? Z.of_nat n * T)),
           ((0 <=? b) && (b <? Z.of_nat k * T)); reflexivity.
Qed.

Lemma in_tile_origins (rows cols T i j : Z) :
  In (i, j) (tile_origins rows cols T) <->
  In i (range 0 rows T) /\ In j (range 0 cols T).
Proof.
  unfold tile_origins. rewrite in_flat_map. split.
  - intros [x [Hx Hin]]. apply in_map_iff in Hin.
    destruct Hin as [y [E Hy]]. inversion E; subst. auto.
  - intros [Hi Hj]. exists i. split; [assumption|].
    apply in_map_iff. exists j. auto.
Qed.

Lemma in_tile_cells (T i j a b : Z) :
  In (a, b) (tile_cells T (i, j)) <-> i <= a < i + T /\ j <= b < j + T.
Proof.
  unfold tile_cells. cbn [fst snd]. rewrite in_flat_map. split.
  - intros [x [Hx Hin]]. apply in_map_iff in Hin.
    destruct Hin as [y [E Hy]]. inversion E; subst.
    apply in_range_unit in Hx, Hy. lia.
  - intros [Ha Hb]. exists a. split; [apply in_range_unit; lia|].
    apply in_map_iff. exists b. split; [reflexivity|apply in_range_unit; lia].
Qed.

Lemma in_range_tiles (T : Z) (n : nat) (i : Z) :
  1 <= T ->
  (In i (range 0 (Z.of_nat n * T) T) <->
   exists q, 0 <= q < Z.of_nat n /\ i = q * T).
Proof.
  intros HT. rewrite range_steps_0 by assumption. rewrite in_map_iff. split.
  - intros [q [E Hq]]. apply in_seq in Hq. exists (Z.of_nat q). lia.
  - intros [q [Hq E]]. exists (Z.to_nat q). split; [lia|]. apply in_seq. lia.
Qed.

(** The one tile a cell belongs to. *)
Lemma tile_of_cell (rows cols T a b : Z) :
  1 <= T -> 0 <= rows -> 0 <= cols -> (T | rows) -> (T | cols) ->
  0 <= a < rows -> 0 <= b < cols ->
  forall o, In o (tile_origins rows cols T) /\ In (a, b) (tile_cells T o) <->
            o = (T * (a / T), T * (b / T)).
Proof.
  intros HT Hr Hc Dr Dc Ha Hb [i j].
  destruct (divide_tiles T rows HT Hr Dr) as [n Hn].
  destruct (divide_tiles T cols HT Hc Dc) as [k Hk].
  rewrite in_tile_origins, in_tile_cells. rewrite Hn, Hk.
  rewrite !in_range_tiles by assumption.
  pose proof (Z.div_mod a T ltac:(lia)). pose proof (Z.mod_pos_bound a T ltac:(lia)).
  pose proof (Z.div_mod b T ltac:(lia)). pose proof (Z.mod_pos_bound b T ltac:(lia)).
  split.
  - intros [[[q [Hq Ei]] [q' [Hq' Ej]]] [Hia Hjb]].
    assert (q = a / T) by nia. assert (q' = b / T) by nia.
    subst. f_equal; lia.
  - intros E. inversion E; subst i j. repeat split; try lia.
    + exists (a / T). nia.
    + exists (b / T). nia.
Qed.

(** ** The distributed kernels *)

Lemma range_shift (a n : Z) :
  map (fun t => a + t) (range 0 n 1) = range a (a + n) 1.
Proof.
  rewrite !range_unit, map_map.
  replace (a + n - a) with (n - 0) by lia. apply map_ext. intros; lia.
Qed.

Lemma fold_left_over_map {A B C} (f : A -> B -> A) (g : C -> B) (l : list C) (a : A) :
  fold_left f (map g l) a = fold_left (fun acc x => f acc (g x)) l a.
Proof. revert a. induction l; simpl; auto. Qed.

(** Blocks of [c] entries laid side by side, one per rank. *)
Lemma blocks_cover (c : Z) (n : nat) :
  0 <= c ->
  flat_map (fun q => range (q * c) (q * c + c) 1) (range 0 (Z.of_nat n) 1) =
  range 0 (Z.of_nat n * c) 1.
Proof.
  intros Hc. induction n as [|n IH].
  - rewrite !range_nil by lia. reflexivity.
  - rewrite (range_unit_app 0 (Z.of_nat n) (Z.of_nat (S n))) by lia.
    rewrite flat_map_app, IH.
    rewrite (range_cons (Z.of_nat n)), (range_nil (Z.of_nat n + 1)) by lia.
    cbn [flat_map]. rewrite app_nil_r.
    rewrite (range_unit_app 0 (Z.of_nat n * c) (Z.of_nat (S n) * c)) by nia.
    do 2 f_equal. lia.
Qed.

Section DistributedFacts.
Context {D : Type}.
Variable zero : D.
Variables add mul : D -> D -> D.
Variables rows cols : Z.
Variable m : list (list D).
Variable v : list D.

Local Abbreviation eff := (acts rows cols m v).

Lemma mpi_mvm_local_acts (rank size : Z) :
  1 <= size -> 0 <= rank < size -> 0 <= rows ->
  eff (mpi_mvm_local zero add mul rows cols rank size)
      (fun k r => if member k (range (part_start rows size rank)
                                     (part_end rows size rank) 1)
                  then dot zero add mul m v k cols else r).
Proof.
  intros Hs Hr Hrows. pose proof (part_bounds rows size rank Hrows Hs Hr).
  unfold mpi_mvm_local. apply rows_loop_acts; lia.
Qed.

Lemma mpi_tiled_mvm_local_acts (rank size T : Z) :
  1 <= T -> 1 <= size -> 0 <= rank < size -> 0 <= rows -> 0 <= cols ->
  (T | rows) -> (T | cols) -> (T | rows ÷ size) ->
  eff (mpi_tiled_mvm_local add mul rows cols rank size T)
      (fun k r => if member k (range (part_start rows size rank)
                                     (part_end rows size rank) 1)
                  then row_sum zero add mul m v k (range 0 cols 1) r else r).
Proof.
  intros HT Hs Hr Hrows Hcols Drows Dcols Dchunk.
  pose proof (part_bounds rows size rank Hrows Hs Hr) as B.
  assert (T | part_end rows size rank - part_start rows size rank) as Dlen.
  { unfold part_start, part_end. destruct (rank =? size - 1).
    - apply Z.divide_sub_r; [assumption|]. now apply Z.divide_mul_l.
    - replace (rows ÷ size * (rank + 1) - rows ÷ size * rank)
        with (rows ÷ size) by lia. assumption. }
  destruct (divide_tiles T (part_end rows size rank - part_start rows size rank)
              HT ltac:(lia) Dlen) as [a Ha].
  destruct (divide_tiles T cols HT Hcols Dcols) as [b Hb].
  pose proof (tiled_rows_acts zero add mul rows cols m v
                (part_start rows size rank) T a b HT Hb) as H.
  replace (part_start rows size rank + Z.of_nat a * T)
    with (part_end rows size rank) in H by lia.
  unfold mpi_tiled_mvm_local. apply H; lia.
Qed.

Lemma allgather_acts (peers : list (list D)) (c rank size : Z) :
  0 <= c -> 0 <= size -> c * size <= rows ->
  Z.of_nat (length peers) = size ->
  Forall (fun p => Z.of_nat (length p) = rows) peers ->
  eff (MPI_Allgather_in_place peers c rank size)
      (fun k r => if (0 <=? k) && (k <? size * c) && negb (k / c =? rank)
                  then entry zero peers (k / c) k else r).
Proof.
  intros Hc Hsize Hfit Hlen Hpeers.
  set (H := fun (k : Z) (r : D) =>
              if k / c =? rank then r else entry zero peers (k / c) k).
  assert (forall q k, In k (range (q * c) (q * c + c) 1) -> k / c = q) as Hblock.
  { intros q k Hk. apply in_range_unit in Hk.
    symmetry. apply (Z.div_unique k c q (k - q * c)); lia. }
  unfold MPI_Allgather_in_place.
  eapply acts_ext; [|apply (acts_for _ _ _ _ 0 size 1 _
    (fun q k r => if member k (range (q * c) (q * c + c) 1) then H k r else r));
    [lia|]].
  - intros k r. cbv beta.
    rewrite (fold_blocks H (fun q => range (q * c) (q * c + c) 1)).
    + replace size with (Z.of_nat (Z.to_nat size)) at 1 by lia.
      rewrite blocks_cover by assumption. rewrite Z2Nat.id by assumption.
      rewrite member_range_unit. unfold H.
      destruct ((0 <=? k) && (k <? size * c)); simpl; [|reflexivity].
      destruct (k / c =? rank); reflexivity.
    + replace size with (Z.of_nat (Z.to_nat size)) by lia.
      rewrite blocks_cover by assumption. apply NoDup_range_unit.
  - intros q Hq. apply in_range_unit in Hq.
    destruct (Z.eqb_spec q rank) as [->|Hne].
    + eapply acts_ext; [|apply acts_ret]. intros k r. cbv beta.
      destruct (member k _) eqn:E; [|reflexivity].
      apply member_In, Hblock in E. unfold H. now rewrite E, Z.eqb_refl.
    + destruct (load_some peers q ltac:(lia)) as [pk Hpk].
      assert (Z.of_nat (length pk) = rows) as Hpklen.
      { rewrite Forall_forall in Hpeers. apply Hpeers.
        unfold load in Hpk. destruct (q <? 0); [discriminate|].
        eapply nth_error_In; eauto. }
      eapply acts_ext; [|apply (acts_for _ _ _ _ 0 c 1 _
        (fun t k r => if k =? q * c + t then entry zero peers q (q * c + t) else r));
        [lia|]].
      * intros k r. cbv beta.
        rewrite <- (fold_left_over_map
                      (fun acc i => if k =? i then entry zero peers q i else acc)
                      (fun t => q * c + t)).
        rewrite range_shift.
        rewrite (fold_pick (fun i _ => entry zero peers q i)) by apply NoDup_range_unit.
        destruct (member k _) eqn:E; [|reflexivity].
        apply member_In, Hblock in E. unfold H. rewrite E.
        destruct (Z.eqb_spec q rank); [contradiction|reflexivity].
      * intros t Ht. apply in_range_unit in Ht.
        destruct (load_some pk (q * c + t) ltac:(nia)) as [x Hx].
        intros s Hs. unfold bind, lift. rewrite Hpk. unfold ret at 1.
        rewrite Hx. unfold ret at 1.
        replace (entry zero peers q (q * c + t)) with x
          by (unfold entry; now rewrite Hpk, Hx).
        apply (acts_set_result rows cols m v (q * c + t) x); [nia|assumption].
Qed.
End DistributedFacts.

(** *** All ranks together *)

Lemma collect_rel {A B} (f : A -> fault + B) (P : A -> B -> Prop) (l : list A) :
  (forall a, In a l -> exists b, f a = inr b /\ P a b) ->
  exists bs, collect (map f l) = inr bs /\ Forall2 P l bs.
Proof.
  induction l as [|a l IH]; intros H; simpl.
  - exists []. split; [reflexivity|constructor].
  - destruct (H a (or_introl eq_refl)) as [b [Hb Pb]].
    destruct IH as [bs [Hbs Pbs]]; [intros; apply H; simpl; auto|].
    exists (b :: bs). rewrite Hb, Hbs. split; [reflexivity|now constructor].
Qed.

Lemma Forall2_at {A B} (P : A -> B -> Prop) (l : list A) (bs : list B) :
  Forall2 P l bs ->
  forall n a, nth_error l n = Some a ->
              exists b, nth_error bs n = Some b /\ P a b.
Proof.
  induction 1 as [|a0 b0 l bs Hab _ IH]; intros [|n] a E; simpl in *;
    try discriminate.
  - inversion E; subst. eauto.
  - now apply IH.
Qed.

Lemma nth_error_ranked {A} (l : list A) (a n : nat) :
  nth_error (combine (map Z.of_nat (seq a (length l))) l) n =
  option_map (fun p => (Z.of_nat (a + n), p)) (nth_error l n).
Proof.
  revert a n. induction l as [|x l IH]; intros a [|n]; simpl; try reflexivity.
  - now rewrite Nat.add_0_r.
  - rewrite IH. destruct (nth_error l n); simpl; [|reflexivity].
    do 3 f_equal. lia.
Qed.

Lemma in_ranked {A} (l : list A) (r : Z) (p : A) :
  In (r, p) (ranked l) -> load l r = Some p.
Proof.
  intros H. apply In_nth_error in H. destruct H as [n Hn].
  unfold ranked in Hn. rewrite nth_error_ranked in Hn.
  destruct (nth_error l n) eqn:E; simpl in Hn; inversion Hn; subst.
  unfold load. destruct (Z.ltb_spec (Z.of_nat n) 0); [lia|].
  now rewrite Nat2Z.id.
Qed.

Section JobFacts.
Context {D : Type}.

(** Running one step on every rank: if each rank gets through, so does the
    job, rank by rank. *)
Lemma on_all_ranks_rel (procs : list (mem D)) (k : Z -> Z -> M (mem D) unit)
  (P : Z -> mem D -> mem D -> Prop) :
  (forall r p, load procs r = Some p ->
     exists s', k r (Z.of_nat (length procs)) p = inr (tt, s') /\ P r p s') ->
  exists finals,
    on_all_ranks procs k = inr finals /\ length finals = length procs /\
    forall r p, load procs r = Some p ->
                exists s', load finals r = Some s' /\ P r p s'.
Proof.
  intros H. unfold on_all_ranks.
  destruct (collect_rel
              (fun rp => state_of (k (fst rp) (Z.of_nat (length procs)) (snd rp)))
              (fun rp s' => P (fst rp) (snd rp) s') (ranked procs))
    as [finals [Hrun HP]].
  { intros [r p] Hin. apply in_ranked in Hin.
    destruct (H r p Hin) as [s' [Hk HPs]]. exists s'. simpl. now rewrite Hk. }
  exists finals. split; [assumption|]. split.
  - apply Forall2_length in HP. rewrite <- HP. unfold ranked.
    rewrite length_combine, length_map, length_seq. lia.
  - intros r p Hr. pose proof (load_range _ _ _ Hr) as Hrange.
    unfold load in *. destruct (Z.ltb_spec r 0); [lia|].
    destruct (Forall2_at _ _ _ HP (Z.to_nat r) (r, p)) as [s' [Hs' HPs]].
    + unfold ranked. rewrite nth_error_ranked, Hr. simpl. do 2 f_equal. lia.
    + exists s'. auto.
Qed.
End JobFacts.

Lemma part_even (N size q : Z) :
  1 <= size -> 0 <= N -> (size | N) -> 0 <= q < size ->
  N = size * (N ÷ size) /\
  part_start N size q = (N ÷ size) * q /\
  part_end N size q = (N ÷ size) * q + N ÷ size.
Proof.
  intros Hs HN [c Hc] Hq.
  assert (N ÷ size = c) as E.
  { rewrite Z.quot_div_nonneg by lia. subst N. apply Z.div_mul. lia. }
  unfold part_start, part_end. rewrite E.
  destruct (Z.eqb_spec q (size - 1)); lia.
Qed.

Section GatherTheorem.
Context {D : Type}.
Variable zero : D.
Variables add mul : D -> D -> D.

(** C2: when the number of processes divides [N], every process that runs
    [mpi_mvm] on the same matrix and vector (whatever its result buffer
    held) returns from the all-gather with the whole product in its result:
    the buffers of all ranks are equal, and equal to what [sequential_mvm]
    leaves. *)
Theorem mpi_mvm_gathers_product (N : Z) (m : list (list D)) (v : list D)
  (procs : list (mem D)) :
  1 <= Z.of_nat (length procs) ->
  (Z.of_nat (length procs) | N) ->
  Forall (holds N N m v) procs ->
  exists finals,
    mpi_mvm_job zero add mul N N procs = inr finals /\
    length finals = length procs /\
    (forall p, In p finals ->
       matrix p = m /\ vector p = v /\
       result p = product zero add mul m v N N) /\
    (forall p s s', In p finals -> holds N N m v s ->
       sequential_mvm zero add mul N N s = inr (tt, s') ->
       result p = result s').
Proof.
  set (size := Z.of_nat (length procs)). intros Hsize Hdiv Hprocs.
  assert (forall r p, load procs r = Some p -> holds N N m v p) as Hat.
  { intros r p Hr. rewrite Forall_forall in Hprocs. apply Hprocs.
    unfold load in Hr. destruct (r <? 0); [discriminate|].
    eapply nth_error_In; eauto. }
  assert (0 <= N) as HN.
  { destruct (load_some procs 0 ltac:(lia)) as [p Hp].
    destruct (Hat 0 p Hp) as [[H _] _]. lia. }
  set (c := N ÷ size).
  assert (N = size * c) as HNc
    by (apply (part_even N size 0 Hsize HN Hdiv); lia).
  assert (0 <= c) as Hc by nia.
  set (local := fun (r k : Z) (x : D) =>
        if member k (range (part_start N size r) (part_end N size r) 1)
        then dot zero add mul m v k N else x).
  (* first phase: the local loops *)
  destruct (on_all_ranks_rel procs
              (fun rank size => mpi_mvm_local zero add mul N N rank size)
              (fun r p s' => holds N N m v s' /\
                 forall k, load (result s') k =
                           option_map (local r k) (load (result p) k)))
    as [entered [Hrun1 [Hlen1 Hent]]].
  { intros r p Hr. pose proof (load_range _ _ _ Hr).
    destruct (mpi_mvm_local_acts zero add mul N N m v r size Hsize ltac:(lia) HN
                p (Hat r p Hr)) as [s' [Hk [Hs' Hres]]].
    exists s'. auto. }
  unfold mpi_mvm_job. fold size in Hrun1. rewrite Hrun1.
  set (peers := map result entered).
  assert (Z.of_nat (length peers) = size) as Hpl.
  { unfold peers. rewrite length_map, Hlen1. reflexivity. }
  assert (forall q k, 0 <= q < size -> 0 <= k < N -> k / c = q ->
            entry zero peers q k = dot zero add mul m v k N) as Hpeer.
  { intros q k Hq Hk Hkq.
    destruct (load_some procs q ltac:(lia)) as [p Hp].
    destruct (Hent q p Hp) as [e [He [Hes Hek]]].
    assert (load peers q = Some (result e)) as Hpq.
    { unfold peers, load in *. destruct (q <? 0); [discriminate|].
      rewrite nth_error_map, He. reflexivity. }
    destruct (Hat q p Hp) as [[_ [_ [_ Hrp]]] _].
    destruct (load_some (result p) k ltac:(lia)) as [x Hx].
    unfold entry. rewrite Hpq, Hek, Hx. simpl. unfold local.
    destruct (part_even N size q Hsize HN Hdiv Hq) as [_ [-> ->]].
    rewrite member_range_unit. fold c.
    assert (0 < c) by nia.
    pose proof (Z.div_mod k c ltac:(lia)). pose proof (Z.mod_pos_bound k c ltac:(lia)).
    destruct (Z.leb_spec (c * q) k), (Z.ltb_spec k (c * q + c)); simpl;
      try reflexivity; nia. }
  assert (Forall (fun p => Z.of_nat (length p) = N) peers) as Hpeers.
  { apply Forall_forall. intros b Hb. unfold peers in Hb.
    apply in_map_iff in Hb. destruct Hb as [e [<- He]].
    apply In_nth_error in He. destruct He as [n He].
    assert (n < length procs)%nat as Hn.
    { rewrite <- Hlen1. apply nth_error_Some. congruence. }
    destruct (load_some procs (Z.of_nat n) ltac:(lia)) as [p Hp].
    destruct (Hent _ p Hp) as [e' [He' [[[_ [_ [_ Hr]]] _] _]]].
    unfold load in He'. destruct (Z.ltb_spec (Z.of_nat n) 0); [lia|].
    rewrite Nat2Z.id in He'. congruence. }
  (* second phase: the kernel with the buffers of the first phase as peers *)
  destruct (on_all_ranks_rel procs
              (fun rank size => mpi_mvm zero add mul peers N N rank size)
              (fun r p s' => holds N N m v s' /\
                 result s' = product zero add mul m v N N))
    as [finals [Hrun2 [Hlen2 Hfin]]].
  { intros r p Hr. pose proof (load_range _ _ _ Hr) as Hrr.
    fold size. unfold mpi_mvm.
    destruct (acts_seq N N m v _ _ _ _
                (mpi_mvm_local_acts zero add mul N N m v r size Hsize ltac:(lia) HN)
                (allgather_acts zero N N m v peers c r size Hc ltac:(lia)
                                ltac:(lia) Hpl Hpeers)
                p (Hat r p Hr)) as [s' [Hk [Hs' Hres]]].
    exists s'. split; [exact Hk|]. split; [assumption|].
    destruct Hs' as [[_ [_ [_ Hrs']]] _].
    apply load_ext.
    - pose proof (product_length zero add mul m v N N). lia.
    - intros k. rewrite Hres, load_product.
      destruct (Hat r p Hr) as [[_ [_ [_ Hrp]]] _].
      destruct ((0 <=? k) && (k <? N)) eqn:Ek.
      + destruct (load_some (result p) k ltac:(lia)) as [x ->]. simpl. f_equal.
        assert (0 < c) by nia.
        pose proof (Z.div_mod k c ltac:(lia)).
        pose proof (Z.mod_pos_bound k c ltac:(lia)).
        assert (0 <= k / c < size) by nia.
        rewrite <- HNc, Ek. simpl.
        destruct (Z.eqb_spec (k / c) r) as [Eq|Hne]; simpl.
        * destruct (part_even N size r Hsize HN Hdiv ltac:(lia)) as [_ [-> ->]].
          rewrite member_range_unit. fold c.
          destruct (Z.leb_spec (c * r) k), (Z.ltb_spec k (c * r + c)); simpl;
            try reflexivity; nia.
        * apply Hpeer; lia.
      + assert (load (result p) k = None) as ->; [apply load_none; lia|reflexivity]. }
  exists finals. split; [exact Hrun2|]. split; [assumption|].
  assert (forall p, In p finals ->
            holds N N m v p /\ result p = product zero add mul m v N N) as Hall.
  { intros p Hp. apply In_nth_error in Hp. destruct Hp as [n Hn].
    assert (n < length procs)%nat as Hlt.
    { rewrite <- Hlen2. apply nth_error_Some. congruence. }
    destruct (load_some procs (Z.of_nat n) ltac:(lia)) as [p0 Hp0].
    destruct (Hfin _ p0 Hp0) as [p' [Hp' HP]].
    unfold load in Hp'. destruct (Z.ltb_spec (Z.of_nat n) 0); [lia|].
    rewrite Nat2Z.id in Hp'. congruence. }
  split.
  - intros p Hp. destruct (Hall p Hp) as [[_ [Em Ev]] Hr]. auto.
  - intros p s s' Hp Hs Hseq. destruct (Hall p Hp) as [_ ->].
    destruct Hs as [Hshape [Em Ev]].
    destruct (sequential_mvm_correct zero add mul N N s Hshape)
      as [s2 [Hrun [_ [_ Hr]]]].
    assert (s2 = s') as -> by congruence.
    rewrite Hr, Em, Ev. reflexivity.
Qed.
End GatherTheorem.

(** ** The kernels write the result only *)

Section Frame.
Context {D : Type}.
Variable zero : D.
Variables add mul : D -> D -> D.

Lemma keeps_ret {A} (a : A) : keeps (D:=D) (ret a).
Proof. intros s a' s' E. inversion E; subst. auto. Qed.

Lemma keeps_lift {A} (e : fault) (o : option A) : keeps (D:=D) (lift e o).
Proof. destruct o; intros s a' s' E; inversion E; subst; auto. Qed.

Lemma keeps_bind {A B} (c : M (mem D) A) (k : A -> M (mem D) B) :
  keeps c -> (forall a, keeps (k a)) -> keeps (bind c k).
Proof.
  intros Hc Hk s b s' E. unfold bind in E.
  destruct (c s) as [e|[a s1]] eqn:Ec; [discriminate|].
  destruct (Hc _ _ _ Ec) as [Em Ev]. destruct (Hk a _ _ _ E) as [Em' Ev'].
  split; congruence.
Qed.

Lemma keeps_for_each {I} (l : list I) (body : I -> M (mem D) unit) :
  (forall i, keeps (body i)) -> keeps (for_each l body).
Proof.
  intros H. induction l as [|i l IH]; simpl.
  - apply keeps_ret.
  - apply keeps_bind; auto.
Qed.

Lemma keeps_for (lo hi step : Z) (body : Z -> M (mem D) unit) :
  (forall i, keeps (body i)) -> keeps (for_ lo hi step body).
Proof.
  intros H. unfold for_. destruct ((lo <? hi) && (step <=? 0)).
  - intros s a s' E. discriminate.
  - now apply keeps_for_each.
Qed.

Lemma keeps_get_matrix (i j : Z) : keeps (D:=D) (get_matrix i j).
Proof.
  apply keeps_bind; [|intros; apply keeps_lift].
  intros s a s' E. destruct (load (matrix s) i); inversion E; subst; auto.
Qed.

Lemma keeps_get_vector (j : Z) : keeps (D:=D) (get_vector j).
Proof.
  intros s a s' E. unfold get_vector in E.
  destruct (load (vector s) j); inversion E; subst; auto.
Qed.

Lemma keeps_get_result (i : Z) : keeps (D:=D) (get_result i).
Proof.
  intros s a s' E. unfold get_result in E.
  destruct (load (result s) i); inversion E; subst; auto.
Qed.

Lemma keeps_set_result (i : Z) (x : D) : keeps (set_result i x).
Proof.
  intros s a s' E. unfold set_result in E.
  destruct (store (result s) i x); inversion E; subst; auto.
Qed.

Lemma keeps_accumulate (i j : Z) : keeps (accumulate add mul i j).
Proof.
  unfold accumulate.
  apply keeps_bind; [apply keeps_get_matrix|intros a].
  apply keeps_bind; [apply keeps_get_vector|intros b].
  apply keeps_bind; [apply keeps_get_result|intros r].
  apply keeps_set_result.
Qed.

Lemma keeps_rows (lo hi cols : Z) :
  keeps (for_ lo hi 1 (fun i =>
           set_result i zero ;; for_ 0 cols 1 (fun j => accumulate add mul i j))).
Proof.
  apply keeps_for. intros i.
  apply keeps_bind; [apply keeps_set_result|intros _].
  apply keeps_for. intros j. apply keeps_accumulate.
Qed.

Lemma keeps_tiles (lo hi cols T : Z) :
  keeps (for_ lo hi T (fun i =>
           for_ 0 cols T (fun j =>
             for_ i (i + T) 1 (fun ii =>
               for_ j (j + T) 1 (fun jj => accumulate add mul ii jj))))).
Proof. repeat (apply keeps_for; intros ?). apply keeps_accumulate. Qed.

Lemma keeps_allgather (peers : list (list D)) (count rank size : Z) :
  keeps (MPI_Allgather_in_place peers count rank size).
Proof.
  apply keeps_for. intros k. destruct (k =? rank); [apply keeps_ret|].
  apply keeps_for. intros t.
  apply keeps_bind; [apply keeps_lift|intros pk].
  apply keeps_bind; [apply keeps_lift|intros x].
  apply keeps_set_result.
Qed.

(** C8: each of the five kernels, whenever it returns, leaves the matrix
    and the vector exactly as they were on entry; the result is the only
    buffer a kernel stores into.  (A run that leaves its buffers has no
    defined outcome in C and none here.) *)
Theorem kernels_keep_matrix_and_vector
  (rows cols rank size tile_size : Z) (peers : list (list D)) (s s' : mem D) :
  sequential_mvm zero add mul rows cols s = inr (tt, s') \/
  openmp_mvm zero add mul rows cols s = inr (tt, s') \/
  mpi_mvm zero add mul peers rows cols rank size s = inr (tt, s') \/
  openmp_tiled_mvm add mul rows cols tile_size s = inr (tt, s') \/
  mpi_tiled_mvm add mul peers rows cols rank size tile_size s = inr (tt, s') ->
  matrix s' = matrix s /\ vector s' = vector s.
Proof.
  intros [H|[H|[H|[H|H]]]]; revert H.
  - apply keeps_rows.
  - apply keeps_rows.
  - apply keeps_bind; [apply keeps_rows|intros _; apply keeps_allgather].
  - apply keeps_tiles.
  - apply keeps_bind; [apply keeps_tiles|intros _; apply keeps_allgather].
Qed.
End Frame.

Lemma kernels_keep_matrix_and_vector_witness :
  matrix (Mem [[1; 2]; [3; 4]] [5; 6] [17; 39]) = matrix (Mem [[1; 2]; [3; 4]] [5; 6] [9; 9]) /\
  vector (Mem [[1; 2]; [3; 4]] [5; 6] [17; 39]) = vector (Mem [[1; 2]; [3; 4]] [5; 6] [9; 9]).
Proof.
  apply (kernels_keep_matrix_and_vector 0 Z.add Z.mul 2 2 0 1 2 []).
  left. reflexivity.
Defined.

(** ** Tiling: coverage and bounds *)

Lemma shaped_constant_mem {D} (n : nat) (a b g : D) :
  shaped (Z.of_nat n) (Z.of_nat n) (constant_mem n a b g).
Proof.
  unfold shaped, constant_mem. simpl. rewrite !repeat_length.
  repeat split; auto.
  apply Forall_forall. intros row Hrow. apply repeat_spec in Hrow.
  subst. now rewrite repeat_length.
Qed.

Lemma times_positive (p : Z * Z) (l : list (Z * Z)) :
  In p l -> (1 <= times p l)%nat.
Proof.
  intros H. unfold times.
  assert (In p (filter (same_cell p) l)) as Hin.
  { apply filter_In. split; [assumption|]. unfold same_cell.
    now rewrite !Z.eqb_refl. }
  destruct (filter (same_cell p) l); [contradiction|simpl; lia].
Qed.

Lemma times_In (p : Z * Z) (l : list (Z * Z)) :
  (1 <= times p l)%nat -> In p l.
Proof.
  unfold times. intros H.
  destruct (filter (same_cell p) l) as [|q t] eqn:E; [simpl in H; lia|].
  assert (In q (filter (same_cell p) l)) as Hq by (rewrite E; simpl; auto).
  apply filter_In in Hq. destruct Hq as [Hin Hsame].
  unfold same_cell in Hsame. apply andb_prop in Hsame.
  destruct Hsame as [E1 E2]. apply Z.eqb_eq in E1, E2.
  destruct p, q; simpl in *; subst. assumption.
Qed.

(** C7: for every [N] the tile edge [TILE_SIZE] divides, the tiled kernel
    is the fold of [accumulate] over [tiled_visits N N TILE_SIZE], and each
    pair [(i, j)] of the grid occurs in that sequence exactly once, inside
    exactly one tile: the one with origin
    [(TILE_SIZE * (i / TILE_SIZE), TILE_SIZE * (j / TILE_SIZE))]. *)
Theorem tiling_visits_each_cell_once (N : Z) (Hdiv : (TILE_SIZE | N)) :
  (forall (D : Type) (add mul : D -> D -> D) (s : mem D),
      openmp_tiled_mvm add mul N N TILE_SIZE s =
      for_each (tiled_visits N N TILE_SIZE)
               (fun p => accumulate add mul (fst p) (snd p)) s) /\
  (forall i j, 0 <= i < N -> 0 <= j < N ->
      times (i, j) (tiled_visits N N TILE_SIZE) = 1%nat /\
      forall o, In o (tile_origins N N TILE_SIZE) /\
                In (i, j) (tile_cells TILE_SIZE o) <->
                o = (TILE_SIZE * (i / TILE_SIZE), TILE_SIZE * (j / TILE_SIZE))).
Proof.
  assert (1 <= TILE_SIZE) as HT by (unfold TILE_SIZE; lia).
  split.
  - intros D add mul s. now apply openmp_tiled_mvm_visits.
  - intros i j Hi Hj. split.
    + rewrite tiled_visits_times by (assumption || lia).
      destruct (Z.leb_spec 0 i), (Z.ltb_spec i N),
               (Z.leb_spec 0 j), (Z.ltb_spec j N); simpl; auto; lia.
    + apply tile_of_cell; assumption || lia.
Qed.

Lemma tiling_visits_each_cell_once_witness :
  (forall (D : Type) (add mul : D -> D -> D) (s : mem D),
      openmp_tiled_mvm add mul 32 32 TILE_SIZE s =
      for_each (tiled_visits 32 32 TILE_SIZE)
               (fun p => accumulate add mul (fst p) (snd p)) s) /\
  (forall i j, 0 <= i < 32 -> 0 <= j < 32 ->
      times (i, j) (tiled_visits 32 32 TILE_SIZE) = 1%nat /\
      forall o, In o (tile_origins 32 32 TILE_SIZE) /\
                In (i, j) (tile_cells TILE_SIZE o) <->
                o = (TILE_SIZE * (i / TILE_SIZE), TILE_SIZE * (j / TILE_SIZE))).
Proof.
  apply (tiling_visits_each_cell_once 32). exists 2. reflexivity.
Defined.

(** C4, as stated, fails: at [N = 72] the tiled loop nest reaches column
    72 and row 72, and both tiled kernels stop on the matrix entry
    [[0][72]], which is outside a row of 72 entries. *)
Lemma tiled_kernels_overrun_at_72 :
  shaped 72 72 (constant_mem 72 1%float 1%float 0%float) /\
  state_of (openmp_tiled_mvm PrimFloat.add PrimFloat.mul 72 72 TILE_SIZE
              (constant_mem 72 1%float 1%float 0%float)) =
  inl (OutOfBounds (MatrixRow 0) 72) /\
  state_of (mpi_tiled_mvm PrimFloat.add PrimFloat.mul
              [repeat 0%float 72] 72 72 0 1 TILE_SIZE
              (constant_mem 72 1%float 1%float 0%float)) =
  inl (OutOfBounds (MatrixRow 0) 72) /\
  In (0, 72) (tiled_visits 72 72 TILE_SIZE) /\
  In (72, 0) (tiled_visits 72 72 TILE_SIZE).
Proof.
  split; [apply (shaped_constant_mem 72)|].
  split; [vm_compute; reflexivity|].
  split; [vm_compute; reflexivity|].
  split; apply times_In; vm_compute; lia.
Qed.

Section TiledBounds.
Context {D : Type}.
Variable zero : D.
Variables add mul : D -> D -> D.

(** C4, amended: for every [N] that [TILE_SIZE] divides (80 is such a
    size), [openmp_tiled_mvm] runs to its end without leaving a buffer and
    its loop nest visits only pairs of [[0, N) x [0, N)]; so does
    [mpi_tiled_mvm] on every rank when [TILE_SIZE] also divides the chunk
    [N / size] and the peers hold [N] entries each. *)
Theorem tiled_kernels_stay_inside (N rank size : Z) (peers : list (list D))
  (s : mem D) :
  (TILE_SIZE | N) -> shaped N N s ->
  (exists s', openmp_tiled_mvm add mul N N TILE_SIZE s = inr (tt, s')) /\
  (forall p, In p (tiled_visits N N TILE_SIZE) ->
             0 <= fst p < N /\ 0 <= snd p < N) /\
  (1 <= size -> 0 <= rank < size -> (TILE_SIZE | N ÷ size) ->
   Z.of_nat (length peers) = size ->
   Forall (fun p => Z.of_nat (length p) = N) peers ->
   exists s', mpi_tiled_mvm add mul peers N N rank size TILE_SIZE s = inr (tt, s')).
Proof.
  intros Hdiv Hs.
  assert (1 <= TILE_SIZE) as HT by (unfold TILE_SIZE; lia).
  assert (0 <= N) as HN by (destruct Hs as [H _]; lia).
  assert (holds N N (matrix s) (vector s) s) as Hh by (repeat split; apply Hs).
  split; [|split].
  - destruct (openmp_tiled_mvm_acts zero add mul N N TILE_SIZE _ _
                HT HN HN Hdiv Hdiv s Hh) as [s' [Hrun _]].
    eauto.
  - intros [a b] Hp. apply times_positive in Hp.
    rewrite tiled_visits_times in Hp by assumption. simpl.
    destruct (Z.leb_spec 0 a), (Z.ltb_spec a N),
             (Z.leb_spec 0 b), (Z.ltb_spec b N); simpl in Hp; lia.
  - intros Hsize Hrank Hchunk Hlen Hpeers.
    destruct (quot_chunk N size HN Hsize) as [Hc [Hlo _]].
    destruct (acts_seq N N _ _ _ _ _ _
                (mpi_tiled_mvm_local_acts zero add mul N N (matrix s) (vector s)
                   rank size TILE_SIZE HT Hsize Hrank HN HN Hdiv Hdiv Hchunk)
                (allgather_acts zero N N (matrix s) (vector s) peers
                   (N ÷ size) rank size Hc ltac:(lia) Hlo Hlen Hpeers)
                s Hh) as [s' [Hrun _]].
    exists s'. exact Hrun.
Qed.
End TiledBounds.

Lemma tiled_kernels_stay_inside_witness :
  (exists s', openmp_tiled_mvm PrimFloat.add PrimFloat.mul 80 80 TILE_SIZE
                (constant_mem 80 1%float 1%float 0%float) = inr (tt, s')) /\
  (forall p, In p (tiled_visits 80 80 TILE_SIZE) ->
             0 <= fst p < 80 /\ 0 <= snd p < 80) /\
  (1 <= 5 -> 0 <= 2 < 5 -> (TILE_SIZE | 80 ÷ 5) ->
   Z.of_nat (length (repeat (repeat 0%float 80) 5)) = 5 ->
   Forall (fun p => Z.of_nat (length p) = 80) (repeat (repeat 0%float 80) 5) ->
   exists s', mpi_tiled_mvm PrimFloat.add PrimFloat.mul
                (repeat (repeat 0%float 80) 5) 80 80 2 5 TILE_SIZE
                (constant_mem 80 1%float 1%float 0%float) = inr (tt, s')).
Proof.
  apply (tiled_kernels_stay_inside 0%float PrimFloat.add PrimFloat.mul 80 2 5).
  - exists 5. reflexivity.
  - apply (shaped_constant_mem 80).
Defined.
Lemma mpi_mvm_gathers_product_witness :
  exists finals,
    mpi_mvm_job 0%float PrimFloat.add PrimFloat.mul 128 128 four_ranks_128 = inr finals /\
    length finals = length four_ranks_128 /\
    (forall p, In p finals ->
       matrix p = repeat (repeat 1%float 128) 128 /\
       vector p = repeat 2%float 128 /\
       result p = product 0%float PrimFloat.add PrimFloat.mul
                    (repeat (repeat 1%float 128) 128) (repeat 2%float 128) 128 128) /\
    (forall p s s', In p finals ->
       holds 128 128 (repeat (repeat 1%float 128) 128) (repeat 2%float 128) s ->
       sequential_mvm 0%float PrimFloat.add PrimFloat.mul 128 128 s = inr (tt, s') ->
       result p = result s').
Proof.
  apply (mpi_mvm_gathers_product 0%float PrimFloat.add PrimFloat.mul 128).
  - simpl. lia.
  - exists 32. reflexivity.
  - repeat constructor; apply (shaped_constant_mem 128).
Defined.

(** ** The driver: allocation *)

Lemma successes_skipn (n : nat) (h : list (option (nat -> float))) :
  (n <= successes h)%nat -> successes (skipn n h) = (successes h - n)%nat.
Proof.
  revert h. induction n as [|n IH]; intros h H; simpl.
  - lia.
  - destruct h as [|[g|] h]; simpl in *; try lia. apply IH. lia.
Qed.

Lemma successes_served (n : nat) (h : list (option (nat -> float))) :
  (n < successes h)%nat -> exists stale, nth n h None = Some stale.
Proof.
  revert h. induction n as [|n IH]; intros h H;
    destruct h as [|[g|] h]; simpl in *; try lia.
  - eauto.
  - apply IH. lia.
Qed.

Lemma fail_state_advance (n : nat) (st : proc) :
  (n <= successes (heap st))%nat ->
  fail_state (with_heap st (skipn n (heap st))) = fail_state st.
Proof.
  intros H. unfold fail_state. destruct st as [b sd h c n' i o r].
  cbn [heap with_heap stdout with_stdout bufs seed clock network stdin report] in *.
  rewrite successes_skipn by assumption. rewrite skipn_skipn.
  replace (S (successes h - n) + n)%nat with (S (successes h)) by lia.
  reflexivity.
Qed.

Section Allocation.
Variable RAND_MAX : Z.
Variable rand_step : Z -> Z * Z.

Lemma allocate_rows_spec (todo : list Z) (cols : Z) (acc : list (list float))
  (st : proc) :
  allocate_rows todo cols acc st =
  if (length todo <=? successes (heap st))%nat
  then inr (Some (acc ++ map (served cols) (firstn (length todo) (heap st))),
            with_heap st (skipn (length todo) (heap st)))
  else inr (None, fail_state st).
Proof.
  revert acc st. induction todo as [|i todo IH]; intros acc st.
  - destruct st. simpl. now rewrite app_nil_r.
  - destruct st as [b sd h c n i' o r]. cbn [allocate_rows].
    unfold bind, malloc. cbn [heap].
    destruct h as [|[g|] h]; try reflexivity.
    rewrite IH. cbn [heap with_heap bufs seed clock network stdin stdout report].
    cbn [length successes]. 
    change (S (length todo) <=? S (successes h))%nat
      with (length todo <=? successes h)%nat.
    destruct (length todo <=? successes h)%nat; [|reflexivity].
    cbn [firstn skipn map served]. now rewrite <- app_assoc.
Qed.

Lemma allocate_matrix_spec (rows cols : Z) (st : proc) :
  allocate_matrix rows cols st =
  if (S (Z.to_nat rows) <=? successes (heap st))%nat
  then inr (Some (map (served cols) (firstn (Z.to_nat rows) (skipn 1 (heap st)))),
            with_heap st (skipn (S (Z.to_nat rows)) (heap st)))
  else inr (None, fail_state st).
Proof.
  destruct st as [b sd h c n i o r]. unfold allocate_matrix, bind, malloc.
  cbn [heap]. destruct h as [|[g|] h]; try reflexivity.
  rewrite allocate_rows_spec. cbn [heap with_heap].
  rewrite range_unit, length_map, length_seq, Z.sub_0_r.
  cbn [successes].
  change (S (Z.to_nat rows) <=? S (successes h))%nat
    with (Z.to_nat rows <=? successes h)%nat.
  destruct (Z.to_nat rows <=? successes h)%nat; reflexivity.
Qed.

Lemma allocate_vector_spec (size : Z) (st : proc) :
  allocate_vector size st =
  if (1 <=? successes (heap st))%nat
  then inr (Some (served size (nth 0 (heap st) None)),
            with_heap st (skipn 1 (heap st)))
  else inr (None, fail_state st).
Proof.
  destruct st as [b sd h c n i o r]. unfold allocate_vector, bind, malloc.
  cbn [heap]. destruct h as [|[g|] h]; reflexivity.
Qed.

(** [run_programs] either finds all its blocks and goes on to fill and
    benchmark them, or returns at once from the first failure. *)
Lemma run_programs_spec (program_type N rank size : Z) (st : proc) :
  run_programs RAND_MAX rand_step program_type N rank size st =
  if (Z.to_nat N + 3 <=? successes (heap st))%nat
  then (fill_random RAND_MAX rand_step N N ;;
        benchmark program_type N rank size) (allocated N st)
  else inr (tt, fail_state st).
Proof.
  unfold run_programs. unfold bind at 1. rewrite allocate_matrix_spec.
  destruct (Nat.leb_spec (S (Z.to_nat N)) (successes (heap st))) as [H1|H1].
  2: { destruct (Nat.leb_spec (Z.to_nat N + 3) (successes (heap st))); [lia|reflexivity]. }
  unfold bind at 1. rewrite allocate_vector_spec. cbn [heap with_heap].
  rewrite successes_skipn by assumption.
  destruct (Nat.leb_spec 1 (successes (heap st) - S (Z.to_nat N))) as [H2|H2].
  2: { destruct (Nat.leb_spec (Z.to_nat N + 3) (successes (heap st))); [lia|].
       unfold ret. now rewrite (fail_state_advance (S (Z.to_nat N))). }
  unfold bind at 1. rewrite allocate_vector_spec. cbn [heap with_heap].
  rewrite skipn_skipn, successes_skipn by lia.
  destruct (Nat.leb_spec 1 (successes (heap st) - (1 + S (Z.to_nat N)))) as [H3|H3].
  2: { destruct (Nat.leb_spec (Z.to_nat N + 3) (successes (heap st))); [lia|].
       unfold ret.
       rewrite <- (fail_state_advance (1 + S (Z.to_nat N)) st) by lia.
       destruct st; reflexivity. }
  destruct (Nat.leb_spec (Z.to_nat N + 3) (successes (heap st))); [|lia].
  unfold bind at 1. unfold modify at 1.
  unfold allocated. destruct st as [b sd h c n i o r].
  cbn [heap with_heap with_bufs bufs seed clock network stdin stdout report].
  rewrite !skipn_skipn. rewrite <- !nth_default_eq.
  replace (1 + (1 + S (Z.to_nat N)))%nat with (Z.to_nat N + 3)%nat by lia.
  unfold nth_default.
  rewrite !nth_error_skipn. rewrite Nat.add_0_r.
  replace (1 + S (Z.to_nat N) + 0)%nat with (Z.to_nat N + 2)%nat by lia.
  replace (S (Z.to_nat N)) with (Z.to_nat N + 1)%nat by lia.
  reflexivity.
Qed.
End Allocation.

(** ** The driver: random fill *)

Lemma Forall_upd {A} (P : A -> Prop) (l : list A) (n : nat) (x : A) :
  Forall P l -> P x -> Forall P (upd l n x).
Proof.
  intros Hl Hx. revert n. induction Hl as [|a l Ha Hl IH]; intros [|n]; simpl;
    constructor; auto.
Qed.

Lemma shaped_row {D} (rows cols : Z) (b : mem D) (i : Z) (row : list D) :
  shaped rows cols b -> load (matrix b) i = Some row ->
  Z.of_nat (length row) = cols.
Proof.
  intros [_ [Hrows _]] Hrow. rewrite Forall_forall in Hrows. apply Hrows.
  unfold load in Hrow. destruct (i <? 0); [discriminate|].
  eapply nth_error_In; eauto.
Qed.

Lemma set_matrix_spec {D} (rows cols i j : Z) (x : D) (b : mem D) :
  shaped rows cols b -> 0 <= i < rows -> 0 <= j < cols ->
  exists b', set_matrix i j x b = inr (tt, b') /\
             shaped rows cols b' /\
             vector b' = vector b /\ result b' = result b /\
             forall i' j', cell b' i' j' =
                           if (i' =? i) && (j' =? j) then Some x else cell b i' j'.
Proof.
  intros Hs Hi Hj. pose proof Hs as [Hm [Hrows [Hv Hr]]].
  destruct (load_some (matrix b) i ltac:(lia)) as [row Hrow].
  pose proof (shaped_row rows cols b i row Hs Hrow) as Hlen.
  unfold set_matrix. rewrite Hrow, store_some by lia.
  eexists. split; [reflexivity|]. split; [|split; [reflexivity|split; [reflexivity|]]].
  - repeat split; simpl; auto.
    + now rewrite upd_length.
    + apply Forall_upd; [assumption|]. now rewrite upd_length.
  - intros i' j'. unfold cell. simpl. rewrite load_upd, Z2Nat.id by lia.
    destruct (Z.eqb_spec i' i) as [->|]; simpl; [|reflexivity].
    rewrite Hrow. simpl. rewrite load_upd, Z2Nat.id by lia.
    destruct (Z.eqb_spec j' j) as [->|]; [|reflexivity].
    destruct (load_some row j ltac:(lia)) as [y ->]. reflexivity.
Qed.

Lemma set_vector_spec {D} (rows cols j : Z) (x : D) (b : mem D) :
  shaped rows cols b -> 0 <= j < cols ->
  exists b', set_vector j x b = inr (tt, b') /\
             shaped rows cols b' /\
             matrix b' = matrix b /\ result b' = result b /\
             forall j', load (vector b') j' =
                        if j' =? j then Some x else load (vector b) j'.
Proof.
  intros Hs Hj. pose proof Hs as [Hm [Hrows [Hv Hr]]].
  unfold set_vector. rewrite store_some by lia.
  eexists. split; [reflexivity|]. split; [|split; [reflexivity|split; [reflexivity|]]].
  - repeat split; simpl; auto. now rewrite upd_length.
  - intros j'. simpl. rewrite load_upd, Z2Nat.id by lia.
    destruct (Z.eqb_spec j' j) as [->|]; [|reflexivity].
    destruct (load_some (vector b) j ltac:(lia)) as [y ->]. reflexivity.
Qed.

Lemma same_world_refl (st : proc) : same_world st st.
Proof. repeat split. Qed.

Lemma same_world_trans (a b c : proc) :
  same_world a b -> same_world b c -> same_world a c.
Proof.
  unfold same_world. intros [? [? [? [? [? ?]]]]] [? [? [? [? [? ?]]]]].
  repeat split; congruence.
Qed.

Ltac proc_simpl :=
  cbn [bufs seed heap clock network stdin stdout report
       with_bufs with_seed with_heap with_clock with_network
       with_stdin with_stdout with_report] in *.

Section Fill.
Variable RAND_MAX : Z.
Variable rand_step : Z -> Z * Z.
Variable Q : float -> Prop.
Hypothesis rand_Q : forall sd, Q (unit_random RAND_MAX (fst (rand_step sd))).
Variables rows cols : Z.

Let fresh_cell (st : proc) (i j : Z) : Prop :=
  exists x, cell (bufs st) i j = Some x /\ Q x.

Let fresh_component (st : proc) (j : Z) : Prop :=
  exists x, load (vector (bufs st)) j = Some x /\ Q x.

Let base (st0 st : proc) : Prop :=
  shaped rows cols (bufs st) /\ result (bufs st) = result (bufs st0) /\
  same_world st0 st.

Lemma fill_cell (st0 st : proc) (i j : Z) :
  base st0 st -> 0 <= i < rows -> 0 <= j < cols ->
  exists st',
    (r <- rand rand_step ;;
     on_bufs (set_matrix i j (unit_random RAND_MAX r))) st = inr (tt, st') /\
    base st0 st' /\ fresh_cell st' i j /\
    (forall i' j', (i', j') <> (i, j) ->
                   cell (bufs st') i' j' = cell (bufs st) i' j') /\
    vector (bufs st') = vector (bufs st).
Proof.
  intros [Hs [Hr Hw]] Hi Hj. unfold bind, rand, on_bufs.
  pose proof (rand_Q (seed st)) as HQ.
  destruct (rand_step (seed st)) as [r sd]. cbn [fst] in HQ.
  destruct (set_matrix_spec rows cols i j (unit_random RAND_MAX r) (bufs st)
              Hs Hi Hj) as [b' [Hset [Hs' [Hv' [Hr' Hcell]]]]].
  destruct st as [b sd0 h c n inp o rep]. proc_simpl.
  rewrite Hset. eexists. split; [reflexivity|].
  unfold base, fresh_cell. proc_simpl.
  split; [|split; [|split]].
  - split; [assumption|]. split; [congruence|exact Hw].
  - exists (unit_random RAND_MAX r). rewrite Hcell, !Z.eqb_refl.
    auto.
  - intros i' j' Hne. rewrite Hcell.
    destruct (Z.eqb_spec i' i), (Z.eqb_spec j' j); simpl; congruence.
  - assumption.
Qed.

Lemma fill_component (st0 st : proc) (j : Z) :
  base st0 st -> 0 <= j < cols ->
  exists st',
    (r <- rand rand_step ;;
     on_bufs (set_vector j (unit_random RAND_MAX r))) st = inr (tt, st') /\
    base st0 st' /\ fresh_component st' j /\
    (forall j', j' <> j ->
                load (vector (bufs st')) j' = load (vector (bufs st)) j') /\
    matrix (bufs st') = matrix (bufs st).
Proof.
  intros [Hs [Hr Hw]] Hj. unfold bind, rand, on_bufs.
  pose proof (rand_Q (seed st)) as HQ.
  destruct (rand_step (seed st)) as [r sd]. cbn [fst] in HQ.
  destruct (set_vector_spec rows cols j (unit_random RAND_MAX r) (bufs st)
              Hs Hj) as [b' [Hset [Hs' [Hm' [Hr' Hload]]]]].
  destruct st as [b sd0 h c n inp o rep]. proc_simpl.
  rewrite Hset. eexists. split; [reflexivity|].
  unfold base, fresh_component. proc_simpl.
  split; [|split; [|split]].
  - split; [assumption|]. split; [congruence|exact Hw].
  - exists (unit_random RAND_MAX r). rewrite Hload, Z.eqb_refl.
    auto.
  - intros j' Hne. rewrite Hload. destruct (Z.eqb_spec j' j); congruence.
  - assumption.
Qed.

(** [fill_random] returns; it leaves the shape and the result as they are
    and every entry of the matrix and of the vector is a value produced
    from [rand]. *)
Lemma fill_random_spec (st : proc) :
  shaped rows cols (bufs st) ->
  exists st',
    fill_random RAND_MAX rand_step rows cols st = inr (tt, st') /\
    shaped rows cols (bufs st') /\
    result (bufs st') = result (bufs st) /\
    same_world st st' /\
    (forall i j, 0 <= i < rows -> 0 <= j < cols ->
       exists x, cell (bufs st') i j = Some x /\ Q x) /\
    (forall j, 0 <= j < cols ->
       exists x, load (vector (bufs st')) j = Some x /\ Q x).
Proof.
  intros Hs. unfold fill_random, bind at 1.
  (* the matrix *)
  rewrite for_unfold by lia.
  destruct (for_each_invariant
              (fun done t => base st t /\
                 forall i j, In i done -> 0 <= j < cols -> fresh_cell t i j)
              (fun i => for_ 0 cols 1 (fun j =>
                 r <- rand rand_step ;;
                 on_bufs (set_matrix i j (unit_random RAND_MAX r))))
              (range 0 rows 1) st) as [st1 [Hrun1 [Hb1 Hcells]]].
  { split; [|intros i j []].
    split; [assumption|]. split; [reflexivity|apply same_world_refl]. }
  { intros done i rest t Hsplit [Hbt Hdone].
    assert (In i (range 0 rows 1)) as Hi by (rewrite Hsplit; apply in_elt).
    apply in_range_unit in Hi.
    assert (~ In i done) as Hfresh.
    { pose proof (NoDup_range_unit 0 rows) as Hnd. rewrite Hsplit in Hnd.
      apply NoDup_remove_2 in Hnd. intros Hin. apply Hnd.
      apply in_or_app. now left. }
    rewrite for_unfold by lia.
    destruct (for_each_invariant
                (fun donej u => base st u /\
                   (forall i' j, In i' done -> 0 <= j < cols -> fresh_cell u i' j) /\
                   (forall j, In j donej -> fresh_cell u i j))
                (fun j => r <- rand rand_step ;;
                          on_bufs (set_matrix i j (unit_random RAND_MAX r)))
                (range 0 cols 1) t) as [t' [Hrun [Hbt' [Hold Hnew]]]].
    { split; [assumption|]. split; [assumption|intros j []]. }
    { intros donej j restj u Hsplitj [Hbu [Hold Hnew]].
      assert (In j (range 0 cols 1)) as Hj by (rewrite Hsplitj; apply in_elt).
      apply in_range_unit in Hj.
      destruct (fill_cell st u i j Hbu ltac:(lia) Hj)
        as [u' [Hrun [Hbu' [Hij [Hother _]]]]].
      exists u'. split; [exact Hrun|]. split; [assumption|]. split.
      - intros i' j' Hi' Hj'. unfold fresh_cell. rewrite Hother.
        + now apply Hold.
        + intros E. inversion E; subst. contradiction.
      - intros j' Hj'. apply in_app_or in Hj'. destruct Hj' as [Hj'|[<-|[]]].
        + destruct (Z.eq_dec j' j) as [->|Hne]; [assumption|].
          unfold fresh_cell. rewrite Hother; [now apply Hnew|].
          intros E. inversion E; subst. contradiction.
        + assumption. }
    exists t'. split; [exact Hrun|]. split; [assumption|].
    intros i' j Hi' Hj. apply in_app_or in Hi'. destruct Hi' as [Hi'|[<-|[]]].
    - now apply Hold.
    - apply Hnew. apply in_range_unit. lia. }
  rewrite Hrun1.
  (* the vector *)
  rewrite for_unfold by lia.
  destruct (for_each_invariant
              (fun done t => base st t /\
                 (forall i j, 0 <= i < rows -> 0 <= j < cols -> fresh_cell t i j) /\
                 (forall j, In j done -> fresh_component t j))
              (fun i => r <- rand rand_step ;;
                        on_bufs (set_vector i (unit_random RAND_MAX r)))
              (range 0 cols 1) st1) as [st2 [Hrun2 [Hb2 [Hm2 Hv2]]]].
  { split; [assumption|]. split; [|intros j []].
    intros i j Hi Hj. apply Hcells; [apply in_range_unit; lia|assumption]. }
  { intros done j rest t Hsplit [Hbt [Hm Hv]].
    assert (In j (range 0 cols 1)) as Hj by (rewrite Hsplit; apply in_elt).
    apply in_range_unit in Hj.
    destruct (fill_component st t j Hbt Hj)
      as [t' [Hrun [Hbt' [Hjj [Hother Hmat]]]]].
    exists t'. split; [exact Hrun|]. split; [assumption|]. split.
    - intros i' j' Hi' Hj'. unfold fresh_cell, cell. rewrite Hmat.
      now apply Hm.
    - intros j' Hj'. apply in_app_or in Hj'. destruct Hj' as [Hj'|[<-|[]]].
      + destruct (Z.eq_dec j' j) as [->|Hne]; [assumption|].
        unfold fresh_component. rewrite Hother by assumption. now apply Hv.
      + assumption. }
  exists st2. split; [exact Hrun2|].
  destruct Hb2 as [Hs2 [Hr2 Hw2]].
  repeat (split; [assumption|]).
  intros j Hj. apply Hv2. apply in_range_unit. lia.
Qed.
End Fill.

(** ** The values of the random fill *)

Lemma all_from_spec (P : Z -> bool) (n : nat) (r k : Z) :
  all_from n r P = true -> r <= k < r + Z.of_nat n -> P k = true.
Proof.
  revert r. induction n as [|n IH]; intros r H Hk; [lia|].
  cbn [all_from] in H. apply andb_prop in H. destruct H as [Hr Hrest].
  destruct (Z.eq_dec k r) as [->|Hne]; [assumption|].
  apply (IH (r + 1)); [assumption|lia].
Qed.

Lemma unit_random_msvc (r : Z) :
  0 <= r <= MSVC_RAND_MAX ->
  in_unit_interval (unit_random MSVC_RAND_MAX r) = true.
Proof.
  intros Hr.
  assert (all_from (Z.to_nat 32768) 0
            (fun k => in_unit_interval (unit_random MSVC_RAND_MAX k)) = true)
    as Hall by (vm_compute; reflexivity).
  apply (all_from_spec _ _ _ r Hall). unfold MSVC_RAND_MAX in Hr. lia.
Qed.

Lemma msvc_rand_range (sd : Z) : 0 <= fst (msvc_rand sd) <= MSVC_RAND_MAX.
Proof.
  unfold msvc_rand, MSVC_RAND_MAX. cbn [fst].
  pose proof (Z.mod_pos_bound
                (((sd * 214013 + 2531011) mod 4294967296) / 65536) 32768).
  lia.
Qed.

(** C6, as stated, fails: [rand] may return [RAND_MAX], and then the value
    written is exactly 1.  After [srand(4028364353)] the first call of the
    generator returns 32767 and [fill_random] stores [1.0] in
    [matrix[0][0]], which is not below 1. *)
Lemma fill_random_can_write_one :
  fst (msvc_rand 4028364353) = MSVC_RAND_MAX /\
  exists st',
    fill_random MSVC_RAND_MAX msvc_rand 64 64
      (seeded 4028364353 (constant_mem 64 0%float 0%float 0%float)) =
    inr (tt, st') /\
    cell (bufs st') 0 0 = Some 1%float /\
    PrimFloat.ltb 1 1 = false.
Proof.
  split; [reflexivity|].
  destruct (fill_random MSVC_RAND_MAX msvc_rand 64 64
              (seeded 4028364353 (constant_mem 64 0%float 0%float 0%float)))
    as [e|[[] st']] eqn:E.
  - vm_compute in E. discriminate.
  - exists st'. split; [reflexivity|].
    assert (match fill_random MSVC_RAND_MAX msvc_rand 64 64
                    (seeded 4028364353 (constant_mem 64 0%float 0%float 0%float))
            with
            | inr (_, t) => cell (bufs t) 0 0
            | inl _ => None
            end = Some 1%float) as H by (vm_compute; reflexivity).
    rewrite E in H. split; [exact H|reflexivity].
Qed.

(** C6, amended: with the generator's contract [0 <= rand() <= RAND_MAX]
    (and [RAND_MAX = 32767]) [fill_random] returns and every entry of the
    matrix and of the vector lies in the closed interval from 0 to 1. *)
Theorem fill_random_in_unit_interval (rand_step : Z -> Z * Z)
  (rows cols : Z) (st : proc) :
  (forall sd, 0 <= fst (rand_step sd) <= MSVC_RAND_MAX) ->
  shaped rows cols (bufs st) ->
  exists st',
    fill_random MSVC_RAND_MAX rand_step rows cols st = inr (tt, st') /\
    (forall i j, 0 <= i < rows -> 0 <= j < cols ->
       exists x, cell (bufs st') i j = Some x /\ in_unit_interval x = true) /\
    (forall j, 0 <= j < cols ->
       exists x, load (vector (bufs st')) j = Some x /\
                 in_unit_interval x = true).
Proof.
  intros Hrand Hs.
  destruct (fill_random_spec MSVC_RAND_MAX rand_step
              (fun x => in_unit_interval x = true)
              (fun sd => unit_random_msvc _ (Hrand sd))
              rows cols st Hs) as [st' [Hrun [_ [_ [_ [Hm Hv]]]]]].
  exists st'. auto.
Qed.

Lemma fill_random_in_unit_interval_witness :
  exists st',
    fill_random MSVC_RAND_MAX msvc_rand 4 4
      (seeded 1 (constant_mem 4 0%float 0%float 0%float)) = inr (tt, st') /\
    (forall i j, 0 <= i < 4 -> 0 <= j < 4 ->
       exists x, cell (bufs st') i j = Some x /\ in_unit_interval x = true) /\
    (forall j, 0 <= j < 4 ->
       exists x, load (vector (bufs st')) j = Some x /\
                 in_unit_interval x = true).
Proof.
  apply (fill_random_in_unit_interval msvc_rand 4 4).
  - exact msvc_rand_range.
  - apply (shaped_constant_mem 4).
Defined.

(** ** The driver: one size *)

Lemma served_blocks (N : Z) (n : nat) (h : list (option (nat -> float))) :
  (n <= successes h)%nat ->
  length (firstn n h) = n /\
  Forall (fun o => length (served N o) = Z.to_nat N) (firstn n h).
Proof.
  revert h. induction n as [|n IH]; intros h H.
  - split; [reflexivity|constructor].
  - destruct h as [|[g|] h]; simpl in H; try lia.
    destruct (IH h ltac:(lia)) as [Hlen Hall]. split.
    + simpl. now rewrite Hlen.
    + constructor; [|assumption]. simpl. now rewrite length_map, length_seq.
Qed.

Lemma allocated_shaped (N : Z) (st : proc) :
  0 <= N -> (Z.to_nat N + 3 <= successes (heap st))%nat ->
  shaped N N (bufs (allocated N st)) /\
  same_world (with_heap st (skipn (Z.to_nat N + 3) (heap st))) (allocated N st) /\
  forall stale, nth (Z.to_nat N + 2) (heap st) None = Some stale ->
    forall i, 0 <= i < N ->
      load (result (bufs (allocated N st))) i = Some (stale (Z.to_nat i)).
Proof.
  intros HN Hk. unfold allocated. destruct st as [b sd h c n inp o rep].
  proc_simpl. split; [|split].
  - destruct (served_blocks N (Z.to_nat N) (skipn 1 h)) as [Hlen Hall].
    { rewrite successes_skipn by lia. lia. }
    destruct (successes_served (Z.to_nat N + 1) h ltac:(lia)) as [g1 ->].
    destruct (successes_served (Z.to_nat N + 2) h ltac:(lia)) as [g2 ->].
    unfold shaped. cbn [matrix vector result served].
    rewrite !length_map, !length_seq, Hlen.
    repeat split; try lia.
    apply Forall_map. revert Hall. apply Forall_impl. intros; lia.
  - repeat split.
  - intros stale Hst i Hi. rewrite Hst. cbn [result served].
    unfold load. destruct (Z.ltb_spec i 0); [lia|].
    rewrite nth_error_map, nth_error_seq.
    destruct (Nat.ltb_spec (Z.to_nat i) (Z.to_nat N)); [reflexivity|lia].
Qed.

Section OneSize.
Variable RAND_MAX : Z.
Variable rand_step : Z -> Z * Z.

End OneSize.

(** A whole run of [main]: "1" is typed, the first allocation of size 64
    fails, size 128 finds its 131 blocks and memory is exhausted for the
    larger sizes.  The run ends with status 0; the report holds the header
    and the record of size 128, the terminal the menu and nine failure
    messages. *)
Lemma main_survives_failed_allocations :
  match main MSVC_RAND_MAX msvc_rand 0 1 1700000000 true
             (typed (String "1" nl) 131) with
  | inr (status, st) =>
      status = 0 /\
      report st = [Header; Timing "Sequential" 128 0%float] /\
      stdout st = menu ++ repeat allocation_failed 9
  | inl _ => False
  end.
Proof. vm_compute. repeat split. Qed.

(** C1 at a failing input: size 64, generator seeded with 1, every block
    the heap returns holds the stale value 1000.  The driver's runs of the
    sequential, the tiled OpenMP and the tiled MPI variant fill the same
    matrix and vector, yet every entry of the two tiled results is off the
    sequential one by more than the tolerance; and with three ranks, which
    do not divide 64, [mpi_mvm] leaves the stale value in entry 63 on two
    of them. *)
Theorem tiled_results_miss_sequential :
  match run_programs MSVC_RAND_MAX msvc_rand 1 64 0 1 (stale_heap 1 67 1000%float),
        run_programs MSVC_RAND_MAX msvc_rand 4 64 0 1 (stale_heap 1 67 1000%float),
        run_programs MSVC_RAND_MAX msvc_rand 5 64 0 1 (stale_heap 1 67 1000%float)
  with
  | inr (_, st1), inr (_, st4), inr (_, st5) =>
      matrix (bufs st4) = matrix (bufs st1) /\
      vector (bufs st4) = vector (bufs st1) /\
      matrix (bufs st5) = matrix (bufs st1) /\
      vector (bufs st5) = vector (bufs st1) /\
      length (result (bufs st1)) = 64%nat /\
      length (result (bufs st4)) = 64%nat /\
      length (result (bufs st5)) = 64%nat /\
      far_apart (result (bufs st4)) (result (bufs st1)) = true /\
      far_apart (result (bufs st5)) (result (bufs st1)) = true
  | _, _, _ => False
  end /\
  match mpi_mvm_job 0%float PrimFloat.add PrimFloat.mul 64 64
          (repeat (constant_mem 64 1%float 1%float 1000%float) 3) with
  | inr finals => map (fun p => load (result p) 63) finals =
                  [Some 1000%float; Some 1000%float; Some 64%float]
  | inl _ => False
  end.
Proof. vm_compute. repeat split. Qed.

(** ** The selection loop *)

Lemma skip_spaces_length (s : list ascii) :
  (length (skip_spaces s) <= length s)%nat.
Proof.
  induction s as [|c s IH]; simpl; [lia|].
  destruct (is_space c); simpl; lia.
Qed.

Lemma read_digits_length (s : list ascii) (acc v : Z) (rest : list ascii) :
  read_digits acc s = (v, rest) -> (length rest <= length s)%nat.
Proof.
  revert acc. induction s as [|c s IH]; intros acc E; simpl in E.
  - inversion E; subst. simpl. lia.
  - destruct (digit_of c).
    + apply IH in E. simpl. lia.
    + inversion E; subst. lia.
Qed.

Lemma scan_int_length (s : list ascii) (r : scanned) (rest : list ascii) :
  scan_int s = (r, rest) -> (length rest <= length s)%nat.
Proof.
  unfold scan_int. pose proof (skip_spaces_length s) as Hs.
  destruct (skip_spaces s) as [|c s'] eqn:Es; intros E.
  - inversion E; subst. simpl; lia.
  - simpl in Hs.
    set (body := if (Ascii.eqb c "-" || Ascii.eqb c "+")%bool
                 then s' else c :: s') in *.
    assert (length body <= S (length s'))%nat as Hb.
    { unfold body. destruct (Ascii.eqb c "-" || Ascii.eqb c "+")%bool; simpl; lia. }
    destruct body as [|d body'] eqn:Eb.
    + inversion E; subst. simpl; lia.
    + destruct (digit_of d).
      * destruct (read_digits 0 (d :: body')) as [v rest'] eqn:Er.
        apply read_digits_length in Er.
        destruct ((INT_MIN <=? _) && _); inversion E; subst; lia.
      * inversion E; subst. lia.
Qed.

Lemma discard_line_length (s rest : list ascii) :
  discard_line s = Some rest -> (length rest < length s)%nat.
Proof.
  revert rest. induction s as [|c s IH]; intros rest E; simpl in E.
  - discriminate.
  - destruct (Ascii.eqb c newline).
    + inversion E; subst. simpl. lia.
    + apply IH in E. simpl. lia.
Qed.

(** One turn of the loop. *)
Lemma read_choice_loop_step (fuel : nat) (st : proc) :
  read_choice_loop (S fuel) st =
  let again rest :=
    match discard_line rest with
    | None => inl Diverges
    | Some rest' => read_choice_loop fuel (next_attempt st rest')
    end in
  match scan_int (stdin st) with
  | (Unrepresentable, _) => inl IntOverflow
  | (Assigned c, rest) =>
      if (c <? 1) || (c >? 5) then again rest else inr (c, with_stdin st rest)
  | (_, rest) => again rest
  end.
Proof.
  cbn [read_choice_loop]. unfold bind at 1. unfold scanf_s.
  destruct st as [b sd h c n inp o rep]. proc_simpl.
  destruct (scan_int inp) as [[v| | |] rest]; try reflexivity.
  - destruct ((v <? 1) || (v >? 5)); [|reflexivity].
    unfold bind, printf, modify, flush_line, next_attempt. proc_simpl.
    destruct (discard_line rest); reflexivity.
  - unfold bind, printf, modify, flush_line, next_attempt. proc_simpl.
    destruct (discard_line rest); reflexivity.
  - unfold bind, printf, modify, flush_line, next_attempt. proc_simpl.
    destruct (discard_line rest); reflexivity.
Qed.

(** Fuel above the length of the input is never used up. *)
Lemma read_choice_fuel (f1 f2 : nat) (st : proc) :
  (length (stdin st) < f1)%nat -> (length (stdin st) < f2)%nat ->
  read_choice_loop f1 st = read_choice_loop f2 st /\
  read_choice_loop f1 st <> inl OutOfFuel.
Proof.
  revert f2 st. induction f1 as [|f1 IH]; intros f2 st H1 H2; [lia|].
  destruct f2 as [|f2]; [lia|].
  rewrite !read_choice_loop_step. cbv zeta.
  destruct (scan_int (stdin st)) as [r rest] eqn:Es.
  apply scan_int_length in Es.
  assert (match discard_line rest with
          | Some rest' => read_choice_loop f1 (next_attempt st rest')
          | None => inl Diverges
          end =
          match discard_line rest with
          | Some rest' => read_choice_loop f2 (next_attempt st rest')
          | None => inl Diverges
          end /\
          match discard_line rest with
          | Some rest' => read_choice_loop f1 (next_attempt st rest')
          | None => inl Diverges
          end <> inl OutOfFuel) as [Eq Hne].
  { destruct (discard_line rest) as [rest'|] eqn:Ed; [|split; congruence].
    apply discard_line_length in Ed.
    apply IH; unfold next_attempt; destruct st; proc_simpl; lia. }
  destruct r as [v| | |]; try (split; [exact Eq|exact Hne]).
  - destruct ((v <? 1) || (v >? 5)); [split; assumption|].
    split; [reflexivity|discriminate].
  - split; [reflexivity|discriminate].
Qed.

Lemma read_choice_loop_accepts (fuel : nat) (st : proc) (c : Z) (st' : proc) :
  read_choice_loop fuel st = inr (c, st') ->
  1 <= c <= 5 /\
  exists k, stdout st' = stdout st ++ repeat reprompt k /\
            report st' = report st.
Proof.
  revert st. induction fuel as [|fuel IH]; intros st E; [discriminate|].
  rewrite read_choice_loop_step in E. cbv zeta in E.
  assert (forall rest,
            match discard_line rest with
            | Some rest' => read_choice_loop fuel (next_attempt st rest')
            | None => inl Diverges
            end = inr (c, st') ->
            1 <= c <= 5 /\
            exists k, stdout st' = stdout st ++ repeat reprompt k /\
                      report st' = report st) as Hagain.
  { intros rest Er. destruct (discard_line rest) as [rest'|]; [|discriminate].
    destruct (IH _ Er) as [Hc [k [Hout Hrep]]]. split; [assumption|].
    exists (S k). unfold next_attempt in *. destruct st. proc_simpl.
    split; [|assumption]. rewrite Hout, <- app_assoc. reflexivity. }
  destruct (scan_int (stdin st)) as [[v| | |] rest]; try discriminate;
    try (now apply (Hagain rest)).
  destruct (Z.ltb_spec v 1), (Z.gtb_spec v 5); simpl in E;
    try (now apply (Hagain rest)).
  inversion E; subst. split; [lia|]. exists O. destruct st. proc_simpl.
  split; [now rewrite app_nil_r|reflexivity].
Qed.

Lemma read_choice_loop_faults (fuel : nat) (st : proc) (e : fault) :
  read_choice_loop fuel st = inl e ->
  e = Diverges \/ e = IntOverflow \/ e = OutOfFuel.
Proof.
  revert st. induction fuel as [|fuel IH]; intros st E.
  - inversion E. auto.
  - rewrite read_choice_loop_step in E. cbv zeta in E.
    assert (forall rest,
              match discard_line rest with
              | Some rest' => read_choice_loop fuel (next_attempt st rest')
              | None => inl Diverges
              end = inl e ->
              e = Diverges \/ e = IntOverflow \/ e = OutOfFuel) as Hagain.
    { intros rest Er. destruct (discard_line rest) as [rest'|].
      - now apply IH in Er.
      - inversion Er. auto. }
    destruct (scan_int (stdin st)) as [[v| | |] rest];
      try (now apply (Hagain rest)).
    + destruct ((v <? 1) || (v >? 5)); [now apply (Hagain rest)|discriminate].
    + inversion E. auto.
Qed.

(** ** What the driver writes to the report *)

Lemma records_quiet {A} (lbl : string) (c : M proc A) :
  (forall st a st', c st = inr (a, st') -> report st' = report st) ->
  records lbl c.
Proof.
  intros H st a st' E. exists []. rewrite app_nil_r. split; [eauto|constructor].
Qed.

Lemma records_ret {A} (lbl : string) (a : A) : records lbl (ret a).
Proof. apply records_quiet. intros st a' st' E. now inversion E. Qed.

Lemma records_bind {A B} (lbl : string) (c : M proc A) (k : A -> M proc B) :
  records lbl c -> (forall a, records lbl (k a)) -> records lbl (bind c k).
Proof.
  intros Hc Hk st b st' E. unfold bind in E.
  destruct (c st) as [e|[a st1]] eqn:Ec; [discriminate|].
  destruct (Hc _ _ _ Ec) as [l1 [E1 F1]].
  destruct (Hk a _ _ _ E) as [l2 [E2 F2]].
  exists (l1 ++ l2). split.
  - now rewrite E2, E1, app_assoc.
  - apply Forall_app. auto.
Qed.

Lemma records_for_each {I} (lbl : string) (l : list I) (body : I -> M proc unit) :
  (forall i, records lbl (body i)) -> records lbl (for_each l body).
Proof.
  intros H. induction l as [|i l IH]; simpl.
  - apply records_ret.
  - apply records_bind; auto.
Qed.

Lemma records_for (lbl : string) (lo hi step : Z) (body : Z -> M proc unit) :
  (forall i, records lbl (body i)) -> records lbl (for_ lo hi step body).
Proof.
  intros H. unfold for_. destruct ((lo <? hi) && (step <=? 0)).
  - intros st a st' E. discriminate.
  - now apply records_for_each.
Qed.

Lemma records_malloc (lbl : string) (n : Z) : records lbl (malloc n).
Proof.
  apply records_quiet. intros st a st' E. unfold malloc in E.
  destruct st as [b sd h c nw inp o rep]. proc_simpl.
  destruct h as [|[g|] h]; inversion E; reflexivity.
Qed.

Lemma records_printf (lbl s : string) : records lbl (printf s).
Proof.
  apply records_quiet. intros st a st' E. inversion E. now destruct st.
Qed.

Lemma records_get_time (lbl : string) : records lbl get_time.
Proof.
  apply records_quiet. intros st a st' E. unfold get_time in E.
  destruct st as [b sd h c nw inp o rep]. proc_simpl.
  destruct c; inversion E; reflexivity.
Qed.

Lemma records_next_peers (lbl : string) : records lbl next_peers.
Proof.
  apply records_quiet. intros st a st' E. unfold next_peers in E.
  destruct st as [b sd h c nw inp o rep]. proc_simpl.
  destruct nw; inversion E; reflexivity.
Qed.

Lemma records_on_bufs {A} (lbl : string) (c : M (mem float) A) :
  records lbl (on_bufs c).
Proof.
  apply records_quiet. intros st a st' E. unfold on_bufs in E.
  destruct (c (bufs st)) as [e|[a' b']]; inversion E. now destruct st.
Qed.

Lemma records_fprintf (lbl : string) (N : Z) (t : float) :
  records lbl (fprintf (Timing lbl N t)).
Proof.
  intros st a st' E. inversion E. exists [Timing lbl N t].
  destruct st. proc_simpl. split; [reflexivity|].
  constructor; [|constructor]. now exists N, t.
Qed.

Section Reports.
Variable RAND_MAX : Z.
Variable rand_step : Z -> Z * Z.

Lemma records_rand (lbl : string) : records lbl (rand rand_step).
Proof.
  apply records_quiet. intros st a st' E. unfold rand in E.
  destruct (rand_step (seed st)). inversion E. now destruct st.
Qed.

Lemma records_allocate_rows (lbl : string) (todo : list Z) (cols : Z)
  (acc : list (list float)) :
  records lbl (allocate_rows todo cols acc).
Proof.
  revert acc. induction todo as [|i todo IH]; intros acc; cbn [allocate_rows].
  - apply records_ret.
  - apply records_bind; [apply records_malloc|]. intros [r|].
    + apply IH.
    + apply records_bind; [apply records_printf|intros; apply records_ret].
Qed.

Lemma records_allocate_matrix (lbl : string) (rows cols : Z) :
  records lbl (allocate_matrix rows cols).
Proof.
  apply records_bind; [apply records_malloc|]. intros [p|].
  - apply records_allocate_rows.
  - apply records_bind; [apply records_printf|intros; apply records_ret].
Qed.

Lemma records_allocate_vector (lbl : string) (size : Z) :
  records lbl (allocate_vector size).
Proof.
  apply records_bind; [apply records_malloc|]. intros [p|].
  - apply records_ret.
  - apply records_bind; [apply records_printf|intros; apply records_ret].
Qed.

Lemma records_fill_random (lbl : string) (rows cols : Z) :
  records lbl (fill_random RAND_MAX rand_step rows cols).
Proof.
  apply records_bind; [|intros _]; apply records_for; intros i.
  - apply records_for. intros j.
    apply records_bind; [apply records_rand|intros; apply records_on_bufs].
  - apply records_bind; [apply records_rand|intros; apply records_on_bufs].
Qed.

Lemma records_run_programs (program_type N rank size : Z) :
  records (label_of program_type)
          (run_programs RAND_MAX rand_step program_type N rank size).
Proof.
  unfold run_programs.
  apply records_bind; [apply records_allocate_matrix|]. intros [m|];
    [|apply records_ret].
  apply records_bind; [apply records_allocate_vector|]. intros [v|];
    [|apply records_ret].
  apply records_bind; [apply records_allocate_vector|]. intros [r|];
    [|apply records_ret].
  apply records_bind.
  { apply records_quiet. intros st a st' E. inversion E. now destruct st. }
  intros _. apply records_bind; [apply records_fill_random|]. intros _.
  unfold benchmark, label_of.
  repeat match goal with
         | |- records _ (if ?b then _ else _) => destruct b
         | |- records _ (bind _ _) => apply records_bind; [|intros ?]
         | |- records _ (on_bufs _) => apply records_on_bufs
         | |- records _ MPI_Barrier => apply records_ret
         | |- records _ next_peers => apply records_next_peers
         | |- records _ get_time => apply records_get_time
         | |- records _ (fprintf _) => apply records_fprintf
         | |- records _ (ret _) => apply records_ret
         end.
Qed.

Lemma main_at_prompt (now : Z) (st : proc) :
  (srand now ;; for_each menu printf) st = inr (tt, at_prompt now st).
Proof.
  destruct st as [b sd h c nw inp o rep].
  unfold bind, srand, modify, at_prompt, menu. cbn [map for_each].
  unfold bind, printf, modify, ret. proc_simpl.
  repeat rewrite <- app_assoc. reflexivity.
Qed.

End Reports.

(** ** Any order of the rows of the parallel loop *)

Section Schedules.
Context {D : Type}.
Variable zero : D.
Variables add mul : D -> D -> D.

Lemma openmp_mvm_is_loop_order (rows cols : Z) (s : mem D) :
  openmp_mvm zero add mul rows cols s =
  openmp_mvm_in_order zero add mul (range 0 rows 1) cols s.
Proof. unfold openmp_mvm. now rewrite for_unfold by lia. Qed.

(** X2: whatever the order in which the rows are completed, the kernel
    leaves the product the sequential kernel leaves. *)
Lemma openmp_mvm_any_order (rows cols : Z) (order : list Z) (s : mem D) :
  Permutation order (range 0 rows 1) -> shaped rows cols s ->
  exists s', openmp_mvm_in_order zero add mul order cols s = inr (tt, s') /\
             matrix s' = matrix s /\ vector s' = vector s /\
             result s' = product zero add mul (matrix s) (vector s) rows cols.
Proof.
  intros Hperm Hs.
  assert (NoDup order) as Hnd.
  { apply (Permutation_NoDup (Permutation_sym Hperm)), NoDup_range_unit. }
  assert (forall k, In k order <-> 0 <= k < rows) as Hin.
  { intros k. rewrite <- in_range_unit. split; apply Permutation_in;
      [assumption|now apply Permutation_sym]. }
  destruct (acts_for_each rows cols (matrix s) (vector s) order
              (fun i => set_result i zero ;;
                        for_ 0 cols 1 (fun j => accumulate add mul i j))
              (fun i k r => if k =? i
                            then dot zero add mul (matrix s) (vector s) i cols
                            else r)
              (fun i Hi => row_body_acts zero add mul rows cols _ _ i
                             (proj1 (Hin i) Hi))
              s) as [s' [Hrun [[Hs' [Em Ev]] Hk]]]; [repeat split; apply Hs|].
  exists s'. split; [exact Hrun|]. split; [assumption|]. split; [assumption|].
  destruct Hs as [_ [_ [_ Hr]]], Hs' as [_ [_ [_ Hr']]].
  apply load_ext.
  - pose proof (product_length zero add mul (matrix s) (vector s) rows cols). lia.
  - intros k. rewrite Hk, load_product.
    destruct ((0 <=? k) && (k <? rows)) eqn:E.
    + destruct (load_some (result s) k ltac:(lia)) as [x ->]. simpl.
      rewrite (fold_pick (fun i _ => dot zero add mul (matrix s) (vector s) i cols))
        by assumption.
      assert (member k order = true) as -> by (apply member_In, Hin; lia).
      reflexivity.
    + assert (load (result s) k = None) as ->; [apply load_none; lia|reflexivity].
Qed.
End Schedules.

(** ** Further facts about the kernels and the selection loop *)

(** X3: on a result that holds zeros the tiled kernel computes the
    product of the sequential kernel, entry by entry and bit by bit. *)
Lemma openmp_tiled_mvm_on_zeros {D} (zero : D) (add mul : D -> D -> D)
  (N T : Z) (s : mem D) :
  1 <= T -> (T | N) -> shaped N N s ->
  (forall i, 0 <= i < N -> load (result s) i = Some zero) ->
  exists s', openmp_tiled_mvm add mul N N T s = inr (tt, s') /\
             forall i, 0 <= i < N ->
               load (result s') i =
               load (product zero add mul (matrix s) (vector s) N N) i.
Proof.
  intros HT Hdiv Hs Hzero.
  destruct (openmp_tiled_mvm_accumulates zero add mul N T s HT Hdiv Hs)
    as [s' [Hrun [_ [_ Hacc]]]].
  exists s'. split; [exact Hrun|]. intros i Hi.
  rewrite (Hacc i zero Hi (Hzero i Hi)), load_product.
  destruct (Z.leb_spec 0 i), (Z.ltb_spec i N); simpl; try lia. reflexivity.
Qed.

(** ** More about the kernels *)

Section MoreKernels.
Context {D : Type}.
Variable zero : D.
Variables add mul : D -> D -> D.

(** X1: the sequential kernel overwrites.  Run on two states with the same
    matrix and vector it leaves the same result, the dot product of each
    row and the vector, whatever the result buffers held before. *)
Theorem sequential_mvm_ignores_old_result (rows cols : Z) (s1 s2 : mem D) :
  shaped rows cols s1 -> shaped rows cols s2 ->
  matrix s1 = matrix s2 -> vector s1 = vector s2 ->
  exists s1' s2',
    sequential_mvm zero add mul rows cols s1 = inr (tt, s1') /\
    sequential_mvm zero add mul rows cols s2 = inr (tt, s2') /\
    result s1' = result s2' /\
    forall i, 0 <= i < rows ->
      load (result s1') i =
      Some (dot zero add mul (matrix s1) (vector s1) i cols).
Proof.
  intros H1 H2 Em Ev.
  destruct (sequential_mvm_correct zero add mul rows cols s1 H1)
    as [s1' [R1 [_ [_ E1]]]].
  destruct (sequential_mvm_correct zero add mul rows cols s2 H2)
    as [s2' [R2 [_ [_ E2]]]].
  exists s1', s2'. split; [exact R1|]. split; [exact R2|]. split.
  - rewrite E1, E2, Em, Ev. reflexivity.
  - intros i Hi. rewrite E1, load_product.
    destruct (Z.leb_spec 0 i), (Z.ltb_spec i rows); simpl; try lia. reflexivity.
Qed.

Lemma mpi_mvm_alone (peers : list (list D)) (rows cols : Z) (s : mem D) :
  mpi_mvm zero add mul peers rows cols 0 1 s =
  sequential_mvm zero add mul rows cols s.
Proof.
  assert (part_start rows 1 0 = 0) as Es by (unfold part_start; lia).
  assert (part_end rows 1 0 = rows) as Ee by reflexivity.
  unfold mpi_mvm, mpi_mvm_local, sequential_mvm, bind. rewrite Es, Ee.
  destruct (for_ 0 rows 1 _ s) as [e|[[] s']]; reflexivity.
Qed.

Lemma mpi_tiled_mvm_alone (peers : list (list D)) (rows cols tile_size : Z)
  (s : mem D) :
  mpi_tiled_mvm add mul peers rows cols 0 1 tile_size s =
  openmp_tiled_mvm add mul rows cols tile_size s.
Proof.
  assert (part_start rows 1 0 = 0) as Es by (unfold part_start; lia).
  assert (part_end rows 1 0 = rows) as Ee by reflexivity.
  unfold mpi_tiled_mvm, mpi_tiled_mvm_local, openmp_tiled_mvm, bind.
  rewrite Es, Ee.
  destruct (for_ 0 rows tile_size _ s) as [e|[[] s']]; reflexivity.
Qed.

End MoreKernels.

(** X8: the chunk of a rank is [N / size] rows, and the last rank takes
    the remainder [N mod size] on top. *)
Theorem partition_sizes (N size r : Z) :
  0 <= N -> 1 <= size -> 0 <= r < size ->
  part_end N size r - part_start N size r =
  if r =? size - 1 then N / size + N mod size else N / size.
Proof.
  intros HN Hs Hr. unfold part_start, part_end.
  rewrite Z.quot_div_nonneg by lia.
  pose proof (Z.div_mod N size ltac:(lia)).
  destruct (Z.eqb_spec r (size - 1)); nia.
Qed.

Lemma partition_sizes_witness :
  part_end 10 3 2 - part_start 10 3 2 =
  if 2 =? 3 - 1 then 10 / 3 + 10 mod 3 else 10 / 3.
Proof. apply (partition_sizes 10 3 2); lia. Defined.

(** ** Tiles that do not divide the size *)

Lemma range_with_partial_tile (T : Z) (a : nat) (lo hi : Z) :
  1 <= T -> lo + Z.of_nat a * T < hi <= lo + Z.of_nat a * T + T ->
  range lo hi T = range lo (lo + Z.of_nat a * T) T ++ [lo + Z.of_nat a * T].
Proof.
  intros HT. revert lo. induction a as [|a IH]; intros lo H.
  - rewrite (range_cons lo hi T), (range_nil (lo + T) hi), (range_nil lo) by lia.
    simpl. do 2 f_equal. lia.
  - rewrite (range_cons lo hi T) by nia.
    rewrite (range_cons lo (lo + Z.of_nat (S a) * T) T) by nia.
    rewrite (IH (lo + T)) by lia.
    replace (lo + T + Z.of_nat a * T) with (lo + Z.of_nat (S a) * T) by lia.
    reflexivity.
Qed.

Lemma for_each_agree {S I} (l : list I) (b1 b2 : I -> M S unit) (s : S)
  (r : unit * S) :
  (forall i t r', b1 i t = inr r' -> b2 i t = inr r') ->
  for_each l b1 s = inr r -> for_each l b2 s = inr r.
Proof.
  intros H. revert s. induction l as [|i l IH]; intros s E; [exact E|].
  cbn [for_each] in *. unfold bind in *.
  destruct (b1 i s) as [e|[[] s1]] eqn:E1; [discriminate|].
  rewrite (H _ _ _ E1). now apply IH.
Qed.

Lemma for_agree {S} (lo hi step : Z) (b1 b2 : Z -> M S unit) (s : S)
  (r : unit * S) :
  (forall i t r', b1 i t = inr r' -> b2 i t = inr r') ->
  for_ lo hi step b1 s = inr r -> for_ lo hi step b2 s = inr r.
Proof.
  intros H. unfold for_. destruct ((lo <? hi) && (step <=? 0)); [easy|].
  now apply for_each_agree.
Qed.

Section Overrun.
Context {D : Type}.
Variable zero : D.
Variables add mul : D -> D -> D.

Lemma accumulate_reading_agrees (first second third : operand) (i j : Z)
  (s : mem D) (r : unit * mem D) :
  NoDup [first; second; third] ->
  accumulate add mul i j s = inr r ->
  accumulate_reading add mul first second third i j s = inr r.
Proof.
  intros Hnd E.
  unfold accumulate, bind, get_matrix, get_vector, get_result, lift, bind,
    raise, ret in E.
  destruct (load (matrix s) i) as [row|] eqn:Erow; [|discriminate].
  destruct (load row j) as [a|] eqn:Ea; [|discriminate].
  destruct (load (vector s) j) as [b|] eqn:Eb; [|discriminate].
  destruct (load (result s) i) as [x|] eqn:Ex; [|discriminate].
  inversion Hnd as [|? ? H1 Hnd']; subst.
  inversion Hnd' as [|? ? H2 _]; subst.
  destruct first, second, third;
    try (exfalso; apply H1; simpl; auto; fail);
    try (exfalso; apply H2; simpl; auto; fail);
    unfold accumulate_reading, get_operand, bind, get_matrix, get_vector,
      get_result, lift, bind, raise, ret;
    repeat (rewrite ?Erow, ?Ea, ?Eb, ?Ex; cbn -[set_result load]); exact E.
Qed.

(** In a square of size [N] that the tile edge [T] does not divide, the
    nest runs without a fault up to the cell of row 0 in column [N], and
    stops there if its statement does. *)
Lemma tiled_nest_reaches_column_N (body : Z -> Z -> M (mem D) unit)
  (N T : Z) (s : mem D) :
  (forall i j t r, accumulate add mul i j t = inr r -> body i j t = inr r) ->
  1 <= T -> 0 < N -> ~ (T | N) -> shaped N N s ->
  exists s2,
    shaped N N s2 /\
    forall e, body 0 N s2 = inl e -> tiled_nest body 0 N N T s = inl e.
Proof.
  intros Hok HT HN Hnd Hs.
  assert (holds N N (matrix s) (vector s) s) as Hh by (repeat split; apply Hs).
  pose proof (Z.div_mod N T ltac:(lia)) as Hdm.
  pose proof (Z.mod_pos_bound N T ltac:(lia)) as Hmb.
  assert (N mod T <> 0) as Hrem.
  { intros E. apply Hnd. exists (N / T). lia. }
  assert (0 <= N / T) as Hq by (apply Z.div_pos; lia).
  set (a := Z.to_nat (N / T)).
  set (j0 := Z.of_nat a * T).
  assert (j0 < N < j0 + T) as Hj0 by (unfold j0, a; nia).
  (* the tiles of the first row that lie inside *)
  destruct (acts_for_each N N (matrix s) (vector s) (range 0 j0 T)
              (fun j => for_ 0 (0 + T) 1 (fun ii =>
                 for_ j (j + T) 1 (fun jj => accumulate add mul ii jj)))
              (fun j k r => if member k (range 0 (0 + T) 1)
                            then row_sum zero add mul (matrix s) (vector s) k
                                   (range j (j + T) 1) r
                            else r)) with (s := s)
    as [s1 [Hrun1 [Hh1 _]]]; [|assumption|].
  { intros j Hj. unfold j0 in Hj. rewrite range_steps_0 in Hj by assumption.
    apply in_map_iff in Hj. destruct Hj as [q [Ej Hlt]]. apply in_seq in Hlt.
    apply tile_acts; nia. }
  (* the part of the tile that sticks out that lies inside *)
  destruct (acts_for_each N N (matrix s) (vector s) (range j0 N 1)
              (fun jj => accumulate add mul 0 jj)
              (fun jj k r => if k =? 0
                             then add r (mul (entry zero (matrix s) 0 jj)
                                             (component zero (vector s) jj))
                             else r)) with (s := s1)
    as [s2 [Hrun2 [Hh2 _]]]; [|assumption|].
  { intros jj Hjj. apply in_range_unit in Hjj.
    apply (acts_accumulate zero); unfold j0 in *; lia. }
  exists s2. split; [apply Hh2|]. intros e He.
  unfold tiled_nest. rewrite for_unfold by assumption.
  rewrite (range_cons 0 N T) by lia. cbn [for_each]. unfold bind at 1.
  rewrite for_unfold by assumption.
  assert (range 0 N T = range 0 j0 T ++ [j0]) as ->.
  { rewrite (range_with_partial_tile T a 0 N HT) by (fold j0; lia).
    reflexivity. }
  rewrite for_each_app.
  rewrite (for_each_agree _ _
             (fun j => for_ 0 (0 + T) 1 (fun ii =>
                for_ j (j + T) 1 (fun jj => body ii jj))) _ _
             (fun j t r => for_agree _ _ _ _ _ t r
                (fun ii t' r' => for_agree _ _ _ _ _ t' r' (Hok ii)))
             Hrun1).
  cbn [for_each]. unfold bind at 1.
  rewrite for_unfold by lia. rewrite (range_cons 0 (0 + T) 1) by lia.
  cbn [for_each]. unfold bind at 1.
  rewrite for_unfold by lia.
  rewrite (range_unit_app j0 N (j0 + T)) by lia.
  rewrite (range_cons N (j0 + T) 1) by lia.
  rewrite for_each_app.
  rewrite (for_each_agree _ _ (fun jj => body 0 jj) _ _ (Hok 0) Hrun2).
  cbn [for_each]. unfold bind at 1. rewrite He. reflexivity.
Qed.

(** X4: without clipping, a tile edge that does not divide [N] takes the
    first row past its end.  In whatever order the operands of
    [result[ii] += matrix[ii][jj] * vector[jj]] are read, the nest in loop
    order stops on the first cell of column [N], at [matrix[0][N]] or at
    [vector[N]]; read as written, the statement is that of
    [openmp_tiled_mvm]. *)
Theorem openmp_tiled_mvm_overruns (first second third : operand) (N T : Z)
  (s : mem D) :
  NoDup [first; second; third] ->
  1 <= T -> 0 < N -> ~ (T | N) -> shaped N N s ->
  (exists b,
     openmp_tiled_mvm_reading add mul first second third N N T s =
       inl (OutOfBounds b N) /\
     (b = MatrixRow 0 \/ b = Vector)) /\
  openmp_tiled_mvm_reading add mul OfMatrix OfVector OfResult N N T s =
  openmp_tiled_mvm add mul N N T s.
Proof.
  intros Hnd HT HN Hdiv Hs. split; [|reflexivity].
  inversion Hnd as [|? ? H1 Hnd']; subst.
  inversion Hnd' as [|? ? H2 _]; subst.
  destruct (tiled_nest_reaches_column_N
              (accumulate_reading add mul first second third) N T s
              (fun i j t r => accumulate_reading_agrees first second third
                                i j t r Hnd) HT HN Hdiv Hs)
    as [s2 [Hs2 Hstop]].
  destruct (load_some (matrix s2) 0) as [row Hrow];
    [destruct Hs2 as [Hm _]; lia|].
  pose proof (shaped_row N N s2 0 row Hs2 Hrow) as Hlen.
  assert (load row N = None) as Hnone by (apply load_none; lia).
  assert (load (vector s2) N = None) as Hvec
    by (apply load_none; destruct Hs2 as [_ [_ [Hv _]]]; lia).
  destruct (load_some (result s2) 0) as [x Hx];
    [destruct Hs2 as [_ [_ [_ Hr]]]; lia|].
  unfold openmp_tiled_mvm_reading.
  destruct first, second, third;
    try (exfalso; apply H1; simpl; auto; fail);
    try (exfalso; apply H2; simpl; auto; fail);
    eexists; (split; [apply Hstop;
      unfold accumulate_reading, get_operand, bind, get_matrix, get_vector,
        get_result, lift, bind, raise, ret;
      repeat (rewrite ?Hrow, ?Hx, ?Hvec, ?Hnone; cbn -[set_result load]);
      reflexivity|]); auto.
Qed.
End Overrun.

Lemma openmp_tiled_mvm_overruns_witness :
  (exists b,
     openmp_tiled_mvm_reading Z.add Z.mul OfResult OfVector OfMatrix 72 72 16
       (constant_mem 72 1 2 0) = inl (OutOfBounds b 72) /\
     (b = MatrixRow 0 \/ b = Vector)) /\
  openmp_tiled_mvm_reading Z.add Z.mul OfMatrix OfVector OfResult 72 72 16
    (constant_mem 72 1 2 0) =
  openmp_tiled_mvm Z.add Z.mul 72 72 16 (constant_mem 72 1 2 0).
Proof.
  apply (openmp_tiled_mvm_overruns 0 Z.add Z.mul OfResult OfVector OfMatrix
           72 16).
  - repeat constructor; simpl; intuition discriminate.
  - lia.
  - lia.
  - intros [q Hq]. lia.
  - apply (shaped_constant_mem 72).
Defined.

(** ** The MPI jobs for any number of processes *)

Section Remainder.
Context {D : Type}.
Variable zero : D.
Variables add mul : D -> D -> D.

(** X6: [mpi_mvm] for any number of processes.  The all-gather moves
    [size] blocks of [N / size] entries, so every rank ends with the
    product in the entries below [(N / size) * size]; the remainder rows
    are computed by the last rank only and keep their old contents on every
    other rank. *)
Theorem mpi_mvm_job_with_remainder (N : Z) (m : list (list D)) (v : list D)
  (procs : list (mem D)) :
  1 <= Z.of_nat (length procs) ->
  Forall (holds N N m v) procs ->
  exists finals,
    mpi_mvm_job zero add mul N N procs = inr finals /\
    length finals = length procs /\
    forall r p p', load procs r = Some p -> load finals r = Some p' ->
      matrix p' = m /\ vector p' = v /\
      forall k, 0 <= k < N ->
        load (result p') k =
        if (k <? (N ÷ Z.of_nat (length procs)) * Z.of_nat (length procs))
           || (r =? Z.of_nat (length procs) - 1)
        then Some (dot zero add mul m v k N)
        else load (result p) k.
Proof.
  set (size := Z.of_nat (length procs)). intros Hsize Hprocs.
  assert (forall r p, load procs r = Some p -> holds N N m v p) as Hat.
  { intros r p Hr. rewrite Forall_forall in Hprocs. apply Hprocs.
    unfold load in Hr. destruct (r <? 0); [discriminate|].
    eapply nth_error_In; eauto. }
  assert (0 <= N) as HN.
  { destruct (load_some procs 0 ltac:(lia)) as [p Hp].
    destruct (Hat 0 p Hp) as [[H _] _]. lia. }
  set (c := N ÷ size).
  destruct (quot_chunk N size HN Hsize) as [Hc [Hfit _]]. fold c in Hc, Hfit.
  set (local := fun (r k : Z) (x : D) =>
        if member k (range (part_start N size r) (part_end N size r) 1)
        then dot zero add mul m v k N else x).
  assert (forall q k, 0 <= q < size -> 0 <= k < c * size -> k / c = q ->
            member k (range (part_start N size q) (part_end N size q) 1) = true)
    as Hown.
  { intros q k Hq Hk Hkq. rewrite member_range_unit.
    assert (0 < c) by nia.
    pose proof (Z.div_mod k c ltac:(lia)). pose proof (Z.mod_pos_bound k c ltac:(lia)).
    unfold part_start, part_end. fold c.
    destruct (Z.eqb_spec q (size - 1)).
    - destruct (Z.leb_spec (c * q) k), (Z.ltb_spec k N); simpl; auto; nia.
    - destruct (Z.leb_spec (c * q) k), (Z.ltb_spec k (c * (q + 1))); simpl; auto; nia. }
  destruct (on_all_ranks_rel procs
              (fun rank size => mpi_mvm_local zero add mul N N rank size)
              (fun r p s' => holds N N m v s' /\
                 forall k, load (result s') k =
                           option_map (local r k) (load (result p) k)))
    as [entered [Hrun1 [Hlen1 Hent]]].
  { intros r p Hr. pose proof (load_range _ _ _ Hr).
    destruct (mpi_mvm_local_acts zero add mul N N m v r size Hsize ltac:(lia) HN
                p (Hat r p Hr)) as [s' [Hk [Hs' Hres]]].
    exists s'. auto. }
  unfold mpi_mvm_job. fold size in Hrun1. rewrite Hrun1.
  set (peers := map result entered).
  assert (Z.of_nat (length peers) = size) as Hpl.
  { unfold peers. rewrite length_map, Hlen1. reflexivity. }
  assert (forall q k, 0 <= q < size -> 0 <= k < c * size -> k / c = q ->
            entry zero peers q k = dot zero add mul m v k N) as Hpeer.
  { intros q k Hq Hk Hkq.
    destruct (load_some procs q ltac:(lia)) as [p Hp].
    destruct (Hent q p Hp) as [e [He [Hes Hek]]].
    assert (load peers q = Some (result e)) as Hpq.
    { unfold peers, load in *. destruct (q <? 0); [discriminate|].
      rewrite nth_error_map, He. reflexivity. }
    destruct (Hat q p Hp) as [[_ [_ [_ Hrp]]] _].
    destruct (load_some (result p) k ltac:(lia)) as [x Hx].
    unfold entry. rewrite Hpq, Hek, Hx. simpl. unfold local.
    now rewrite (Hown q k Hq Hk Hkq). }
  assert (Forall (fun p => Z.of_nat (length p) = N) peers) as Hpeers.
  { apply Forall_forall. intros b Hb. unfold peers in Hb.
    apply in_map_iff in Hb. destruct Hb as [e [<- He]].
    apply In_nth_error in He. destruct He as [n He].
    assert (n < length procs)%nat as Hn.
    { rewrite <- Hlen1. apply nth_error_Some. congruence. }
    destruct (load_some procs (Z.of_nat n) ltac:(lia)) as [p Hp].
    destruct (Hent _ p Hp) as [e' [He' [[[_ [_ [_ Hr]]] _] _]]].
    unfold load in He'. destruct (Z.ltb_spec (Z.of_nat n) 0); [lia|].
    rewrite Nat2Z.id in He'. congruence. }
  destruct (on_all_ranks_rel procs
              (fun rank size => mpi_mvm zero add mul peers N N rank size)
              (fun r p s' => holds N N m v s' /\
                 forall k, 0 <= k < N ->
                   load (result s') k =
                   if (k <? c * size) || (r =? size - 1)
                   then Some (dot zero add mul m v k N)
                   else load (result p) k))
    as [finals [Hrun2 [Hlen2 Hfin]]].
  { intros r p Hr. pose proof (load_range _ _ _ Hr) as Hrr.
    fold size. unfold mpi_mvm.
    destruct (acts_seq N N m v _ _ _ _
                (mpi_mvm_local_acts zero add mul N N m v r size Hsize ltac:(lia) HN)
                (allgather_acts zero N N m v peers c r size Hc ltac:(lia)
                                Hfit Hpl Hpeers)
                p (Hat r p Hr)) as [s' [Hk [Hs' Hres]]].
    exists s'. split; [exact Hk|]. split; [assumption|].
    intros k Hk'. rewrite Hres.
    destruct (Hat r p Hr) as [[_ [_ [_ Hrp]]] _].
    destruct (load_some (result p) k ltac:(lia)) as [x Hx]. rewrite Hx. simpl.
    replace (size * c) with (c * size) by lia.
    destruct (Z.leb_spec 0 k); [|lia]. simpl.
    destruct (Z.ltb_spec k (c * size)) as [Hlow|Hhigh]; simpl.
    - assert (0 < c) by nia.
      pose proof (Z.div_mod k c ltac:(lia)).
      pose proof (Z.mod_pos_bound k c ltac:(lia)).
      assert (0 <= k / c < size) by nia.
      destruct (Z.eqb_spec (k / c) r) as [Eq|Hne]; simpl.
      + unfold local. rewrite (Hown r k) by lia. reflexivity.
      + f_equal. apply Hpeer; lia.
    - unfold local. rewrite member_range_unit. unfold part_start, part_end.
      fold c. destruct (Z.eqb_spec r (size - 1)).
      + destruct (Z.leb_spec (c * r) k), (Z.ltb_spec k N); simpl; auto; nia.
      + destruct (Z.leb_spec (c * r) k), (Z.ltb_spec k (c * (r + 1)));
          simpl; auto; nia. }
  exists finals. split; [exact Hrun2|]. split; [assumption|].
  intros r p p' Hp Hp'. destruct (Hfin r p Hp) as [s' [Hs' [[_ [Em Ev]] HP]]].
  assert (s' = p') as -> by congruence. auto.
Qed.
End Remainder.

Section TiledJob.
Context {D : Type}.
Variable zero : D.
Variables add mul : D -> D -> D.

(** X7: [mpi_tiled_mvm] on all ranks, for a tile edge that divides [N] and
    the chunk [N / size].  No rank stores a fresh value: entry [k] of every
    result ends as the running sum of row [k] on top of what the result of
    the rank that owns row [k] held; rows past the last whole chunk are
    summed on the last rank only. *)
Theorem mpi_tiled_mvm_job_accumulates (N T : Z) (m : list (list D)) (v : list D)
  (procs : list (mem D)) :
  1 <= T -> 1 <= Z.of_nat (length procs) ->
  (T | N) -> (T | N ÷ Z.of_nat (length procs)) ->
  Forall (holds N N m v) procs ->
  exists finals,
    mpi_tiled_mvm_job add mul N N T procs = inr finals /\
    length finals = length procs /\
    forall r p p', load procs r = Some p -> load finals r = Some p' ->
      matrix p' = m /\ vector p' = v /\
      forall k, 0 <= k < N ->
        load (result p') k =
        if k <? (N ÷ Z.of_nat (length procs)) * Z.of_nat (length procs)
        then match load procs (k / (N ÷ Z.of_nat (length procs))) with
             | Some owner =>
                 option_map (row_sum zero add mul m v k (range 0 N 1))
                            (load (result owner) k)
             | None => None
             end
        else if r =? Z.of_nat (length procs) - 1
             then option_map (row_sum zero add mul m v k (range 0 N 1))
                             (load (result p) k)
             else load (result p) k.
Proof.
  set (size := Z.of_nat (length procs)). intros HT Hsize HdN Hdc Hprocs.
  assert (forall r p, load procs r = Some p -> holds N N m v p) as Hat.
  { intros r p Hr. rewrite Forall_forall in Hprocs. apply Hprocs.
    unfold load in Hr. destruct (r <? 0); [discriminate|].
    eapply nth_error_In; eauto. }
  assert (0 <= N) as HN.
  { destruct (load_some procs 0 ltac:(lia)) as [p Hp].
    destruct (Hat 0 p Hp) as [[H _] _]. lia. }
  set (c := N ÷ size) in *.
  destruct (quot_chunk N size HN Hsize) as [Hc [Hfit _]]. fold c in Hc, Hfit.
  set (local := fun (r k : Z) (x : D) =>
        if member k (range (part_start N size r) (part_end N size r) 1)
        then row_sum zero add mul m v k (range 0 N 1) x else x).
  assert (forall q k, 0 <= q < size -> 0 <= k < c * size -> k / c = q ->
            member k (range (part_start N size q) (part_end N size q) 1) = true)
    as Hown.
  { intros q k Hq Hk Hkq. rewrite member_range_unit.
    assert (0 < c) by nia.
    pose proof (Z.div_mod k c ltac:(lia)). pose proof (Z.mod_pos_bound k c ltac:(lia)).
    unfold part_start, part_end. fold c.
    destruct (Z.eqb_spec q (size - 1)).
    - destruct (Z.leb_spec (c * q) k), (Z.ltb_spec k N); simpl; auto; nia.
    - destruct (Z.leb_spec (c * q) k), (Z.ltb_spec k (c * (q + 1))); simpl; auto; nia. }
  assert (forall r, 0 <= r < size ->
            acts N N m v (mpi_tiled_mvm_local add mul N N r size T) (local r))
    as Hlocal.
  { intros r Hr.
    apply (mpi_tiled_mvm_local_acts zero add mul N N m v r size T); assumption. }
  destruct (on_all_ranks_rel procs
              (fun rank size => mpi_tiled_mvm_local add mul N N rank size T)
              (fun r p s' => holds N N m v s' /\
                 forall k, load (result s') k =
                           option_map (local r k) (load (result p) k)))
    as [entered [Hrun1 [Hlen1 Hent]]].
  { intros r p Hr. pose proof (load_range _ _ _ Hr).
    destruct (Hlocal r ltac:(lia) p (Hat r p Hr)) as [s' [Hk [Hs' Hres]]].
    exists s'. auto. }
  unfold mpi_tiled_mvm_job. fold size in Hrun1. rewrite Hrun1.
  set (peers := map result entered).
  assert (Z.of_nat (length peers) = size) as Hpl.
  { unfold peers. rewrite length_map, Hlen1. reflexivity. }
  assert (forall q k pq x, 0 <= q < size -> 0 <= k < c * size -> k / c = q ->
            load procs q = Some pq -> load (result pq) k = Some x ->
            entry zero peers q k = row_sum zero add mul m v k (range 0 N 1) x)
    as Hpeer.
  { intros q k pq x Hq Hk Hkq Hp Hx.
    destruct (Hent q pq Hp) as [e [He [Hes Hek]]].
    assert (load peers q = Some (result e)) as Hpq.
    { unfold peers, load in *. destruct (q <? 0); [discriminate|].
      rewrite nth_error_map, He. reflexivity. }
    unfold entry. rewrite Hpq, Hek, Hx. simpl. unfold local.
    now rewrite (Hown q k Hq Hk Hkq). }
  assert (Forall (fun p => Z.of_nat (length p) = N) peers) as Hpeers.
  { apply Forall_forall. intros b Hb. unfold peers in Hb.
    apply in_map_iff in Hb. destruct Hb as [e [<- He]].
    apply In_nth_error in He. destruct He as [n He].
    assert (n < length procs)%nat as Hn.
    { rewrite <- Hlen1. apply nth_error_Some. congruence. }
    destruct (load_some procs (Z.of_nat n) ltac:(lia)) as [p Hp].
    destruct (Hent _ p Hp) as [e' [He' [[[_ [_ [_ Hr]]] _] _]]].
    unfold load in He'. destruct (Z.ltb_spec (Z.of_nat n) 0); [lia|].
    rewrite Nat2Z.id in He'. congruence. }
  destruct (on_all_ranks_rel procs
              (fun rank size => mpi_tiled_mvm add mul peers N N rank size T)
              (fun r p s' => holds N N m v s' /\
                 forall k, 0 <= k < N ->
                   load (result s') k =
                   if k <? c * size
                   then match load procs (k / c) with
                        | Some owner =>
                            option_map (row_sum zero add mul m v k (range 0 N 1))
                                       (load (result owner) k)
                        | None => None
                        end
                   else if r =? size - 1
                        then option_map (row_sum zero add mul m v k (range 0 N 1))
                                        (load (result p) k)
                        else load (result p) k))
    as [finals [Hrun2 [Hlen2 Hfin]]].
  { intros r p Hr. pose proof (load_range _ _ _ Hr) as Hrr.
    fold size. unfold mpi_tiled_mvm.
    destruct (acts_seq N N m v _ _ _ _
                (Hlocal r ltac:(lia))
                (allgather_acts zero N N m v peers c r size Hc ltac:(lia)
                                Hfit Hpl Hpeers)
                p (Hat r p Hr)) as [s' [Hk [Hs' Hres]]].
    exists s'. split; [exact Hk|]. split; [assumption|].
    intros k Hk'. rewrite Hres.
    destruct (Hat r p Hr) as [[_ [_ [_ Hrp]]] _].
    destruct (load_some (result p) k ltac:(lia)) as [x Hx]. rewrite Hx. simpl.
    replace (size * c) with (c * size) by lia.
    destruct (Z.leb_spec 0 k); [|lia]. simpl.
    destruct (Z.ltb_spec k (c * size)) as [Hlow|Hhigh]; simpl.
    - assert (0 < c) by nia.
      pose proof (Z.div_mod k c ltac:(lia)).
      pose proof (Z.mod_pos_bound k c ltac:(lia)).
      assert (0 <= k / c < size) by nia.
      destruct (load_some procs (k / c) ltac:(lia)) as [pq Hpq]. rewrite Hpq.
      destruct (Hat _ pq Hpq) as [[_ [_ [_ Hrq]]] _].
      destruct (load_some (result pq) k ltac:(lia)) as [y Hy]. rewrite Hy. simpl.
      destruct (Z.eqb_spec (k / c) r) as [Eq|Hne]; simpl.
      + unfold local. rewrite (Hown r k) by lia.
        rewrite Eq in Hpq. assert (pq = p) as -> by congruence.
        assert (y = x) as -> by congruence. reflexivity.
      + f_equal. apply (Hpeer (k / c) k pq y); auto; lia.
    - unfold local. rewrite member_range_unit. unfold part_start, part_end.
      fold c. destruct (Z.eqb_spec r (size - 1)).
      + destruct (Z.leb_spec (c * r) k), (Z.ltb_spec k N); simpl; auto; nia.
      + destruct (Z.leb_spec (c * r) k), (Z.ltb_spec k (c * (r + 1)));
          simpl; auto; nia. }
  exists finals. split; [exact Hrun2|]. split; [assumption|].
  intros r p p' Hp Hp'. destruct (Hfin r p Hp) as [s' [Hs' [[_ [Em Ev]] HP]]].
  assert (s' = p') as -> by congruence. auto.
Qed.
End TiledJob.

(** ** The random fill, call by call *)

Lemma app_same_length {A} (l1 l2 r1 r2 : list A) :
  length l1 = length l2 -> l1 ++ r1 = l2 ++ r2 -> l1 = l2 /\ r1 = r2.
Proof.
  revert l2. induction l1 as [|a l1 IH]; intros [|b l2] Hlen E;
    simpl in *; try discriminate.
  - auto.
  - inversion E; subst. destruct (IH l2 ltac:(lia) H1) as [-> ->]. auto.
Qed.

Lemma range_unit_split (lo hi i : Z) (done rest : list Z) :
  range lo hi 1 = done ++ i :: rest ->
  i = lo + Z.of_nat (length done) /\ done = range lo i 1.
Proof.
  intros E.
  assert (lo <= i < hi) as Hi.
  { apply in_range_unit. rewrite E. apply in_elt. }
  rewrite (range_unit_app lo i hi) in E by lia.
  rewrite (range_cons i hi 1) in E by lia.
  assert (length (range lo i 1) = Z.to_nat (i - lo)) as Hlen
    by (rewrite range_unit, length_map, length_seq; reflexivity).
  destruct (Nat.lt_trichotomy (length (range lo i 1)) (length done))
    as [Hlt|[Heq|Hgt]].
  - exfalso.
    assert (nth_error (range lo i 1 ++ i :: range (i + 1) hi 1)
                      (length (range lo i 1)) = Some i) as E1
      by (rewrite nth_error_app2, Nat.sub_diag by lia; reflexivity).
    rewrite E, nth_error_app1 in E1 by lia.
    apply nth_error_In in E1.
    pose proof (NoDup_range_unit lo hi) as Hnd.
    rewrite (range_unit_app lo i hi), (range_cons i hi 1) in Hnd by lia.
    rewrite E in Hnd. apply NoDup_remove_2 in Hnd. apply Hnd.
    apply in_or_app. now left.
  - destruct (app_same_length _ _ _ _ Heq E) as [Ed _].
    split; [lia|now symmetry].
  - exfalso.
    assert (nth_error (done ++ i :: rest) (length done) = Some i) as E1
      by (rewrite nth_error_app2, Nat.sub_diag by lia; reflexivity).
    rewrite <- E, nth_error_app1 in E1 by lia.
    apply nth_error_In, in_range_unit in E1. lia.
Qed.

Lemma to_nat_index (n k : nat) (cols : Z) :
  0 <= cols ->
  Z.to_nat (Z.of_nat n * cols + Z.of_nat k) = (n * Z.to_nat cols + k)%nat.
Proof.
  intros H. rewrite Z2Nat.inj_add, Z2Nat.inj_mul, !Nat2Z.id by nia. reflexivity.
Qed.

Section FillInOrder.
Variable RAND_MAX : Z.
Variable rand_step : Z -> Z * Z.
Variables rows cols : Z.

Lemma fill_cell_step (t : proc) (i j : Z) :
  shaped rows cols (bufs t) -> 0 <= i < rows -> 0 <= j < cols ->
  exists t',
    (r <- rand rand_step ;;
     on_bufs (set_matrix i j (unit_random RAND_MAX r))) t = inr (tt, t') /\
    shaped rows cols (bufs t') /\
    seed t' = snd (rand_step (seed t)) /\
    cell (bufs t') i j =
      Some (unit_random RAND_MAX (fst (rand_step (seed t)))) /\
    (forall i' j', (i', j') <> (i, j) ->
                   cell (bufs t') i' j' = cell (bufs t) i' j') /\
    vector (bufs t') = vector (bufs t) /\
    result (bufs t') = result (bufs t) /\
    same_world t t'.
Proof.
  intros Hs Hi Hj. unfold bind, rand, on_bufs.
  destruct (rand_step (seed t)) as [r sd] eqn:Er. cbn [fst snd].
  destruct (set_matrix_spec rows cols i j (unit_random RAND_MAX r) (bufs t)
              Hs Hi Hj) as [b' [Hset [Hs' [Hv' [Hr' Hcell]]]]].
  destruct t as [b sd0 h c n inp o rep]. proc_simpl.
  rewrite Hset. eexists. split; [reflexivity|]. proc_simpl.
  split; [assumption|]. split; [reflexivity|]. split.
  { rewrite Hcell, !Z.eqb_refl. reflexivity. }
  split.
  { intros i' j' Hne. rewrite Hcell.
    destruct (Z.eqb_spec i' i), (Z.eqb_spec j' j); simpl; congruence. }
  split; [assumption|]. split; [assumption|]. repeat split.
Qed.

Lemma fill_component_step (t : proc) (j : Z) :
  shaped rows cols (bufs t) -> 0 <= j < cols ->
  exists t',
    (r <- rand rand_step ;;
     on_bufs (set_vector j (unit_random RAND_MAX r))) t = inr (tt, t') /\
    shaped rows cols (bufs t') /\
    seed t' = snd (rand_step (seed t)) /\
    load (vector (bufs t')) j =
      Some (unit_random RAND_MAX (fst (rand_step (seed t)))) /\
    (forall j', j' <> j ->
                load (vector (bufs t')) j' = load (vector (bufs t)) j') /\
    matrix (bufs t') = matrix (bufs t) /\
    result (bufs t') = result (bufs t) /\
    same_world t t'.
Proof.
  intros Hs Hj. unfold bind, rand, on_bufs.
  destruct (rand_step (seed t)) as [r sd] eqn:Er. cbn [fst snd].
  destruct (set_vector_spec rows cols j (unit_random RAND_MAX r) (bufs t)
              Hs Hj) as [b' [Hset [Hs' [Hm' [Hr' Hload]]]]].
  destruct t as [b sd0 h c n inp o rep]. proc_simpl.
  rewrite Hset. eexists. split; [reflexivity|]. proc_simpl.
  split; [assumption|]. split; [reflexivity|]. split.
  { rewrite Hload, Z.eqb_refl. reflexivity. }
  split.
  { intros j' Hne. rewrite Hload. destruct (Z.eqb_spec j' j); congruence. }
  split; [assumption|]. split; [assumption|]. repeat split.
Qed.

(** X9: [fill_random] calls [rand] once per entry, the matrix first and
    row by row, then the vector: the entries are the values of the calls
    in that order, the generator ends [rows * cols + cols] calls further, and
    nothing but the matrix, the vector and the generator changes. *)
Theorem fill_random_in_call_order (st : proc) :
  shaped rows cols (bufs st) ->
  exists st',
    fill_random RAND_MAX rand_step rows cols st = inr (tt, st') /\
    seed st' = rand_state rand_step (Z.to_nat (rows * cols + cols)) (seed st) /\
    (forall i j, 0 <= i < rows -> 0 <= j < cols ->
       cell (bufs st') i j =
       Some (unit_random RAND_MAX
               (rand_output rand_step (Z.to_nat (i * cols + j)) (seed st)))) /\
    (forall j, 0 <= j < cols ->
       load (vector (bufs st')) j =
       Some (unit_random RAND_MAX
               (rand_output rand_step (Z.to_nat (rows * cols + j)) (seed st)))) /\
    result (bufs st') = result (bufs st) /\
    same_world st st'.
Proof.
  intros Hs.
  assert (0 <= rows /\ 0 <= cols) as [Hrows Hcols]
    by (destruct Hs as [? [_ [? _]]]; lia).
  set (C := Z.to_nat cols).
  set (value := fun n : nat =>
                  unit_random RAND_MAX (rand_output rand_step n (seed st))).
  unfold fill_random, bind at 1.
  rewrite for_unfold by lia.
  destruct (for_each_invariant
              (fun done t =>
                 shaped rows cols (bufs t) /\
                 result (bufs t) = result (bufs st) /\ same_world st t /\
                 seed t = rand_state rand_step (length done * C) (seed st) /\
                 forall i j, 0 <= i < Z.of_nat (length done) -> 0 <= j < cols ->
                   cell (bufs t) i j = Some (value (Z.to_nat (i * cols + j))))
              (fun i => for_ 0 cols 1 (fun j =>
                 r <- rand rand_step ;;
                 on_bufs (set_matrix i j (unit_random RAND_MAX r))))
              (range 0 rows 1) st)
    as [st1 [Hrun1 [Hs1 [Hr1 [Hw1 [Hseed1 Hcells1]]]]]].
  { split; [assumption|]. split; [reflexivity|]. split; [apply same_world_refl|].
    split; [reflexivity|]. simpl. intros; lia. }
  { intros done i rest t Hsplit [Hst [Hrt [Hwt [Hseed Hcells]]]].
    destruct (range_unit_split _ _ _ _ _ Hsplit) as [Ei _].
    assert (In i (range 0 rows 1)) as Hi by (rewrite Hsplit; apply in_elt).
    apply in_range_unit in Hi.
    set (n := length done) in *.
    rewrite for_unfold by lia.
    destruct (for_each_invariant
                (fun donej u =>
                   shaped rows cols (bufs u) /\
                   result (bufs u) = result (bufs st) /\ same_world st u /\
                   seed u = rand_state rand_step (n * C + length donej) (seed st) /\
                   (forall i' j, 0 <= i' < Z.of_nat n -> 0 <= j < cols ->
                      cell (bufs u) i' j = Some (value (Z.to_nat (i' * cols + j)))) /\
                   (forall j, 0 <= j < Z.of_nat (length donej) ->
                      cell (bufs u) i j = Some (value (Z.to_nat (i * cols + j)))))
                (fun j => r <- rand rand_step ;;
                          on_bufs (set_matrix i j (unit_random RAND_MAX r)))
                (range 0 cols 1) t)
      as [t' [Hrun [Hst' [Hrt' [Hwt' [Hseed' [Hold Hnew]]]]]]].
    { split; [assumption|]. split; [assumption|]. split; [assumption|].
      split; [now rewrite Nat.add_0_r|]. split; [assumption|].
      simpl. intros; lia. }
    { intros donej j restj u Hsplitj [Hsu [Hru [Hwu [Hseedu [Holdu Hnewu]]]]].
      destruct (range_unit_split _ _ _ _ _ Hsplitj) as [Ej _].
      assert (In j (range 0 cols 1)) as Hj by (rewrite Hsplitj; apply in_elt).
      apply in_range_unit in Hj.
      destruct (fill_cell_step u i j Hsu ltac:(lia) Hj)
        as [u' [Hrunu [Hsu' [Hsd [Hij [Hother [_ [Hres Hwu']]]]]]]].
      exists u'. split; [exact Hrunu|].
      split; [assumption|]. split; [congruence|].
      split; [eapply same_world_trans; eauto|].
      rewrite length_app. cbn [length].
      split.
      { rewrite Hsd, Hseedu.
        replace (n * C + (length donej + 1))%nat
          with (S (n * C + length donej)) by lia. reflexivity. }
      split.
      { intros i' j' Hi' Hj'. rewrite Hother; [now apply Holdu|].
        intros E. inversion E. lia. }
      intros j' Hj'. destruct (Z.eq_dec j' j) as [->|Hne].
      - rewrite Hij, Hseedu. unfold value, rand_output. do 4 f_equal.
        rewrite Ei, Ej. cbn [Z.add]. unfold n, C.
        rewrite to_nat_index by assumption. reflexivity.
      - rewrite Hother; [apply Hnewu; lia|]. intros E. inversion E. contradiction. }
    exists t'. split; [exact Hrun|].
    assert (length (range 0 cols 1) = C) as HlenC
      by (rewrite range_unit, length_map, length_seq; unfold C; f_equal; lia).
    rewrite HlenC in *. rewrite length_app. cbn [length]. fold n.
    split; [assumption|]. split; [assumption|]. split; [assumption|].
    split.
    { rewrite Hseed'. f_equal. lia. }
    intros i' j Hi' Hj. destruct (Z.eq_dec i' i) as [->|Hne].
    - apply Hnew. unfold C. lia.
    - apply Hold; lia. }
  rewrite Hrun1.
  assert (length (range 0 rows 1) = Z.to_nat rows) as HlenR
    by (rewrite range_unit, length_map, length_seq; f_equal; lia).
  rewrite HlenR in *.
  rewrite for_unfold by lia.
  destruct (for_each_invariant
              (fun done t =>
                 shaped rows cols (bufs t) /\
                 result (bufs t) = result (bufs st) /\ same_world st t /\
                 seed t = rand_state rand_step
                            (Z.to_nat rows * C + length done) (seed st) /\
                 (forall i j, 0 <= i < rows -> 0 <= j < cols ->
                    cell (bufs t) i j = Some (value (Z.to_nat (i * cols + j)))) /\
                 (forall j, 0 <= j < Z.of_nat (length done) ->
                    load (vector (bufs t)) j =
                    Some (value (Z.to_nat (rows * cols + j)))))
              (fun i => r <- rand rand_step ;;
                        on_bufs (set_vector i (unit_random RAND_MAX r)))
              (range 0 cols 1) st1)
    as [st2 [Hrun2 [Hs2 [Hr2 [Hw2 [Hseed2 [Hm2 Hv2]]]]]]].
  { split; [assumption|]. split; [assumption|]. split; [assumption|].
    split; [now rewrite Nat.add_0_r|]. split.
    - intros i j Hi Hj. apply Hcells1; lia.
    - simpl. intros; lia. }
  { intros done j rest t Hsplit [Hst [Hrt [Hwt [Hseed [Hm Hv]]]]].
    destruct (range_unit_split _ _ _ _ _ Hsplit) as [Ej _].
    assert (In j (range 0 cols 1)) as Hj by (rewrite Hsplit; apply in_elt).
    apply in_range_unit in Hj.
    destruct (fill_component_step t j Hst Hj)
      as [t' [Hrun [Hst' [Hsd [Hjj [Hother [Hmat [Hres Hwt']]]]]]]].
    exists t'. split; [exact Hrun|].
    split; [assumption|]. split; [congruence|].
    split; [eapply same_world_trans; eauto|].
    rewrite length_app. cbn [length].
    split.
    { rewrite Hsd, Hseed.
      replace (Z.to_nat rows * C + (length done + 1))%nat
        with (S (Z.to_nat rows * C + length done)) by lia. reflexivity. }
    split.
    { intros i' j' Hi' Hj'. unfold cell. rewrite Hmat. now apply Hm. }
    intros j' Hj'. destruct (Z.eq_dec j' j) as [->|Hne].
    - rewrite Hjj, Hseed. unfold value, rand_output. do 4 f_equal.
      rewrite Ej. cbn [Z.add].
      replace rows with (Z.of_nat (Z.to_nat rows)) at 2 by lia.
      unfold C. rewrite to_nat_index by assumption. reflexivity.
    - rewrite Hother by assumption. apply Hv. lia. }
  exists st2. split; [exact Hrun2|].
  assert (length (range 0 cols 1) = C) as HlenC
    by (rewrite range_unit, length_map, length_seq; unfold C; f_equal; lia).
  rewrite HlenC in *.
  split.
  { rewrite Hseed2. f_equal. unfold C.
    rewrite Z2Nat.inj_add, Z2Nat.inj_mul by nia. reflexivity. }
  split; [assumption|]. split; [|split; assumption].
  intros j Hj. apply Hv2. unfold C. lia.
Qed.
End FillInOrder.

(** ** One size of the benchmark *)

Section Runs.
Variable RAND_MAX : Z.
Variable rand_step : Z -> Z * Z.

Ltac run_case c nw Hrun :=
  unfold benchmark, label_of; cbn [Z.eqb Pos.eqb];
  unfold bind, get_time, next_peers, on_bufs, fprintf, modify, MPI_Barrier,
    ret;
  destruct c as [|? [|? ?]]; destruct nw as [|? ?]; proc_simpl;
  rewrite ?mpi_mvm_alone, ?mpi_tiled_mvm_alone;
  rewrite Hrun; proc_simpl;
  (eexists; split; [reflexivity|]); proc_simpl; cbn [hd tl];
  repeat split; auto; intros; lia.

(** The variants that need no other process: the sequential and the OpenMP
    ones, and the MPI ones when the process is alone. *)
Lemma benchmark_completes (program_type N rank size : Z) (st : proc) :
  program_type = 1 \/ program_type = 2 \/ program_type = 4 \/
  ((program_type = 3 \/ program_type = 5) /\ rank = 0 /\ size = 1) ->
  shaped N N (bufs st) -> (4 <= program_type -> (TILE_SIZE | N)) ->
  exists st',
    benchmark program_type N rank size st = inr (tt, st') /\
    report st' =
      report st ++ [Timing (label_of program_type) N
                      (hd 0 (tl (clock st)) - hd 0 (clock st))%float] /\
    clock st' = tl (tl (clock st)) /\
    heap st' = heap st /\ stdout st' = stdout st /\ seed st' = seed st /\
    matrix (bufs st') = matrix (bufs st) /\
    vector (bufs st') = vector (bufs st) /\
    (program_type < 4 ->
     result (bufs st') =
     product 0%float PrimFloat.add PrimFloat.mul
             (matrix (bufs st)) (vector (bufs st)) N N).
Proof.
  intros Hpt Hs Hdiv.
  destruct st as [b sd h c nw inp o rep]. proc_simpl.
  destruct (sequential_mvm_correct 0%float PrimFloat.add PrimFloat.mul N N b Hs)
    as [b1 [Hrun1 [Em1 [Ev1 Er1]]]].
  destruct (openmp_mvm_correct 0%float PrimFloat.add PrimFloat.mul N N b Hs)
    as [b2 [Hrun2 [Em2 [Ev2 Er2]]]].
  assert (4 <= program_type ->
          exists b4,
            openmp_tiled_mvm PrimFloat.add PrimFloat.mul N N TILE_SIZE b =
              inr (tt, b4) /\
            matrix b4 = matrix b /\ vector b4 = vector b) as Htiled.
  { intros H4.
    destruct (openmp_tiled_mvm_accumulates 0%float PrimFloat.add PrimFloat.mul
                N TILE_SIZE b ltac:(unfold TILE_SIZE; lia) (Hdiv H4) Hs)
      as [b4 [Hrun4 [Em4 [Ev4 _]]]].
    eauto. }
  destruct Hpt as [-> | [-> | [-> | [[-> | ->] [-> ->]]]]].
  - run_case c nw Hrun1.
  - run_case c nw Hrun2.
  - destruct (Htiled ltac:(lia)) as [b4 [Hrun4 [Em4 Ev4]]].
    run_case c nw Hrun4.
  - run_case c nw Hrun1.
  - destruct (Htiled ltac:(lia)) as [b4 [Hrun4 [Em4 Ev4]]].
    run_case c nw Hrun4.
Qed.

Lemma fill_then_benchmark (program_type N rank size : Z) (st : proc) :
  program_type = 1 \/ program_type = 2 \/ program_type = 4 \/
  ((program_type = 3 \/ program_type = 5) /\ rank = 0 /\ size = 1) ->
  shaped N N (bufs st) -> (4 <= program_type -> (TILE_SIZE | N)) ->
  exists st',
    (fill_random RAND_MAX rand_step N N ;;
     benchmark program_type N rank size) st = inr (tt, st') /\
    report st' =
      report st ++ [Timing (label_of program_type) N
                      (hd 0 (tl (clock st)) - hd 0 (clock st))%float] /\
    clock st' = tl (tl (clock st)) /\
    heap st' = heap st /\ stdout st' = stdout st /\
    (program_type < 4 ->
     result (bufs st') =
     product 0%float PrimFloat.add PrimFloat.mul
             (matrix (bufs st')) (vector (bufs st')) N N).
Proof.
  intros Hpt Hs Hdiv.
  destruct (fill_random_spec RAND_MAX rand_step (fun _ => True) (fun _ => I)
              N N st Hs)
    as [st1 [Hfill [Hs1 [_ [[Hh [Hc [_ [_ [Ho Hr]]]]] _]]]]].
  destruct (benchmark_completes program_type N rank size st1 Hpt Hs1 Hdiv)
    as [st2 [Hrun [Hrep [Hclock [Hheap [Hout [_ [Em [Ev Hprod]]]]]]]]].
  exists st2. unfold bind. rewrite Hfill. split; [exact Hrun|].
  rewrite Hrep, Hclock, Hheap, Hout, Hr, Hc, Hh, Ho.
  repeat split. intros Hne. rewrite Em, Ev. now apply Hprod.
Qed.

(** X11: when its allocations succeed, [run_programs] with the sequential or
    the naive OpenMP variant (or the naive MPI variant on a process that
    is alone) reads the clock twice, writes one record with the
    difference of the two readings, prints nothing, and leaves in the
    result the product of the matrix and the vector it filled. *)
Theorem run_programs_records_product (program_type N rank size : Z)
  (st : proc) :
  program_type = 1 \/ program_type = 2 \/
  (program_type = 3 /\ rank = 0 /\ size = 1) ->
  0 <= N -> (Z.to_nat N + 3 <= successes (heap st))%nat ->
  exists st',
    run_programs RAND_MAX rand_step program_type N rank size st =
      inr (tt, st') /\
    report st' =
      report st ++ [Timing (label_of program_type) N
                      (hd 0 (tl (clock st)) - hd 0 (clock st))%float] /\
    clock st' = tl (tl (clock st)) /\
    heap st' = skipn (Z.to_nat N + 3) (heap st) /\
    stdout st' = stdout st /\
    result (bufs st') =
      product 0%float PrimFloat.add PrimFloat.mul
              (matrix (bufs st')) (vector (bufs st')) N N.
Proof.
  intros Hpt HN Hk. rewrite run_programs_spec.
  destruct (Nat.leb_spec (Z.to_nat N + 3) (successes (heap st))); [|lia].
  destruct (allocated_shaped N st HN Hk)
    as [Hshape [[Hh [Hc [_ [_ [Ho Hr]]]]] _]].
  destruct (fill_then_benchmark program_type N rank size (allocated N st)
              ltac:(intuition lia) Hshape ltac:(lia))
    as [st' [Hrun [Hrep [Hclock [Hheap [Hout Hprod]]]]]].
  exists st'. split; [exact Hrun|].
  rewrite Hrep, Hclock, Hheap, Hout, Hr, Hc, Hh, Ho.
  destruct st; proc_simpl. repeat split. apply Hprod. lia.
Qed.

(** X12: for a [program_type] outside 1..5 the [switch] has no case:
    [run_programs] returns without reading the clock, without entering a
    collective and without writing a record, whether its allocations
    succeed or not. *)
Theorem run_programs_unknown_variant (program_type N rank size : Z)
  (st : proc) :
  program_type < 1 \/ 5 < program_type -> 0 <= N ->
  exists st',
    run_programs RAND_MAX rand_step program_type N rank size st =
      inr (tt, st') /\
    report st' = report st /\ clock st' = clock st /\
    network st' = network st.
Proof.
  intros Hpt HN. rewrite run_programs_spec.
  destruct (Nat.leb_spec (Z.to_nat N + 3) (successes (heap st))) as [Hk|Hk].
  - destruct (allocated_shaped N st HN Hk)
      as [Hshape [[_ [Hc [Hn [_ [_ Hr]]]]] _]].
    destruct (fill_random_spec RAND_MAX rand_step (fun _ => True) (fun _ => I)
                N N (allocated N st) Hshape)
      as [st1 [Hfill [_ [_ [[_ [Hc1 [Hn1 [_ [_ Hr1]]]]] _]]]]].
    exists st1. unfold bind. rewrite Hfill. unfold benchmark.
    destruct (Z.eqb_spec program_type 1); [lia|].
    destruct (Z.eqb_spec program_type 2); [lia|].
    destruct (Z.eqb_spec program_type 3); [lia|].
    destruct (Z.eqb_spec program_type 4); [lia|].
    destruct (Z.eqb_spec program_type 5); [lia|].
    split; [reflexivity|]. rewrite Hr1, Hc1, Hn1, Hr, Hc, Hn.
    destruct st; proc_simpl. repeat split.
  - eexists. split; [reflexivity|]. destruct st; repeat split.
Qed.
End Runs.

(** ** The whole run *)

Lemma read_choice_loop_frame (fuel : nat) (st : proc) (c : Z) (st' : proc) :
  read_choice_loop fuel st = inr (c, st') ->
  bufs st' = bufs st /\ seed st' = seed st /\ heap st' = heap st /\
  clock st' = clock st /\ network st' = network st /\ report st' = report st.
Proof.
  revert st. induction fuel as [|fuel IH]; intros st E; [discriminate|].
  rewrite read_choice_loop_step in E. cbv zeta in E.
  assert (forall rest,
            match discard_line rest with
            | Some rest' => read_choice_loop fuel (next_attempt st rest')
            | None => inl Diverges
            end = inr (c, st') ->
            bufs st' = bufs st /\ seed st' = seed st /\ heap st' = heap st /\
            clock st' = clock st /\ network st' = network st /\
            report st' = report st) as Hagain.
  { intros rest Er. destruct (discard_line rest) as [rest'|]; [|discriminate].
    apply IH in Er. destruct st. exact Er. }
  destruct (scan_int (stdin st)) as [[v| | |] rest];
    try (now apply (Hagain rest)); try discriminate.
  destruct ((v <? 1) || (v >? 5)); [now apply (Hagain rest)|].
  inversion E. destruct st. repeat split.
Qed.

Lemma sizes_tiled : Forall (fun N => 0 <= N /\ (TILE_SIZE | N)) sizes.
Proof.
  unfold sizes, TILE_SIZE, MAX_SIZE. cbn.
  repeat constructor; try lia;
    match goal with |- (16 | ?n) => exists (n / 16); reflexivity end.
Qed.

Lemma sizes_NoDup : NoDup sizes.
Proof.
  unfold sizes, MAX_SIZE. cbn.
  repeat constructor; cbn; intros H; lia.
Qed.

Section MainRuns.
Variable RAND_MAX : Z.
Variable rand_step : Z -> Z * Z.

Lemma run_programs_completes (c N rank size : Z) (st : proc) :
  c = 1 \/ c = 2 \/ c = 4 \/ ((c = 3 \/ c = 5) /\ rank = 0 /\ size = 1) ->
  0 <= N -> (TILE_SIZE | N) ->
  exists st',
    run_programs RAND_MAX rand_step c N rank size st = inr (tt, st') /\
    (report st' = report st \/
     exists t, report st' = report st ++ [Timing (label_of c) N t]).
Proof.
  intros Hc HN Hdiv. rewrite run_programs_spec.
  destruct (Nat.leb_spec (Z.to_nat N + 3) (successes (heap st))) as [Hk|Hk].
  - destruct (allocated_shaped N st HN Hk)
      as [Hshape [[_ [_ [_ [_ [_ Hr]]]]] _]].
    destruct (fill_then_benchmark RAND_MAX rand_step c N rank size
                (allocated N st) Hc Hshape (fun _ => Hdiv))
      as [st' [Hrun [Hrep _]]].
    exists st'. split; [exact Hrun|]. right. eexists. rewrite Hrep, Hr.
    destruct st; reflexivity.
  - eexists. split; [reflexivity|]. left. now destruct st.
Qed.

Lemma size_loop_completes (c rank size : Z) (l : list Z) (st : proc) :
  c = 1 \/ c = 2 \/ c = 4 \/ ((c = 3 \/ c = 5) /\ rank = 0 /\ size = 1) ->
  Forall (fun N => 0 <= N /\ (TILE_SIZE | N)) l -> NoDup l ->
  exists st' done ran,
    for_each l (fun N => run_programs RAND_MAX rand_step c N rank size) st =
      inr (tt, st') /\
    report st' =
      report st ++ map (fun p => Timing (label_of c) (fst p) (snd p)) done /\
    map fst done = filter ran l.
Proof.
  intros Hc Hl Hnd. revert st.
  induction l as [|N l IH]; intros st.
  - exists st, [], (fun _ => true). cbn. rewrite app_nil_r. auto.
  - inversion Hl as [|? ? [HN Hdiv] Hl']; subst.
    inversion Hnd as [|? ? Hnot Hnd']; subst.
    destruct (run_programs_completes c N rank size st Hc HN Hdiv)
      as [st1 [Hrun Hrep1]].
    destruct (IH Hl' Hnd' st1) as [st' [done [ran [Hloop [Hrep Hdone]]]]].
    assert (forall b, filter (fun x => if x =? N then b else ran x) l =
                      filter ran l) as Hsame.
    { intros b. apply filter_ext_in. intros x Hx.
      destruct (Z.eqb_spec x N); [subst; contradiction|reflexivity]. }
    cbn [for_each]. unfold bind. rewrite Hrun, Hloop.
    destruct Hrep1 as [E1 | [t E1]].
    + exists st', done, (fun x => if x =? N then false else ran x).
      split; [reflexivity|]. split; [now rewrite Hrep, E1|].
      cbn [filter]. rewrite Z.eqb_refl, Hsame. exact Hdone.
    + exists st', ((N, t) :: done), (fun x => if x =? N then true else ran x).
      split; [reflexivity|]. split.
      * rewrite Hrep, E1, <- app_assoc. reflexivity.
      * cbn [filter map fst]. rewrite Z.eqb_refl, Hsame, Hdone. reflexivity.
Qed.

(** X13: when the report cannot be opened, [main] prints the error after
    the selection and returns 1; it has allocated nothing, read no clock
    and written no record. *)
Theorem main_without_report_file (rank size now : Z) (st : proc)
  (c : Z) (st1 : proc) :
  read_choice (at_prompt now st) = inr (c, st1) ->
  exists st',
    main RAND_MAX rand_step rank size now false st = inr (1, st') /\
    stdout st' = stdout st1 ++ [String.append "Error opening file!" nl] /\
    report st' = report st /\ heap st' = heap st /\ clock st' = clock st /\
    bufs st' = bufs st.
Proof.
  intros Ec.
  pose proof (main_at_prompt now st) as Hp.
  destruct (read_choice_loop_frame _ _ _ _ Ec)
    as [Hb [_ [Hh [Hc [_ Hr]]]]].
  unfold main.
  unfold bind at 1, srand at 1, modify at 1.
  unfold bind at 1, srand at 1, modify at 1 in Hp.
  eexists.
  match goal with
  | |- ?run = _ /\ _ =>
      change run with
        ((for_each menu printf ;;
          choice <- read_choice ;;
          printf (String.append "Error opening file!" nl) ;; ret 1)
           (with_seed st (now mod 4294967296)))
  end.
  unfold bind at 1.
  destruct (for_each menu printf (with_seed st (now mod 4294967296)))
    as [e|[[] stp]]; [discriminate|].
  assert (stp = at_prompt now st) as -> by congruence.
  unfold bind at 1. rewrite Ec.
  unfold bind, printf, modify, ret.
  split; [reflexivity|].
  destruct st1, st; proc_simpl. unfold at_prompt in *; proc_simpl.
  repeat split; auto.
Qed.
End MainRuns.

(** ** The selection loop on whole lines *)

Lemma discard_line_app (w rest : list ascii) :
  Forall (fun x => Ascii.eqb x newline = false) w ->
  discard_line (w ++ newline :: rest) = Some rest.
Proof.
  induction 1 as [|x w Hx _ IH]; cbn [app discard_line].
  - now rewrite Ascii.eqb_refl.
  - now rewrite Hx.
Qed.

Lemma digit_not_space (d : ascii) (c : Z) :
  digit_of d = Some c ->
  is_space d = false /\ Ascii.eqb d "-"%char = false /\
  Ascii.eqb d "+"%char = false /\ 0 <= c <= 9.
Proof.
  unfold digit_of, is_space. intros H.
  destruct (Z.leb_spec 48 (Z.of_N (N_of_ascii d))); [|discriminate].
  destruct (Z.leb_spec (Z.of_N (N_of_ascii d)) 57); [|discriminate].
  cbn in H. inversion H; subst c. split; [|split; [|split]]; [| | |lia].
  - destruct (N.eqb_spec (N_of_ascii d) 32); [lia|].
    destruct (N.leb_spec 9 (N_of_ascii d)), (N.leb_spec (N_of_ascii d) 13);
      cbn; auto; lia.
  - destruct (Ascii.eqb_spec d "-"%char); [subst; cbn in *; lia|reflexivity].
  - destruct (Ascii.eqb_spec d "+"%char); [subst; cbn in *; lia|reflexivity].
Qed.

Lemma space_newline (c : ascii) :
  is_space c = false -> Ascii.eqb c newline = false.
Proof.
  intros H. destruct (Ascii.eqb_spec c newline); [|reflexivity].
  subst. discriminate.
Qed.

Lemma scan_int_junk (w rest : list ascii) :
  junk_line w ->
  scan_int (w ++ newline :: rest) = (NoMatch, w ++ newline :: rest) /\
  discard_line (w ++ newline :: rest) = Some rest.
Proof.
  destruct w as [|c w]; [contradiction|].
  intros [Hsp [Hd [Hm [Hp Hw]]]]. split.
  - unfold scan_int. cbn [app skip_spaces]. rewrite Hsp, Hm, Hp. cbn [orb].
    now rewrite Hd.
  - apply (discard_line_app (c :: w)). constructor; [|assumption].
    now apply space_newline.
Qed.

Lemma scan_int_digit (d : ascii) (c : Z) (tail : list ascii) :
  digit_of d = Some c ->
  scan_int (d :: newline :: tail) = (Assigned c, newline :: tail).
Proof.
  intros Hd. destruct (digit_not_space d c Hd) as [Hsp [Hm [Hp Hc]]].
  unfold scan_int. cbn [skip_spaces]. rewrite Hsp, Hm, Hp. cbn [orb].
  rewrite Hd. cbn [read_digits]. rewrite Hd.
  change (digit_of newline) with (@None Z). cbn [Z.mul Z.add].
  unfold INT_MIN, INT_MAX.
  destruct (Z.leb_spec (-2147483648) c), (Z.leb_spec c 2147483647);
    try lia. reflexivity.
Qed.

Lemma read_choice_loop_junk (junk : list (list ascii)) (d : ascii) (c : Z)
  (tail : list ascii) (fuel : nat) (st : proc) :
  Forall junk_line junk -> digit_of d = Some c -> 1 <= c <= 5 ->
  stdin st = lines_then junk (d :: newline :: tail) ->
  (length junk < fuel)%nat ->
  exists st',
    read_choice_loop fuel st = inr (c, st') /\
    stdin st' = newline :: tail /\
    stdout st' = stdout st ++ repeat reprompt (length junk).
Proof.
  intros Hjunk Hd Hc. revert fuel st.
  induction Hjunk as [|w junk Hw _ IH]; intros fuel st Hin Hfuel;
    (destruct fuel as [|fuel]; [cbn in Hfuel; lia|]);
    rewrite read_choice_loop_step; cbv zeta; rewrite Hin;
    unfold lines_then; cbn [map concat app length repeat].
  - rewrite (scan_int_digit d c tail Hd).
    destruct (Z.ltb_spec c 1), (Z.gtb_spec c 5); try lia. cbn [orb].
    eexists. split; [reflexivity|]. destruct st; proc_simpl.
    now rewrite app_nil_r.
  - rewrite <- !app_assoc. cbn [app].
    destruct (scan_int_junk w
                (concat (map (fun w0 => w0 ++ [newline]) junk) ++
                 d :: newline :: tail) Hw) as [-> ->].
    destruct (IH fuel
                (next_attempt st
                   (concat (map (fun w0 => w0 ++ [newline]) junk) ++
                    d :: newline :: tail)))
      as [st' [Hrun [Hin' Hout']]].
    { destruct st; reflexivity. }
    { cbn in Hfuel. lia. }
    exists st'. split; [exact Hrun|]. split; [exact Hin'|].
    rewrite Hout'. destruct st; unfold next_attempt; proc_simpl.
    now rewrite <- app_assoc.
Qed.

(** X16: lines that do not start with a number are discarded one by one,
    each answered by the re-prompt; the selection from 1 to 5 on the line
    that follows is returned, and its newline is left in the input. *)
Theorem read_choice_after_junk_lines (junk : list (list ascii)) (d : ascii)
  (c : Z) (tail : list ascii) (st : proc) :
  Forall junk_line junk -> digit_of d = Some c -> 1 <= c <= 5 ->
  stdin st = lines_then junk (d :: newline :: tail) ->
  exists st',
    read_choice st = inr (c, st') /\
    stdin st' = newline :: tail /\
    stdout st' = stdout st ++ repeat reprompt (length junk).
Proof.
  intros Hjunk Hd Hc Hin. unfold read_choice.
  apply (read_choice_loop_junk junk d c tail); auto.
  rewrite Hin. unfold lines_then. rewrite length_app.
  assert (length junk <=
          length (concat (map (fun w => w ++ [newline]) junk)))%nat.
  { clear. induction junk as [|w junk IH]; cbn [map concat length]; [lia|].
    rewrite !length_app. cbn [length]. lia. }
  cbn [length]. lia.
Qed.

(** X15: a rejected attempt after which the input holds no newline never
    ends: [getchar] returns [EOF] for ever. *)
Theorem read_choice_diverges_without_newline (st : proc) (r : scanned)
  (rest : list ascii) :
  scan_int (stdin st) = (r, rest) -> rejected r ->
  discard_line rest = None ->
  read_choice st = inl Diverges.
Proof.
  intros Es Hrej Hd. unfold read_choice. rewrite read_choice_loop_step.
  cbv zeta. rewrite Es, Hd.
  destruct r as [v| | |]; cbn in Hrej; try reflexivity; try contradiction.
  destruct (Z.ltb_spec v 1), (Z.gtb_spec v 5); cbn; try reflexivity; lia.
Qed.

(** ** Allocation and the sizes *)

(** X10: [allocate_matrix] asks for the row pointers and then for one
    block per row.  It returns [rows] rows of [cols] entries when these
    [rows + 1] requests succeed, and prints nothing; else it stops at the
    first request that fails, prints the message once and returns
    [NULL]. *)
Theorem allocate_matrix_outcome (rows cols : Z) (st : proc) :
  exists r st',
    allocate_matrix rows cols st = inr (r, st') /\
    match r with
    | Some m =>
        (S (Z.to_nat rows) <= successes (heap st))%nat /\
        length m = Z.to_nat rows /\
        Forall (fun row => length row = Z.to_nat cols) m /\
        heap st' = skipn (S (Z.to_nat rows)) (heap st) /\
        stdout st' = stdout st
    | None =>
        (successes (heap st) <= Z.to_nat rows)%nat /\
        heap st' = skipn (S (successes (heap st))) (heap st) /\
        stdout st' = stdout st ++ [allocation_failed]
    end.
Proof.
  rewrite allocate_matrix_spec.
  destruct (Nat.leb_spec (S (Z.to_nat rows)) (successes (heap st))) as [Hk|Hk].
  - eexists _, _. split; [reflexivity|]. split; [assumption|].
    assert (Z.to_nat rows <= successes (skipn 1 (heap st)))%nat as Hk'
      by (rewrite successes_skipn by lia; lia).
    destruct (served_blocks cols _ _ Hk') as [Hlen Hrows].
    split; [now rewrite length_map|]. split.
    + apply Forall_map. exact Hrows.
    + destruct st; proc_simpl. auto.
  - eexists _, _. split; [reflexivity|]. split; [lia|].
    destruct st; proc_simpl. auto.
Qed.

(** X17: the size loop of [main] runs for the ten sizes [64 * 2 ^ k],
    [k] from 0 to 9; each is a multiple of the tile edge, and doubling it
    stays inside an [int]. *)
Theorem size_loop_sizes (N : Z) :
  (In N sizes <-> exists k, 0 <= k <= 9 /\ N = 64 * 2 ^ k) /\
  (In N sizes -> (TILE_SIZE | N) /\ N * 2 <= INT_MAX).
Proof.
  unfold sizes, MAX_SIZE, TILE_SIZE, INT_MAX. cbn. split; [split|].
  - intros H.
    repeat (destruct H as [<- | H];
            [match goal with
             | |- exists k, _ /\ ?n = _ => exists (Z.log2 (n / 64))
             end; cbn; split; [lia|reflexivity]|]).
    contradiction.
  - intros [k [Hk ->]].
    assert (k = 0 \/ k = 1 \/ k = 2 \/ k = 3 \/ k = 4 \/ k = 5 \/ k = 6 \/
            k = 7 \/ k = 8 \/ k = 9) as Hcases by lia.
    repeat (destruct Hcases as [-> | Hcases]; [cbn; tauto|]).
    subst. cbn. tauto.
  - intros H.
    repeat (destruct H as [<- | H];
            [split; [match goal with
                     | |- (16 | ?n) => exists (n / 16); reflexivity
                     end|lia]|]).
    contradiction.
Qed.

(** ** Instances *)

Lemma sequential_mvm_ignores_old_result_witness :
  exists s1' s2',
    sequential_mvm 0 Z.add Z.mul 4 4 (constant_mem 4 1 2 3) = inr (tt, s1') /\
    sequential_mvm 0 Z.add Z.mul 4 4 (constant_mem 4 1 2 5) = inr (tt, s2') /\
    result s1' = result s2' /\
    forall i, 0 <= i < 4 ->
      load (result s1') i =
      Some (dot 0 Z.add Z.mul (matrix (constant_mem 4 1 2 3))
              (vector (constant_mem 4 1 2 3)) i 4).
Proof.
  apply (sequential_mvm_ignores_old_result 0 Z.add Z.mul 4 4);
    try apply (shaped_constant_mem 4); reflexivity.
Defined.

Lemma openmp_mvm_any_order_witness :
  exists s',
    openmp_mvm_in_order 0 Z.add Z.mul (rev (range 0 4 1)) 4
      (constant_mem 4 1 2 3) = inr (tt, s') /\
    matrix s' = matrix (constant_mem 4 1 2 3) /\
    vector s' = vector (constant_mem 4 1 2 3) /\
    result s' = product 0 Z.add Z.mul (matrix (constant_mem 4 1 2 3))
                  (vector (constant_mem 4 1 2 3)) 4 4.
Proof.
  apply (openmp_mvm_any_order 0 Z.add Z.mul 4 4).
  - apply Permutation_sym, Permutation_rev.
  - apply (shaped_constant_mem 4).
Defined.

Lemma openmp_tiled_mvm_on_zeros_witness :
  exists s',
    openmp_tiled_mvm Z.add Z.mul 4 4 2 (constant_mem 4 1 2 0) = inr (tt, s') /\
    forall i, 0 <= i < 4 ->
      load (result s') i =
      load (product 0 Z.add Z.mul (matrix (constant_mem 4 1 2 0))
              (vector (constant_mem 4 1 2 0)) 4 4) i.
Proof.
  apply (openmp_tiled_mvm_on_zeros 0 Z.add Z.mul 4 2).
  - lia.
  - exists 2. reflexivity.
  - apply (shaped_constant_mem 4).
  - intros i Hi.
    assert (i = 0 \/ i = 1 \/ i = 2 \/ i = 3) as [-> | [-> | [-> | ->]]] by lia;
      reflexivity.
Defined.

Lemma mpi_mvm_job_with_remainder_witness :
  exists finals,
    mpi_mvm_job 0 Z.add Z.mul 8 8
      [constant_mem 8 1 2 3; constant_mem 8 1 2 5; constant_mem 8 1 2 7] =
      inr finals /\
    length finals = 3%nat /\
    forall r p p',
      load [constant_mem 8 1 2 3; constant_mem 8 1 2 5; constant_mem 8 1 2 7] r
        = Some p ->
      load finals r = Some p' ->
      matrix p' = repeat (repeat 1 8) 8 /\ vector p' = repeat 2 8 /\
      forall k, 0 <= k < 8 ->
        load (result p') k =
        if (k <? (8 ÷ 3) * 3) || (r =? 3 - 1)
        then Some (dot 0 Z.add Z.mul (repeat (repeat 1 8) 8) (repeat 2 8) k 8)
        else load (result p) k.
Proof.
  apply (mpi_mvm_job_with_remainder 0 Z.add Z.mul 8
           (repeat (repeat 1 8) 8) (repeat 2 8)
           [constant_mem 8 1 2 3; constant_mem 8 1 2 5; constant_mem 8 1 2 7]).
  - simpl. lia.
  - repeat constructor; apply (shaped_constant_mem 8).
Defined.

Lemma mpi_tiled_mvm_job_accumulates_witness :
  exists finals,
    mpi_tiled_mvm_job Z.add Z.mul 8 8 2
      [constant_mem 8 1 2 3; constant_mem 8 1 2 5] = inr finals /\
    length finals = 2%nat /\
    forall r p p',
      load [constant_mem 8 1 2 3; constant_mem 8 1 2 5] r = Some p ->
      load finals r = Some p' ->
      matrix p' = repeat (repeat 1 8) 8 /\ vector p' = repeat 2 8 /\
      forall k, 0 <= k < 8 ->
        load (result p') k =
        if k <? (8 ÷ 2) * 2
        then match load [constant_mem 8 1 2 3; constant_mem 8 1 2 5]
                        (k / (8 ÷ 2)) with
             | Some owner =>
                 option_map (row_sum 0 Z.add Z.mul (repeat (repeat 1 8) 8)
                               (repeat 2 8) k (range 0 8 1))
                            (load (result owner) k)
             | None => None
             end
        else if r =? 2 - 1
             then option_map (row_sum 0 Z.add Z.mul (repeat (repeat 1 8) 8)
                                (repeat 2 8) k (range 0 8 1))
                             (load (result p) k)
             else load (result p) k.
Proof.
  apply (mpi_tiled_mvm_job_accumulates 0 Z.add Z.mul 8 2
           (repeat (repeat 1 8) 8) (repeat 2 8)
           [constant_mem 8 1 2 3; constant_mem 8 1 2 5]).
  - lia.
  - simpl. lia.
  - exists 4. reflexivity.
  - exists 2. reflexivity.
  - repeat constructor; apply (shaped_constant_mem 8).
Defined.

Lemma fill_random_in_call_order_witness :
  exists st',
    fill_random MSVC_RAND_MAX msvc_rand 4 4
      (seeded 1 (constant_mem 4 0%float 0%float 0%float)) = inr (tt, st') /\
    seed st' = rand_state msvc_rand (Z.to_nat (4 * 4 + 4)) 1 /\
    (forall i j, 0 <= i < 4 -> 0 <= j < 4 ->
       cell (bufs st') i j =
       Some (unit_random MSVC_RAND_MAX
               (rand_output msvc_rand (Z.to_nat (i * 4 + j)) 1))) /\
    (forall j, 0 <= j < 4 ->
       load (vector (bufs st')) j =
       Some (unit_random MSVC_RAND_MAX
               (rand_output msvc_rand (Z.to_nat (4 * 4 + j)) 1))) /\
    result (bufs st') = repeat 0%float 4 /\
    same_world (seeded 1 (constant_mem 4 0%float 0%float 0%float)) st'.
Proof.
  apply (fill_random_in_call_order MSVC_RAND_MAX msvc_rand 4 4
           (seeded 1 (constant_mem 4 0%float 0%float 0%float))).
  apply (shaped_constant_mem 4).
Defined.

Lemma run_programs_records_product_witness :
  exists st',
    run_programs MSVC_RAND_MAX msvc_rand 1 16 0 1 (stale_heap 1 19 1000%float) =
      inr (tt, st') /\
    report st' = [Timing "Sequential" 16 0%float] /\
    clock st' = [] /\ heap st' = [] /\ stdout st' = [] /\
    result (bufs st') =
      product 0%float PrimFloat.add PrimFloat.mul
              (matrix (bufs st')) (vector (bufs st')) 16 16.
Proof.
  apply (run_programs_records_product MSVC_RAND_MAX msvc_rand 1 16 0 1
           (stale_heap 1 19 1000%float)).
  - left. reflexivity.
  - lia.
  - vm_compute. lia.
Defined.

Lemma run_programs_unknown_variant_witness :
  exists st',
    run_programs MSVC_RAND_MAX msvc_rand 7 16 0 1 (stale_heap 1 19 1000%float) =
      inr (tt, st') /\
    report st' = [] /\ clock st' = [] /\ network st' = [].
Proof.
  apply (run_programs_unknown_variant MSVC_RAND_MAX msvc_rand 7 16 0 1
           (stale_heap 1 19 1000%float)); lia.
Defined.

Lemma main_without_report_file_witness :
  exists st',
    main MSVC_RAND_MAX msvc_rand 0 1 0 false (typed (String "2" nl) 0) =
      inr (1, st') /\
    stdout st' = menu ++ [String.append "Error opening file!" nl] /\
    report st' = [] /\
    heap st' = [None] /\ clock st' = [] /\ bufs st' = Mem [] [] [].
Proof.
  apply (main_without_report_file MSVC_RAND_MAX msvc_rand 0 1 0
           (typed (String "2" nl) 0) 2
           (with_stdin (at_prompt 0 (typed (String "2" nl) 0)) [newline])).
  reflexivity.
Defined.

Lemma read_choice_diverges_without_newline_witness :
  read_choice (typed "9" 0) = inl Diverges.
Proof.
  apply (read_choice_diverges_without_newline (typed "9" 0) (Assigned 9) []).
  - reflexivity.
  - simpl. lia.
  - reflexivity.
Defined.

Lemma read_choice_after_junk_lines_witness :
  exists st',
    read_choice
      (typed (String "a" (String "b" (String newline
               (String "x" (String newline (String "3" nl)))))) 0) =
      inr (3, st') /\
    stdin st' = [newline] /\
    stdout st' = repeat reprompt 2.
Proof.
  apply (read_choice_after_junk_lines
           [["a"; "b"]; ["x"]]%char "3"%char 3 []
           (typed (String "a" (String "b" (String newline
                     (String "x" (String newline (String "3" nl)))))) 0)).
  - repeat constructor.
  - reflexivity.
  - lia.
  - reflexivity.
Defined.

(** ** The team of the tiled OpenMP kernel *)

Lemma upd_same {A} (l : list A) (k : nat) (x : A) :
  nth_error l k = Some x -> upd l k x = l.
Proof.
  revert k. induction l as [|h t IH]; intros [|k] E; simpl in *;
    try discriminate.
  - now inversion E.
  - now rewrite IH.
Qed.

Lemma upd_upd {A} (l : list A) (k : nat) (x y : A) :
  upd (upd l k x) k y = upd l k y.
Proof.
  revert k. induction l as [|h t IH]; intros [|k]; simpl; auto.
  now rewrite IH.
Qed.

Lemma upd_middle {A} (pre post : list A) (x y : A) :
  upd (pre ++ x :: post) (length pre) y = pre ++ y :: post.
Proof. induction pre as [|h t IH]; simpl; [reflexivity|now rewrite IH]. Qed.

Lemma nth_error_middle {A} (pre post : list A) (x : A) :
  nth_error (pre ++ x :: post) (length pre) = Some x.
Proof. induction pre as [|h t IH]; simpl; auto. Qed.

Section TeamFacts.
Context {D : Type}.
Variable zero : D.
Variables add mul : D -> D -> D.

Local Abbreviation visit := (fun p : Z * Z => accumulate add mul (fst p) (snd p)).

(** The load and the store of one thread, with no step of another thread
    between them, are [result[ii] += matrix[ii][jj] * vector[jj]]. *)
Lemma thread_step_twice (ii jj : Z) (rest : list (Z * Z)) (s : mem D) :
  (t <- thread_step add mul (Thread None ((ii, jj) :: rest)) ;;
   thread_step add mul t) s =
  match accumulate add mul ii jj s with
  | inl e => inl e
  | inr (_, s') => inr (Thread None rest, s')
  end.
Proof.
  unfold accumulate, thread_step, bind, get_matrix, get_vector, get_result,
    lift, bind, raise, ret. cbn [storing cells].
  destruct (load (matrix s) ii) as [row|]; [|reflexivity].
  destruct (load row jj) as [a|]; [|reflexivity].
  destruct (load (vector s) jj) as [b|]; [|reflexivity].
  destruct (load (result s) ii) as [r|]; [|reflexivity].
  cbn [storing cells].
  destruct (set_result ii (add r (mul a b)) s) as [e|[[] s']]; reflexivity.
Qed.

Lemma run_thread_to_end (cs : list (Z * Z)) (k : nat)
  (schedule : list nat) (team : list (thread D)) (s : mem D) :
  nth_error team k = Some (Thread None cs) ->
  run_team add mul (repeat k (2 * length cs) ++ schedule) team s =
  match for_each cs visit s with
  | inl e => inl e
  | inr (_, s') => run_team add mul schedule (upd team k (Thread None [])) s'
  end.
Proof.
  revert team s. induction cs as [|[ii jj] cs IH]; intros team s Hk.
  - cbn. now rewrite (upd_same _ _ _ Hk).
  - replace (2 * length ((ii, jj) :: cs))%nat
      with (S (S (2 * length cs))) by (cbn [length]; lia).
    cbn [repeat app run_team for_each fst snd]. rewrite Hk.
    pose proof (thread_step_twice ii jj cs s) as Htwice.
    unfold bind at 1 in Htwice. unfold bind at 1. unfold bind at 2.
    destruct (thread_step add mul (Thread None ((ii, jj) :: cs)) s)
      as [e|[t1 s1]].
    + destruct (accumulate add mul ii jj s) as [e'|[[] s']];
        [congruence|discriminate].
    + cbn [run_team]. rewrite nth_error_upd, Nat.eqb_refl, Hk.
      cbn [option_map]. unfold bind at 1. rewrite Htwice.
      destruct (accumulate add mul ii jj s) as [e'|[[] s']]; [reflexivity|].
      rewrite upd_upd, IH.
      * now rewrite upd_upd.
      * now rewrite nth_error_upd, Nat.eqb_refl, Hk.
Qed.

Local Abbreviation idle := (fun _ : thread D => @Thread D None []).

Lemma run_in_turn (post pre : list (thread D)) (s : mem D) :
  Forall (fun t => storing t = None) post ->
  run_team add mul (in_turn (length pre) post) (pre ++ post) s =
  match for_each (flat_map (@cells D) post) visit s with
  | inl e => inl e
  | inr (_, s') => inr (pre ++ map idle post, s')
  end.
Proof.
  intros Hpost. revert pre s.
  induction Hpost as [|[st cs] post Ht _ IH]; intros pre s.
  - reflexivity.
  - cbn [storing] in Ht. subst st.
    cbn [in_turn flat_map cells map]. rewrite for_each_app.
    rewrite (run_thread_to_end cs (length pre) _ _ s
               (nth_error_middle pre post _)).
    destruct (for_each cs visit s) as [e|[[] s1]]; [reflexivity|].
    rewrite upd_middle.
    replace (pre ++ Thread None [] :: post)
      with ((pre ++ [Thread None []]) ++ post) by now rewrite <- app_assoc.
    replace (S (length pre)) with (length (pre ++ [@Thread D None []]))
      by (rewrite length_app; cbn; lia).
    rewrite IH. rewrite <- app_assoc. reflexivity.
Qed.


Lemma cells_team_of (T : Z) (chunks : list (list (Z * Z))) :
  flat_map (@cells D) (team_of D T chunks) =
  flat_map (tile_cells T) (concat chunks).
Proof.
  induction chunks as [|c chunks IH]; [reflexivity|].
  cbn [team_of map flat_map cells concat]. rewrite flat_map_app.
  f_equal. exact IH.
Qed.

(** When the threads of the team take their chunks in turn, the parallel
    region is the loop nest in program order. *)
Lemma openmp_tiled_mvm_in_turn (rows cols T : Z)
  (chunks : list (list (Z * Z))) (s : mem D) :
  1 <= T -> concat chunks = tile_origins rows cols T ->
  run_team add mul (in_turn 0 (team_of D T chunks)) (team_of D T chunks) s =
  match openmp_tiled_mvm add mul rows cols T s with
  | inl e => inl e
  | inr (_, s') => inr (map idle (team_of D T chunks), s')
  end.
Proof.
  intros HT Hchunks.
  pose proof (run_in_turn (team_of D T chunks) [] s) as Hrun.
  cbn [length app] in Hrun. rewrite Hrun.
  - rewrite cells_team_of, Hchunks.
    rewrite (openmp_tiled_mvm_visits add mul rows cols T s HT).
    reflexivity.
  - unfold team_of. apply Forall_map, Forall_forall. reflexivity.
Qed.
End TeamFacts.





(** X5: on one process (rank 0 of 1) the MPI kernels need nothing from
    their peers.  [mpi_mvm] is the sequential kernel, fault for fault; and
    [mpi_tiled_mvm], whose loop nest has no pragma, is what the parallel
    region of [openmp_tiled_mvm] does when one thread runs it. *)
Theorem mpi_kernels_on_one_process {D} (zero : D) (add mul : D -> D -> D)
  (peers : list (list D)) (rows cols tile_size : Z) (s : mem D) :
  mpi_mvm zero add mul peers rows cols 0 1 s =
  sequential_mvm zero add mul rows cols s /\
  (1 <= tile_size ->
   run_team add mul
     (in_turn 0 (team_of D tile_size [tile_origins rows cols tile_size]))
     (team_of D tile_size [tile_origins rows cols tile_size]) s =
   match mpi_tiled_mvm add mul peers rows cols 0 1 tile_size s with
   | inl e => inl e
   | inr (_, s') => inr ([Thread None []], s')
   end).
Proof.
  split; [apply mpi_mvm_alone|]. intros HT.
  rewrite mpi_tiled_mvm_alone.
  apply (openmp_tiled_mvm_in_turn add mul rows cols tile_size
           [tile_origins rows cols tile_size] s HT).
  cbn [concat]. apply app_nil_r.
Qed.

Lemma mpi_kernels_on_one_process_witness :
  mpi_mvm 0 Z.add Z.mul [] 4 4 0 1 (constant_mem 4 1 2 3) =
  sequential_mvm 0 Z.add Z.mul 4 4 (constant_mem 4 1 2 3) /\
  run_team Z.add Z.mul
    (in_turn 0 (team_of Z 2 [tile_origins 4 4 2]))
    (team_of Z 2 [tile_origins 4 4 2]) (constant_mem 4 1 2 3) =
  match mpi_tiled_mvm Z.add Z.mul [] 4 4 0 1 2 (constant_mem 4 1 2 3) with
  | inl e => inl e
  | inr (_, s') => inr ([Thread None []], s')
  end.
Proof.
  destruct (mpi_kernels_on_one_process 0 Z.add Z.mul [] 4 4 2
              (constant_mem 4 1 2 3)) as [Hnaive Htiled].
  split; [exact Hnaive|]. apply Htiled. lia.
Defined.

(** ** What a run of [main] leaves *)

Lemma sizes_nonneg : Forall (fun N => 0 <= N) sizes.
Proof.
  eapply Forall_impl; [|exact sizes_tiled]. intros N [H _]. exact H.
Qed.

Lemma benchmark_returns (program_type N rank size : Z) (st st' : proc) :
  1 <= program_type <= 5 ->
  benchmark program_type N rank size st = inr (tt, st') ->
  report st' =
    report st ++ [Timing (label_of program_type) N
                    (hd 0 (tl (clock st)) - hd 0 (clock st))%float] /\
  clock st' = tl (tl (clock st)) /\
  heap st' = heap st /\ stdout st' = stdout st /\
  kernel_of program_type (hd [] (network st)) N rank size (bufs st) =
    inr (tt, bufs st').
Proof.
  intros Hpt.
  assert (program_type = 1 \/ program_type = 2 \/ program_type = 3 \/
          program_type = 4 \/ program_type = 5)
    as [-> | [-> | [-> | [-> | ->]]]] by lia;
    unfold benchmark, kernel_of, label_of; cbn [Z.eqb Pos.eqb];
    unfold bind, get_time, next_peers, on_bufs, fprintf, modify, MPI_Barrier,
      ret;
    destruct st as [b sd h c nw inp o rep]; proc_simpl;
    destruct c as [|t0 [|t1 c2]]; destruct nw as [|peers nw]; proc_simpl;
    cbn [hd tl];
    match goal with
    | |- context [match ?k b with _ => _ end] =>
        destruct (k b) as [e|[[] b']]
    end;
    intros E; inversion E; proc_simpl; repeat split; reflexivity.
Qed.

Section MainReport.
Variable RAND_MAX : Z.
Variable rand_step : Z -> Z * Z.

Local Abbreviation run c rank size :=
  (fun N => run_programs RAND_MAX rand_step c N rank size).

Lemma run_programs_returns (program_type N rank size : Z) (st st' : proc) :
  1 <= program_type <= 5 -> 0 <= N ->
  (Z.to_nat N + 3 <= successes (heap st))%nat ->
  run_programs RAND_MAX rand_step program_type N rank size st = inr (tt, st') ->
  report st' =
    report st ++ [Timing (label_of program_type) N
                    (hd 0 (tl (clock st)) - hd 0 (clock st))%float] /\
  clock st' = tl (tl (clock st)) /\
  heap st' = skipn (Z.to_nat N + 3) (heap st) /\
  stdout st' = stdout st /\
  exists entered,
    fill_random RAND_MAX rand_step N N (allocated N st) = inr (tt, entered) /\
    kernel_of program_type (hd [] (network st)) N rank size (bufs entered) =
      inr (tt, bufs st').
Proof.
  intros Hpt HN Hk E. rewrite run_programs_spec in E.
  destruct (Nat.leb_spec (Z.to_nat N + 3) (successes (heap st))); [|lia].
  destruct (allocated_shaped N st HN Hk)
    as [Hshape [[Hh [Hc [Hn [_ [Ho Hr]]]]] _]].
  destruct (fill_random_spec RAND_MAX rand_step (fun _ => True) (fun _ => I)
              N N (allocated N st) Hshape)
    as [st1 [Hfill [_ [_ [[Hh1 [Hc1 [Hn1 [_ [Ho1 Hr1]]]]] _]]]]].
  unfold bind at 1 in E. rewrite Hfill in E.
  destruct (benchmark_returns program_type N rank size st1 st' Hpt E)
    as [Hrep [Hclock [Hheap [Hout Hkernel]]]].
  rewrite Hrep, Hclock, Hheap, Hout, Hr1, Hc1, Hh1, Ho1, Hr, Hc, Hh, Ho.
  rewrite Hn1, Hn in Hkernel.
  destruct st as [b sd h c nw inp o rep]; proc_simpl. repeat split.
  exists st1. split; [exact Hfill|exact Hkernel].
Qed.

Lemma size_loop_returns (c rank size : Z) (l : list Z) (st st' : proc) :
  1 <= c <= 5 -> Forall (fun N => 0 <= N) l ->
  for_each l (run c rank size) st = inr (tt, st') ->
  report st' =
    report st ++ expected_records (label_of c) l (heap st) (clock st) /\
  stdout st' =
    stdout st ++ repeat allocation_failed
                   (length (failed_sizes l (heap st))).
Proof.
  intros Hc Hl. revert st.
  induction Hl as [|N l HN _ IH]; intros st E.
  - inversion E. cbn. now rewrite !app_nil_r.
  - cbn [for_each expected_records failed_sizes] in *. unfold bind in E.
    destruct (run_programs RAND_MAX rand_step c N rank size st)
      as [e|[[] st1]] eqn:Erun; [discriminate|].
    destruct (IH st1 E) as [Hrep Hout].
    destruct (Nat.leb_spec (Z.to_nat N + 3) (successes (heap st))) as [Hk|Hk].
    + destruct (run_programs_returns c N rank size st st1 Hc HN Hk Erun)
        as [Hrep1 [Hclock1 [Hheap1 [Hout1 _]]]].
      rewrite Hrep, Hout, Hrep1, Hclock1, Hheap1, Hout1, <- app_assoc.
      split; reflexivity.
    + rewrite run_programs_spec in Erun.
      destruct (Nat.leb_spec (Z.to_nat N + 3) (successes (heap st))); [lia|].
      inversion Erun; subst st1. rewrite Hrep, Hout.
      destruct st as [b sd h c' nw inp o rep]; unfold fail_state; proc_simpl.
      rewrite <- app_assoc. split; reflexivity.
Qed.

(** [main] from the selection on, when the report opens. *)
Lemma main_opened (rank size now : Z) (st : proc) :
  main RAND_MAX rand_step rank size now true st =
  match read_choice (at_prompt now st) with
  | inl e => inl e
  | inr (c, st1) =>
      (for_each sizes (run c rank size) ;; ret 0) (report_opened st1)
  end.
Proof.
  pose proof (main_at_prompt now st) as Hp.
  unfold main.
  unfold bind at 1, srand at 1, modify at 1.
  unfold bind at 1, srand at 1, modify at 1 in Hp.
  match goal with
  | |- ?lhs = _ =>
      change lhs with
        ((for_each menu printf ;;
          choice <- read_choice ;;
          modify (fun st0 => with_report st0 []) ;;
          fprintf Header ;;
          for_each sizes (run choice rank size) ;;
          ret 0) (with_seed st (now mod 4294967296)))
  end.
  unfold bind at 1.
  destruct (for_each menu printf (with_seed st (now mod 4294967296)))
    as [e|[[] stp]]; [discriminate|].
  assert (stp = at_prompt now st) as -> by congruence.
  unfold bind at 1.
  destruct (read_choice (at_prompt now st)) as [e|[c st1]]; [reflexivity|].
  unfold bind at 1, modify at 1.
  unfold bind at 1, fprintf at 1, modify at 1.
  unfold report_opened. now destruct st1 as [b sd h c' nw inp o rep].
Qed.

Lemma read_choice_at_prompt (now : Z) (st : proc) (c : Z) (st1 : proc) :
  read_choice (at_prompt now st) = inr (c, st1) ->
  1 <= c <= 5 /\ heap st1 = heap st /\ clock st1 = clock st /\
  report st1 = report st /\ bufs st1 = bufs st /\ network st1 = network st.
Proof.
  intros E.
  destruct (read_choice_loop_accepts _ _ _ _ E) as [Hc _].
  destruct (read_choice_loop_frame _ _ _ _ E)
    as [Hb [_ [Hh [Hcl [Hn Hr]]]]].
  split; [assumption|]. rewrite Hb, Hh, Hcl, Hn, Hr.
  now destruct st as [b sd h c' nw inp o rep].
Qed.

Lemma main_returns (rank size now : Z) (st : proc) (status : Z) (st' : proc) :
  main RAND_MAX rand_step rank size now true st = inr (status, st') ->
  exists c st1,
    read_choice (at_prompt now st) = inr (c, st1) /\ 1 <= c <= 5 /\
    status = 0 /\
    report st' = Header :: expected_records (label_of c) sizes
                             (heap st) (clock st) /\
    stdout st' =
      stdout st1 ++ repeat allocation_failed
                      (length (failed_sizes sizes (heap st))).
Proof.
  intros E. rewrite main_opened in E.
  destruct (read_choice (at_prompt now st)) as [e|[c st1]] eqn:Ec;
    [discriminate|].
  destruct (read_choice_at_prompt now st c st1 Ec)
    as [Hc [Hh [Hcl _]]].
  unfold bind at 1 in E.
  destruct (for_each sizes _ (report_opened st1)) as [e|[[] st2]] eqn:Eloop;
    [discriminate|].
  inversion E; subst status st'.
  destruct (size_loop_returns c rank size sizes _ _ Hc sizes_nonneg Eloop)
    as [Hrep Hout].
  exists c, st1. split; [reflexivity|]. split; [assumption|].
  split; [reflexivity|]. rewrite Hrep, Hout.
  unfold report_opened. destruct st1 as [b sd h c' nw inp o rep]; proc_simpl.
  subst. split; reflexivity.
Qed.
End MainReport.

Section Outcomes.
Variable RAND_MAX : Z.
Variable rand_step : Z -> Z * Z.

(** C9: the selection loop of [main] ends only by accepting a value from
    1 to 5; what it printed meanwhile are re-prompts.  A rejected attempt
    (no number, or one outside 1..5) prints the re-prompt; if a newline
    follows, the rest of the line is discarded and the loop asks again; if
    none follows, the loop that discards the line never ends.  The only
    other outcome is a number no [int] holds, which C leaves undefined.  An
    attempt in 1..5 is returned.  What [main] then benchmarks is the
    variant of the accepted value: at every size whose allocations succeed
    it runs the kernel of that variant on the buffers it filled and writes
    one record with the label of that variant, and the report of a run
    that returns is the header followed by exactly these records. *)
Theorem selection_accepts_one_to_five (rank size now : Z) (st : proc) :
  (forall c st', read_choice st = inr (c, st') ->
     1 <= c <= 5 /\
     exists k, stdout st' = stdout st ++ repeat reprompt k /\
               report st' = report st) /\
  (forall e, read_choice st = inl e -> e = Diverges \/ e = IntOverflow) /\
  (forall r rest rest',
     scan_int (stdin st) = (r, rest) -> rejected r ->
     discard_line rest = Some rest' ->
     read_choice st = read_choice (next_attempt st rest')) /\
  (forall r rest,
     scan_int (stdin st) = (r, rest) -> rejected r ->
     discard_line rest = None ->
     read_choice st = inl Diverges) /\
  (forall c rest,
     scan_int (stdin st) = (Assigned c, rest) -> 1 <= c <= 5 ->
     read_choice st = inr (c, with_stdin st rest)) /\
  (forall status st',
     main RAND_MAX rand_step rank size now true st = inr (status, st') ->
     exists c st1,
       read_choice (at_prompt now st) = inr (c, st1) /\ 1 <= c <= 5 /\
       report st' = Header :: expected_records (label_of c) sizes
                                (heap st) (clock st)) /\
  (forall c st1 N at_N st',
     read_choice (at_prompt now st) = inr (c, st1) -> 0 <= N ->
     (Z.to_nat N + 3 <= successes (heap at_N))%nat ->
     run_programs RAND_MAX rand_step c N rank size at_N = inr (tt, st') ->
     report st' =
       report at_N ++ [Timing (label_of c) N
                         (hd 0 (tl (clock at_N)) - hd 0 (clock at_N))%float] /\
     exists entered,
       fill_random RAND_MAX rand_step N N (allocated N at_N) =
         inr (tt, entered) /\
       kernel_of c (hd [] (network at_N)) N rank size (bufs entered) =
         inr (tt, bufs st')).
Proof.
  split; [|split; [|split; [|split; [|split; [|split]]]]].
  - intros c st' E. now apply (read_choice_loop_accepts _ _ _ _ E).
  - intros e E. unfold read_choice in E.
    destruct (read_choice_fuel (S (length (stdin st))) (S (length (stdin st))) st
                ltac:(lia) ltac:(lia)) as [_ Hne].
    destruct (read_choice_loop_faults _ _ _ E) as [-> | [-> | ->]]; auto.
    contradiction.
  - intros r rest rest' Es Hrej Hd. unfold read_choice at 1.
    rewrite read_choice_loop_step. cbv zeta. rewrite Es, Hd.
    pose proof (scan_int_length _ _ _ Es) as L1.
    pose proof (discard_line_length _ _ Hd) as L2.
    assert (read_choice_loop (length (stdin st)) (next_attempt st rest') =
            read_choice (next_attempt st rest')) as Efuel.
    { unfold read_choice.
      apply read_choice_fuel; unfold next_attempt;
        destruct st as [b sd h c' nw inp o rep]; proc_simpl; lia. }
    destruct r as [v| | |]; simpl in Hrej; try assumption; try contradiction.
    destruct (Z.ltb_spec v 1), (Z.gtb_spec v 5); simpl; try assumption; lia.
  - intros r rest Es Hrej Hd. unfold read_choice.
    rewrite read_choice_loop_step. cbv zeta. rewrite Es, Hd.
    destruct r as [v| | |]; cbn in Hrej; try reflexivity; try contradiction.
    destruct (Z.ltb_spec v 1), (Z.gtb_spec v 5); cbn; try reflexivity; lia.
  - intros c rest Es Hc. unfold read_choice. rewrite read_choice_loop_step.
    cbv zeta. rewrite Es.
    destruct (Z.ltb_spec c 1), (Z.gtb_spec c 5); simpl; try reflexivity; lia.
  - intros status st' E.
    destruct (main_returns RAND_MAX rand_step rank size now st status st' E)
      as [c [st1 [Ec [Hc [_ [Hrep _]]]]]].
    exists c, st1. auto.
  - intros c st1 N at_N st' Ec HN Hk Erun.
    destruct (read_choice_at_prompt now st c st1 Ec) as [Hc _].
    destruct (run_programs_returns RAND_MAX rand_step c N rank size at_N st'
                Hc HN Hk Erun) as [Hrep [_ [_ [_ Hkernel]]]].
    split; assumption.
Qed.


(** X14: once a selection is read, [main] with the report open returns 0
    for the sequential and the OpenMP variants, and for every variant when
    the process is alone, whatever the heap and the clock do: no kernel
    leaves its buffers at any of the sizes.  The report is the header
    followed by exactly one record for each size whose [N + 3] allocations
    succeed, in the order of the loop, with the label of the selection and
    the difference of the two clock readings; the terminal gets one
    message for each of the other sizes. *)
Theorem main_completes_without_peers (rank size now : Z) (st : proc)
  (c : Z) (st1 : proc) :
  read_choice (at_prompt now st) = inr (c, st1) ->
  c = 1 \/ c = 2 \/ c = 4 \/ (rank = 0 /\ size = 1) ->
  exists st',
    main RAND_MAX rand_step rank size now true st = inr (0, st') /\
    report st' = Header :: expected_records (label_of c) sizes
                             (heap st) (clock st) /\
    stdout st' =
      stdout st1 ++ repeat allocation_failed
                      (length (failed_sizes sizes (heap st))).
Proof.
  intros Ec Hc.
  destruct (read_choice_at_prompt now st c st1 Ec) as [Hrange _].
  destruct (size_loop_completes RAND_MAX rand_step c rank size sizes
              (report_opened st1) ltac:(intuition lia)
              sizes_tiled sizes_NoDup)
    as [st' [_ [_ [Hloop _]]]].
  assert (main RAND_MAX rand_step rank size now true st = inr (0, st')) as E.
  { rewrite main_opened, Ec. unfold bind at 1. now rewrite Hloop. }
  exists st'. split; [exact E|].
  destruct (main_returns RAND_MAX rand_step rank size now st 0 st' E)
    as [c' [st1' [Ec' [_ [_ [Hrep Hout]]]]]].
  rewrite Ec in Ec'. inversion Ec'; subst c' st1'. auto.
Qed.
End Outcomes.

Lemma selection_accepts_one_to_five_witness :
  read_choice (typed seven_then_three 0) =
  read_choice (next_attempt (typed seven_then_three 0)
                 (list_ascii_of_string (String "3" nl))) /\
  read_choice (next_attempt (typed seven_then_three 0)
                 (list_ascii_of_string (String "3" nl))) =
  inr (3, with_stdin (next_attempt (typed seven_then_three 0)
                        (list_ascii_of_string (String "3" nl)))
                     [newline]) /\
  1 <= 3 <= 5 /\
  read_choice (typed "7" 0) = inl Diverges /\
  (exists status st' c st1,
     main MSVC_RAND_MAX msvc_rand 0 1 1700000000 true
          (typed (String "1" nl) 131) = inr (status, st') /\
     read_choice (at_prompt 1700000000 (typed (String "1" nl) 131)) =
       inr (c, st1) /\
     1 <= c <= 5 /\
     report st' =
       Header :: expected_records (label_of c) sizes
                   (heap (typed (String "1" nl) 131))
                   (clock (typed (String "1" nl) 131))).
Proof.
  destruct (selection_accepts_one_to_five MSVC_RAND_MAX msvc_rand 0 1 0
              (typed seven_then_three 0)) as [Hin [_ [Hagain _]]].
  destruct (selection_accepts_one_to_five MSVC_RAND_MAX msvc_rand 0 1 0
              (next_attempt (typed seven_then_three 0)
                 (list_ascii_of_string (String "3" nl))))
    as [_ [_ [_ [_ [Haccept _]]]]].
  destruct (selection_accepts_one_to_five MSVC_RAND_MAX msvc_rand 0 1 0
              (typed "7" 0)) as [_ [_ [_ [Hhang _]]]].
  destruct (selection_accepts_one_to_five MSVC_RAND_MAX msvc_rand 0 1
              1700000000 (typed (String "1" nl) 131))
    as [_ [_ [_ [_ [_ [Hreport _]]]]]].
  assert (read_choice (next_attempt (typed seven_then_three 0)
                         (list_ascii_of_string (String "3" nl))) =
          inr (3, with_stdin (next_attempt (typed seven_then_three 0)
                                (list_ascii_of_string (String "3" nl)))
                             [newline])) as E3.
  { apply Haccept; [reflexivity|lia]. }
  assert (read_choice (typed seven_then_three 0) =
          read_choice (next_attempt (typed seven_then_three 0)
                         (list_ascii_of_string (String "3" nl)))) as E7.
  { apply (Hagain (Assigned 7) [newline; "3"%char; newline]).
    - reflexivity.
    - simpl. lia.
    - reflexivity. }
  split; [exact E7|]. split; [exact E3|]. split; [|split].
  - rewrite E7 in Hin. exact (proj1 (Hin _ _ E3)).
  - apply (Hhang (Assigned 7) []); [reflexivity|simpl; lia|reflexivity].
  - assert (exists status st',
              main MSVC_RAND_MAX msvc_rand 0 1 1700000000 true
                   (typed (String "1" nl) 131) = inr (status, st'))
      as [status [st' E]].
    { pose proof main_survives_failed_allocations as Hrun.
      destruct (main MSVC_RAND_MAX msvc_rand 0 1 1700000000 true
                  (typed (String "1" nl) 131)) as [e|[status st']];
        [exact (False_ind _ Hrun)|].
      exists status, st'. reflexivity. }
    destruct (Hreport status st' E) as [c [st1 [Ec [Hc Hrep]]]].
    exists status, st', c, st1.
    split; [exact E|]. split; [exact Ec|]. split; [exact Hc|exact Hrep].
Defined.

(** The selection can surface as a failure of the program: when the input
    ends after an attempt that is rejected, out of range ("7"), not a
    number ("abc") or missing altogether, [main] prints the re-prompt and
    never returns. *)
Lemma selection_hangs_at_end_of_input :
  main MSVC_RAND_MAX msvc_rand 0 1 0 true (typed "7" 0) = inl Diverges /\
  main MSVC_RAND_MAX msvc_rand 0 1 0 true (typed "abc" 0) = inl Diverges /\
  main MSVC_RAND_MAX msvc_rand 0 1 0 true (typed "" 0) = inl Diverges /\
  scan_int (list_ascii_of_string "7") = (Assigned 7, []) /\
  scan_int (list_ascii_of_string "abc") =
    (NoMatch, list_ascii_of_string "abc").
Proof. repeat split; vm_compute; reflexivity. Qed.


Lemma main_completes_without_peers_witness :
  exists st',
    main MSVC_RAND_MAX msvc_rand 0 1 0 true (typed (String "5" nl) 131) =
      inr (0, st') /\
    report st' = [Header; Timing "MPI Tiled" 128 0%float] /\
    stdout st' = menu ++ repeat allocation_failed 9.
Proof.
  apply (main_completes_without_peers MSVC_RAND_MAX msvc_rand 0 1 0
           (typed (String "5" nl) 131) 5
           (with_stdin (at_prompt 0 (typed (String "5" nl) 131)) [newline])).
  - reflexivity.
  - right. right. right. split; reflexivity.
Defined.
